(** * MarkMirror: the Markdown parser of [src/utils/markdownParser.js]

    A shallow embedding of the class [MarkdownParser] and the properties of
    its block dispatcher, block processors, inline engine and escaping pass.

    Strings.  A JavaScript string is a sequence of UTF-16 code units.  This
    development covers the strings whose code units are below 256: a code
    unit is an [ascii] and a string a [list ascii].  On those strings the
    character classes of the regular expressions, [trim] and the DOM
    serialisation used by [escapeHTML] are modelled exactly (code unit 160,
    the no-break space, is white space for [\s] and [trim], and is written
    [&nbsp;] by [innerHTML]).

    Regular expressions.  Every regular expression of the source is written
    as a term of [regex] with the same shape, and is run by a backtracking
    matcher which lists the possible ends of a match in the priority order
    of ECMAScript (greedy quantifiers first): the first element of that list
    is the match JavaScript reports. *)

From Stdlib Require Import Ascii String Numbers.DecimalString.
From Stdlib Require Import Arith Bool Lia List.
Import ListNotations.

(* ================================================================== *)
(** ** Strings as lists of code units *)

Definition str := list ascii.

(** A string literal. *)
Definition L (x : string) : str := list_ascii_of_string x.

Definition LF : ascii := ascii_of_nat 10.
Definition CR : ascii := ascii_of_nat 13.
Definition DQ : ascii := ascii_of_nat 34.
Definition NBSP : ascii := ascii_of_nat 160.

Definition ch_eqb (a b : ascii) : bool := Ascii.eqb a b.

Fixpoint str_eqb (a b : str) : bool :=
  match a, b with
  | [], [] => true
  | x :: a', y :: b' => ch_eqb x y && str_eqb a' b'
  | _, _ => false
  end.

Definition code (c : ascii) : nat := nat_of_ascii c.

Definition in_range (lo hi : nat) (c : ascii) : bool :=
  (lo <=? code c) && (code c <=? hi).

(** [\s]: tab, line feed, vertical tab, form feed, carriage return, space and
    the no-break space. *)
Definition is_space (c : ascii) : bool :=
  in_range 9 13 c || (code c =? 32) || (code c =? 160).

(** [\d] *)
Definition is_digit (c : ascii) : bool := in_range 48 57 c.

(** [\w] *)
Definition is_word (c : ascii) : bool :=
  in_range 97 122 c || in_range 65 90 c || is_digit c || ch_eqb c "_".

(** [.]: every code unit but the line terminators. *)
Definition is_dot (c : ascii) : bool :=
  negb (ch_eqb c LF) && negb (ch_eqb c CR).

(** The classes [a], [[^a]] and [[cs]]. *)
Definition is_ch (a : ascii) (c : ascii) : bool := ch_eqb c a.
Definition not_ch (a : ascii) (c : ascii) : bool := negb (ch_eqb c a).
Definition one_of (cs : str) (c : ascii) : bool := existsb (ch_eqb c) cs.

(** Canonicalisation under the [i] flag, as far as the patterns of the
    source can tell: the letters a-z fold onto A-Z.  The other code units
    below 256 that have an upper case of their own have it at 128 or above,
    where no pattern of the source has a character, so they are left as
    they are. *)
Definition upcase (c : ascii) : ascii :=
  if in_range 97 122 c then ascii_of_nat (code c - 32) else c.

Definition is_ch_i (a : ascii) (c : ascii) : bool := ch_eqb (upcase c) (upcase a).

(** [String.prototype.trim] *)
Fixpoint trimStart (s : str) : str :=
  match s with
  | c :: s' => if is_space c then trimStart s' else s
  | [] => []
  end.

Definition trim (s : str) : str := rev (trimStart (rev (trimStart s))).

(** [Array.prototype.join] *)
Fixpoint join (sep : str) (l : list str) : str :=
  match l with
  | [] => []
  | [x] => x
  | x :: l' => x ++ sep ++ join sep l'
  end.

(** [String.prototype.split] with a one-character separator. *)
Fixpoint split_go (sep : ascii) (s : str) (cur : str) : list str :=
  match s with
  | [] => [cur]
  | c :: s' => if ch_eqb c sep then cur :: split_go sep s' [] else split_go sep s' (cur ++ [c])
  end.

Definition split (sep : ascii) (s : str) : list str := split_go sep s [].

Fixpoint starts_with (p s : str) : bool :=
  match p, s with
  | [], _ => true
  | x :: p', y :: s' => ch_eqb x y && starts_with p' s'
  | _ :: _, [] => false
  end.

(** [String.prototype.indexOf]: the first index at which [p] occurs. *)
Fixpoint indexOf (p s : str) : option nat :=
  if starts_with p s then Some 0
  else match s with
       | [] => None
       | _ :: s' => option_map S (indexOf p s')
       end.

(** [String.prototype.includes] *)
Definition includes (s p : str) : bool :=
  match indexOf p s with Some _ => true | None => false end.

(** The decimal digits of a number, as a template literal prints it. *)
Definition of_nat (n : nat) : str := L (NilZero.string_of_uint (Nat.to_uint n)).

(* ================================================================== *)
(** ** Regular expressions *)

Inductive regex : Type :=
| Eps                                   (* the empty pattern *)
| Cls (p : ascii -> bool)               (* one code unit of a class *)
| Bol                                   (* ^ *)
| Eol                                   (* $ *)
| WordB                                 (* \b *)
| Seq (r1 r2 : regex)                   (* r1 r2 *)
| Rep (p : ascii -> bool) (lo : nat) (hi : option nat)
                                        (* a class under * + ? {lo,hi}, greedy *)
| Opt (r : regex)                       (* r?, greedy *)
| Star (r : regex)                      (* (?:r)*, greedy *)
| NegLook (r : regex)                   (* (?!r) *)
| Grp (r : regex).                      (* a capture group *)

Infix ">>" := Seq (at level 61, right associativity).

(** A literal string, and the same under the [i] flag. *)
Fixpoint Lit (s : str) : regex :=
  match s with
  | [] => Eps
  | c :: s' => Cls (is_ch c) >> Lit s'
  end.

Fixpoint LitI (s : str) : regex :=
  match s with
  | [] => Eps
  | c :: s' => Cls (is_ch_i c) >> LitI s'
  end.

(** The captures of a match; [None] is [undefined]. *)
Definition caps := list (option str).

(** The number of groups of a pattern. *)

Fixpoint ngroups (r : regex) : nat :=
  match r with
  | Seq a b => ngroups a + ngroups b
  | Opt a | Star a => ngroups a
  | Grp a => S (ngroups a)
  | _ => 0
  end.

(** One more code unit may be taken under the upper bound [hi]. *)
Definition hi_ok (hi : option nat) : bool :=
  match hi with Some 0 => false | _ => true end.

(** The ends of the matches of a quantified class at [s], longest first:
    each is the input left after the match. *)
Fixpoint rep (p : ascii -> bool) (lo : nat) (hi : option nat) (s : str) : list str :=
  (match s with
   | c :: s' => if p c && hi_ok hi then rep p (pred lo) (option_map pred hi) s' else []
   | [] => []
   end) ++ (if lo =? 0 then [s] else []).

(** Iteration of a group: an iteration that consumes nothing is refused, as
    ECMAScript does; [fuel] bounds the number of iterations by the length of
    the input left. *)
Fixpoint star (step : str -> list (str * caps)) (fuel : nat) (s : str) : list (str * caps) :=
  match fuel with
  | 0 => [(s, [])]
  | S f =>
      flat_map (fun x : str * caps =>
                  if length (fst x) <? length s then star step f (fst x) else [])
               (step s) ++ [(s, [])]
  end.

(** Is there a word character at a position ([None]: outside the input)? *)
Definition is_word_at (o : option ascii) : bool :=
  match o with Some c => is_word c | None => false end.

(** [m inp r s]: the matches of [r] at the position of the input [inp] where
    [s] is left, in priority order; each gives the input left after it and
    the strings its groups captured, in the order of the groups.  (No
    pattern of the source has a group under a star: the captures of an
    iterated group are not recorded.) *)
Fixpoint m (inp : str) (r : regex) (s : str) : list (str * caps) :=
  match r with
  | Eps => [(s, [])]
  | Cls p => match s with
             | c :: s' => if p c then [(s', [])] else []
             | [] => []
             end
  | Bol => if length s =? length inp then [(s, [])] else []
  | Eol => match s with [] => [(s, [])] | _ :: _ => [] end
  | WordB =>
      let i := length inp - length s in
      let before := match i with 0 => None | S j => nth_error inp j end in
      if xorb (is_word_at before) (is_word_at (hd_error s)) then [(s, [])] else []
  | Seq a b =>
      flat_map (fun x : str * caps =>
                  map (fun y : str * caps => (fst y, snd x ++ snd y)) (m inp b (fst x)))
               (m inp a s)
  | Rep p lo hi => map (fun s' => (s', [])) (rep p lo hi s)
  | Opt a => m inp a s ++ [(s, repeat None (ngroups a))]
  | Star a => map (fun x : str * caps => (fst x, repeat None (ngroups a)))
                  (star (m inp a) (length s) s)
  | NegLook a => match m inp a s with [] => [(s, [])] | _ :: _ => [] end
  | Grp a =>
      map (fun x : str * caps =>
             (fst x, Some (firstn (length s - length (fst x)) s) :: snd x))
          (m inp a s)
  end.

(** The result of a successful match: where it starts, what it matched, the
    input left after it and its captures. *)
Record rmatch := { mindex : nat; matched : str; mrest : str; groups : caps }.

Definition match_here (inp : str) (r : regex) (i : nat) (s : str) : option rmatch :=
  match m inp r s with
  | x :: _ => Some {| mindex := i;
                      matched := firstn (length s - length (fst x)) s;
                      mrest := fst x;
                      groups := snd x |}
  | [] => None
  end.

(** The leftmost match at or after the position where [s] is left. *)
Fixpoint search (inp : str) (r : regex) (i : nat) (s : str) : option rmatch :=
  match match_here inp r i s with
  | Some x => Some x
  | None => match s with
            | [] => None
            | _ :: s' => search inp r (S i) s'
            end
  end.

(** [RegExp.prototype.exec] of a regular expression without the [g] flag,
    which is also [String.prototype.match] for it. *)
Definition exec (r : regex) (s : str) : option rmatch := search s r 0 s.

(** [RegExp.prototype.test] *)
Definition test (r : regex) (s : str) : bool :=
  match exec r s with Some _ => true | None => false end.

(** The n-th capture (from 1); [undefined] is [None]. *)
Definition group (x : rmatch) (n : nat) : option str :=
  match n with
  | 0 => Some (matched x)
  | S k => nth k (groups x) None
  end.

(** A capture that took part in the match, as a string. *)
Definition group_str (x : rmatch) (n : nat) : str :=
  match group x n with Some s => s | None => [] end.

(** [String.prototype.replace] with a global regular expression and a
    replacer function.  The input is scanned from left to right; [skip] is
    the number of code units of the last match still to pass over; after an
    empty match the next code unit is copied and the scan resumes behind it.
    The replacer may keep a state (the array a callback pushes to). *)
Fixpoint replace_st {St : Type} (inp : str) (r : regex) (f : St -> rmatch -> St * str)
    (i : nat) (s : str) (skip : nat) (st : St) : St * str :=
  match skip with
  | S k =>
      match s with
      | [] => (st, [])
      | _ :: s' => replace_st inp r f (S i) s' k st
      end
  | 0 =>
      match match_here inp r i s with
      | Some x =>
          let (st1, out) := f st x in
          match s with
          | [] => (st1, out)
          | c :: s' =>
              match length (matched x) with
              | 0 => let (st2, tl) := replace_st inp r f (S i) s' 0 st1 in
                     (st2, out ++ c :: tl)
              | S k => let (st2, tl) := replace_st inp r f (S i) s' k st1 in
                       (st2, out ++ tl)
              end
          end
      | None =>
          match s with
          | [] => (st, [])
          | c :: s' => let (st2, tl) := replace_st inp r f (S i) s' 0 st in
                       (st2, c :: tl)
          end
      end
  end.

(** ... with a replacer function without side effects. *)
Definition replace_fn (r : regex) (f : rmatch -> str) (s : str) : str :=
  snd (replace_st s r (fun (_ : unit) x => (tt, f x)) 0 s 0 tt).

(** The value of a decimal digit. *)
Definition digit_val (c : ascii) : nat := code c - 48.

(** The abstract operation GetSubstitution of ECMAScript: the expansion of
    the replacement patterns of a replacement string ([$$], [$&], [$`],
    [$'], [$n], [$nn]) for the match [x] in [inp].  There are no named
    groups in the source, so [$<] stands for itself. *)
Fixpoint GetSubstitution (x : rmatch) (inp : str) (t : str) {struct t} : str :=
  match t with
  | [] => []
  | c :: t1 =>
      if negb (ch_eqb c "$") then c :: GetSubstitution x inp t1 else
      match t1 with
      | [] => [c]
      | d :: t2 =>
          if ch_eqb d "$" then "$"%char :: GetSubstitution x inp t2
          else if ch_eqb d "`" then firstn (mindex x) inp ++ GetSubstitution x inp t2
          else if ch_eqb d "&" then matched x ++ GetSubstitution x inp t2
          else if ch_eqb d "'" then mrest x ++ GetSubstitution x inp t2
          else if is_digit d then
            let one :=
              (if (1 <=? digit_val d) && (digit_val d <=? length (groups x))
               then group_str x (digit_val d) else [c; d])
              ++ GetSubstitution x inp t2 in
            match t2 with
            | e :: t3 =>
                if is_digit e && (10 * digit_val d + digit_val e <=? length (groups x))
                then (if 1 <=? 10 * digit_val d + digit_val e
                      then group_str x (10 * digit_val d + digit_val e)
                      else [c; d; e])
                     ++ GetSubstitution x inp t3
                else one
            | [] => one
            end
          else c :: GetSubstitution x inp t1
      end
  end.

(** [replace] with a global regular expression and a replacement string. *)
Definition replace_all (r : regex) (template : str) (s : str) : str :=
  replace_fn r (fun x => GetSubstitution x s template) s.

(** [replace] with a regular expression without the [g] flag and a
    replacement string: the first match only. *)
Definition replace_first (r : regex) (template : str) (s : str) : str :=
  match exec r s with
  | Some x => firstn (mindex x) s ++ GetSubstitution x s template ++ mrest x
  | None => s
  end.

(** [replace] with a string pattern and a replacement string: the first
    occurrence only, and the replacement patterns of the replacement string
    are expanded (there are no captures). *)
Definition replace_str (s : str) (pattern : str) (replacement : str) : str :=
  match indexOf pattern s with
  | Some i =>
      let x := {| mindex := i; matched := pattern;
                  mrest := skipn (i + length pattern) s; groups := [] |} in
      firstn i s ++ GetSubstitution x s replacement ++ skipn (i + length pattern) s
  | None => s
  end.

(* ================================================================== *)
(** ** The DOM and the results of the parser *)

(** [escapeHTML] sets the text of a fresh [div] and reads its [innerHTML]
    back: the HTML serialisation of a text node, which writes [&amp;] for
    [&], [&nbsp;] for the no-break space, [&lt;] for [<] and [&gt;] for [>],
    and every other code unit as it is (quotes included). *)
Definition escape_char (c : ascii) : str :=
  if ch_eqb c "&" then L "&amp;"
  else if ch_eqb c NBSP then L "&nbsp;"
  else if ch_eqb c "<" then L "&lt;"
  else if ch_eqb c ">" then L "&gt;"
  else [c].

Definition escapeHTML (text : str) : str := flat_map escape_char text.

(** What a call produces: a value, a TypeError (a method called on
    [undefined]), or no answer within the fuel given to the dispatcher
    loop. *)
Inductive outcome (A : Type) : Type :=
| Ret (a : A)
| Throw
| OutOfFuel.

Arguments Ret {A} a.
Arguments Throw {A}.
Arguments OutOfFuel {A}.

Definition bind {A B : Type} (x : outcome A) (f : A -> outcome B) : outcome B :=
  match x with
  | Ret a => f a
  | Throw => Throw
  | OutOfFuel => OutOfFuel
  end.

Notation "x <- c ;; k" := (bind c (fun x => k))
  (at level 62, c at next level, right associativity).

(** The object [{ html, nextIndex }] a block processor returns. *)
Record Block := { html : str; nextIndex : nat }.

(* ================================================================== *)
(** ** The regular expressions of the source

    Each is quoted above its term; inside a quotation a blank separates a
    star from a closing parenthesis that follows it in the source. *)

Module Re.

Definition ws_star := Rep is_space 0 None.           (* \s* *)
Definition ws_plus := Rep is_space 1 None.           (* \s+ *)
Definition any_plus := Rep is_dot 1 None.            (* .+ *)
Definition marker := Cls (one_of (L "-*+")).         (* [-*+] *)
Definition C (c : ascii) := Cls (is_ch c).

(** [/^(#{1,6})\s+(.+)$/] *)
Definition header :=
  Bol >> Grp (Rep (is_ch "#") 1 (Some 6)) >> ws_plus >> Grp any_plus >> Eol.

(** [/^```/] *)
Definition fence := Bol >> Lit (L "```").

(** [/^```(\w+)?/] *)
Definition fence_lang := Bol >> Lit (L "```") >> Opt (Grp (Rep is_word 1 None)).

(** [/^```\s*$/] *)
Definition fence_close := Bol >> Lit (L "```") >> ws_star >> Eol.

(** [/^\s*[-*+]\s/] *)
Definition list_bullet := Bol >> ws_star >> marker >> Cls is_space.

(** [/^\s*\d+\.\s/] *)
Definition list_number := Bol >> ws_star >> Rep is_digit 1 None >> C "." >> Cls is_space.

(** [/^(\s* )([-*+])\s+(.+)$/] *)
Definition unordered :=
  Bol >> Grp ws_star >> Grp marker >> ws_plus >> Grp any_plus >> Eol.

(** [/^(\s* )(\d+)\.\s+(.+)$/] *)
Definition ordered :=
  Bol >> Grp ws_star >> Grp (Rep is_digit 1 None) >> C "." >> ws_plus >> Grp any_plus >> Eol.

(** [/^(\s* )([-*+])\s+\[([ x])\]\s+(.+)$/] *)
Definition task :=
  Bol >> Grp ws_star >> Grp marker >> ws_plus >> C "[" >> Grp (Cls (one_of (L " x")))
      >> C "]" >> ws_plus >> Grp any_plus >> Eol.

(** [/^\s*>\s/] *)
Definition quote := Bol >> ws_star >> C ">" >> Cls is_space.

(** [/^\s*>\s?/] *)
Definition quote_marker := Bol >> ws_star >> C ">" >> Rep is_space 0 (Some 1).

(** [/^\s*[-*_]{3,}\s*$/] *)
Definition rule := Bol >> ws_star >> Rep (one_of (L "-*_")) 3 None >> ws_star >> Eol.

(** [/^\s*\|?[\s\-\|:]+\|?\s*$/] *)
Definition sep_char (c : ascii) : bool := is_space c || one_of (L "-|:") c.
Definition separator :=
  Bol >> ws_star >> Rep (is_ch "|") 0 (Some 1) >> Rep sep_char 1 None
      >> Rep (is_ch "|") 0 (Some 1) >> ws_star >> Eol.

(** [/`([^`]+)`/g] *)
Definition code_span := C "`" >> Grp (Rep (not_ch "`") 1 None) >> C "`".

(** [/\[([^\]]+)\]\(([^)]+)\)/g] *)
Definition link :=
  C "[" >> Grp (Rep (not_ch "]") 1 None) >> C "]" >> C "("
        >> Grp (Rep (not_ch ")") 1 None) >> C ")".

(** [/!\[([^\]]* )\]\(([^)]+)\)/g] *)
Definition image :=
  C "!" >> C "[" >> Grp (Rep (not_ch "]") 0 None) >> C "]" >> C "("
        >> Grp (Rep (not_ch ")") 1 None) >> C ")".

(** [/\*\*([^*]+)\*\*/g], [/__([^_]+)__/g], [/~~([^~]+)~~/g] *)
Definition pair2 (c : ascii) :=
  C c >> C c >> Grp (Rep (not_ch c) 1 None) >> C c >> C c.

(** [/\*([^*]+)\*/g], [/_([^_]+)_/g] *)
Definition pair1 (c : ascii) := C c >> Grp (Rep (not_ch c) 1 None) >> C c.

(** [new RegExp(`<${tag}([^>]* )>([^<]* )</${tag}>`, 'gi')] *)
Definition inline_tag (tag : str) :=
  LitI ("<"%char :: tag) >> Grp (Rep (not_ch ">") 0 None) >> C ">"
    >> Grp (Rep (not_ch "<") 0 None) >> LitI (L "</" ++ tag ++ L ">").

(** [/<[^>]+>/g] *)
Definition tag_like := C "<" >> Rep (not_ch ">") 1 None >> C ">".

(** [/<script\b[^<]*(?:(?!<\/script>)<[^<]* )*<\/script>/gi] *)
Definition script :=
  LitI (L "<script") >> WordB >> Rep (not_ch "<") 0 None
    >> Star (NegLook (LitI (L "</script>")) >> C "<" >> Rep (not_ch "<") 0 None)
    >> LitI (L "</script>").

(** [/\r\n/g] and [/\r/g] *)
Definition crlf := C CR >> C LF.
Definition cr := C CR.

End Re.

(* ================================================================== *)
(** ** The inline engine *)

(** processInlineCode *)
Definition processInlineCode (text : str) : str :=
  replace_fn Re.code_span
    (fun x => L "<code>" ++ escapeHTML (group_str x 1) ++ L "</code>") text.

(** processLinks *)
Definition processLinks (text : str) : str :=
  replace_fn Re.link
    (fun x => L "<a href=" ++ [DQ] ++ escapeHTML (group_str x 2) ++ [DQ] ++ L ">"
              ++ escapeHTML (group_str x 1) ++ L "</a>") text.

(** processImages *)
Definition processImages (text : str) : str :=
  replace_fn Re.image
    (fun x => L "<img src=" ++ [DQ] ++ escapeHTML (group_str x 2) ++ [DQ]
              ++ L " alt=" ++ [DQ] ++ escapeHTML (group_str x 1) ++ [DQ] ++ L ">") text.

(** processBoldItalic *)
Definition processBoldItalic (text : str) : str :=
  let text := replace_all (Re.pair2 "*") (L "<strong>$1</strong>") text in
  let text := replace_all (Re.pair2 "_") (L "<strong>$1</strong>") text in
  let text := replace_all (Re.pair1 "*") (L "<em>$1</em>") text in
  let text := replace_all (Re.pair1 "_") (L "<em>$1</em>") text in
  text.

(** processStrikethrough *)
Definition processStrikethrough (text : str) : str :=
  replace_all (Re.pair2 "~") (L "<del>$1</del>") text.

(** processInlineHTML *)
Definition allowedInlineTags : list str := [L "kbd"; L "mark"; L "details"; L "summary"].

Definition processInlineHTML (text : str) : str :=
  fold_left
    (fun text tag =>
       replace_fn (Re.inline_tag tag)
         (fun x => L "<" ++ tag ++ group_str x 1 ++ L ">" ++ group_str x 2
                   ++ L "</" ++ tag ++ L ">") text)
    allowedInlineTags text.

(** processInlineElements *)
Definition processInlineElements (text : str) : str :=
  match text with
  | [] => []
  | _ :: _ =>
      let text := processInlineCode text in
      let text := processImages text in
      let text := processLinks text in
      let text := processBoldItalic text in
      let text := processStrikethrough text in
      let text := processInlineHTML text in
      text
  end.

(* ================================================================== *)
(** ** The escaping pass of paragraphs *)

(** The token [__PROTECTED_${index}__]. *)
Definition placeholder (index : nat) : str :=
  L "__PROTECTED_" ++ of_nat index ++ L "__".

(** One of the three protecting replacements: each match is pushed to
    [protectedElements] and replaced by the token of its index. *)
Definition protect (r : regex) (st : list str * str) : list str * str :=
  let (protectedElements, protectedText) := st in
  replace_st protectedText r
    (fun (elements : list str) x =>
       (elements ++ [matched x], placeholder (length elements)))
    0 protectedText 0 protectedElements.

(** The restoring [forEach]. *)
Fixpoint restore (elements : list str) (index : nat) (protectedText : str) : str :=
  match elements with
  | [] => protectedText
  | element :: rest =>
      restore rest (S index) (replace_str protectedText (placeholder index) element)
  end.

(** escapeHTMLInText *)
Definition escapeHTMLInText (text : str) : str :=
  let st := ([], text) in
  let st := protect Re.code_span st in
  let st := protect Re.link st in
  let st := protect Re.image st in
  let (protectedElements, protectedText) := st in
  let protectedText := replace_fn Re.tag_like (fun x => escapeHTML (matched x)) protectedText in
  restore protectedElements 0 protectedText.

(* ================================================================== *)
(** ** Helper methods *)

(** The string of one line feed. *)
Definition nl : str := [LF].

(** isTableRow *)
Definition isTableRow (line : str) : bool :=
  includes line (L "|") && (0 <? length (trim line)).

(** isTableSeparator *)
Definition isTableSeparator (line : str) : bool := test Re.separator line.

(** parseTableRow *)
Definition parseTableRow (line : str) : list str :=
  filter (fun cell => negb (str_eqb cell [])) (map trim (split "|" line)).

(* ================================================================== *)
(** ** Block processors

    A [while] loop that advances [i] by one at each turn is a recursion on
    [rest], the lines from index [i] on ([rest] is empty exactly when
    [i < lines.length] fails). *)

(** The loop of processFencedCodeBlock. *)
Fixpoint fence_loop (rest : list str) (i : nat) (codeLines : list str) : list str * nat :=
  match rest with
  | [] => (codeLines, i)
  | line :: rest' =>
      if negb (test Re.fence_close line)
      then fence_loop rest' (S i) (codeLines ++ [line])
      else (codeLines, i)
  end.

(** processFencedCodeBlock *)
Definition processFencedCodeBlock (lines : list str) (startIndex : nat) : outcome Block :=
  match nth_error lines startIndex with
  | None => Throw
  | Some startLine =>
      let langMatch := exec Re.fence_lang startLine in
      let language :=
        match langMatch with
        | Some x => match group x 1 with
                    | Some (c :: l) => c :: l
                    | _ => []
                    end
        | None => []
        end in
      let (codeLines, i) := fence_loop (skipn (startIndex + 1) lines) (startIndex + 1) [] in
      let code := escapeHTML (join nl codeLines) in
      let langClass :=
        match language with
        | _ :: _ => L " class=" ++ [DQ] ++ L "language-" ++ language ++ [DQ]
        | [] => []
        end in
      Ret {| html := L "<pre><code" ++ langClass ++ L ">" ++ code ++ L "</code></pre>";
             nextIndex := i + 1 |}
  end.

(** The collecting loop of processTable. *)
Fixpoint table_loop (rest : list str) (i : nat) (tableLines : list str) : list str * nat :=
  match rest with
  | [] => (tableLines, i)
  | line :: rest' =>
      if isTableRow line
      then table_loop rest' (S i) (tableLines ++ [line])
      else (tableLines, i)
  end.

(** processTable; [None] is [null]. *)
Definition processTable (lines : list str) (startIndex : nat) : option Block :=
  let (tableLines, i) := table_loop (skipn startIndex lines) startIndex [] in
  if length tableLines <? 2 then None
  else
    let headerRow := parseTableRow (nth 0 tableLines []) in
    let dataRows := map parseTableRow (skipn 2 tableLines) in
    let html := L "<table>" ++ nl ++ L "<thead>" ++ nl ++ L "<tr>" ++ nl in
    let html :=
      fold_left (fun html cell =>
                   html ++ L "<th>" ++ processInlineElements cell ++ L "</th>" ++ nl)
                headerRow html in
    let html := html ++ L "</tr>" ++ nl ++ L "</thead>" ++ nl ++ L "<tbody>" ++ nl in
    let html :=
      fold_left (fun html row =>
                   let html := html ++ L "<tr>" ++ nl in
                   let html :=
                     fold_left (fun html cell =>
                                  html ++ L "<td>" ++ processInlineElements cell
                                       ++ L "</td>" ++ nl)
                               row html in
                   html ++ L "</tr>" ++ nl)
                dataRows html in
    let html := html ++ L "</tbody>" ++ nl ++ L "</table>" in
    Some {| html := html; nextIndex := i |}.

(** The items of a list. *)
Inductive ItemType := task | unordered | ordered.

Record ListItem := {
  type : ItemType;
  indent : nat;
  content : str;
  checked : bool
}.

(** [listType] is [null] ([None]), ['ul'] or ['ol']. *)
Inductive ListTag := ul | ol.

Definition tag_name (t : option ListTag) : str :=
  match t with
  | Some ul => L "ul"
  | Some ol => L "ol"
  | None => L "null"
  end.

(** [if (!listType) listType = t] *)
Definition set_if_null (listType : option ListTag) (t : ListTag) : option ListTag :=
  match listType with
  | None => Some t
  | Some _ => listType
  end.

(** What one turn of the loop of processList makes of a line: the item it
    pushes and the tag it proposes, or [None] for [break]. *)
Definition list_item (line : str) : option (ListItem * ListTag) :=
  let unorderedMatch := exec Re.unordered line in
  let orderedMatch := exec Re.ordered line in
  let taskMatch := exec Re.task line in
  match taskMatch with
  | Some x =>
      Some ({| type := task;
               indent := length (group_str x 1);
               content := processInlineElements (group_str x 4);
               checked := str_eqb (group_str x 3) (L "x") |}, ul)
  | None =>
      match unorderedMatch with
      | Some x =>
          Some ({| type := unordered;
                   indent := length (group_str x 1);
                   content := processInlineElements (group_str x 3);
                   checked := false |}, ul)
      | None =>
          match orderedMatch with
          | Some x =>
              Some ({| type := ordered;
                       indent := length (group_str x 1);
                       content := processInlineElements (group_str x 3);
                       checked := false |}, ol)
          | None => None
          end
      end
  end.

(** The loop of processList. *)
Fixpoint list_loop (rest : list str) (i : nat) (listItems : list ListItem)
    (listType : option ListTag) : list ListItem * nat * option ListTag :=
  match rest with
  | [] => (listItems, i, listType)
  | line :: rest' =>
      match list_item line with
      | Some (item, t) =>
          list_loop rest' (S i) (listItems ++ [item]) (set_if_null listType t)
      | None => (listItems, i, listType)
      end
  end.

Definition render_item (html : str) (item : ListItem) : str :=
  match type item with
  | task =>
      let checkedAttr := if checked item then L " checked" else [] in
      html ++ L "<li class=" ++ [DQ] ++ L "task-list-item" ++ [DQ] ++ L "><input type="
           ++ [DQ] ++ L "checkbox" ++ [DQ] ++ checkedAttr ++ L " disabled> "
           ++ content item ++ L "</li>" ++ nl
  | _ => html ++ L "<li>" ++ content item ++ L "</li>" ++ nl
  end.

(** processList *)
Definition processList (lines : list str) (startIndex : nat) : Block :=
  let '(listItems, i, listType) := list_loop (skipn startIndex lines) startIndex [] None in
  let html := L "<" ++ tag_name listType ++ L ">" ++ nl in
  let html := fold_left render_item listItems html in
  let html := html ++ L "</" ++ tag_name listType ++ L ">" in
  {| html := html; nextIndex := i |}.

(** The loop of processBlockquote. *)
Fixpoint quote_loop (rest : list str) (i : nat) (quoteLines : list str) : list str * nat :=
  match rest with
  | [] => (quoteLines, i)
  | line :: rest' =>
      if test Re.quote line
      then quote_loop rest' (S i) (quoteLines ++ [replace_first Re.quote_marker [] line])
      else (quoteLines, i)
  end.

(** processBlockquote *)
Definition processBlockquote (lines : list str) (startIndex : nat) : Block :=
  let (quoteLines, i) := quote_loop (skipn startIndex lines) startIndex [] in
  let content := processInlineElements (join nl quoteLines) in
  {| html := L "<blockquote>" ++ content ++ L "</blockquote>"; nextIndex := i |}.

(** processBlockElement; [Ret None] is [null]. *)
Definition processBlockElement (lines : list str) (startIndex : nat) : outcome (option Block) :=
  match nth_error lines startIndex with
  | None => Throw
  | Some line =>
      match exec Re.header line with
      | Some headerMatch =>
          let level := length (group_str headerMatch 1) in
          let text := processInlineElements (group_str headerMatch 2) in
          Ret (Some {| html := L "<h" ++ of_nat level ++ L ">" ++ text
                               ++ L "</h" ++ of_nat level ++ L ">";
                       nextIndex := startIndex + 1 |})
      | None =>
          if test Re.fence line then
            b <- processFencedCodeBlock lines startIndex ;; Ret (Some b)
          else if isTableRow line && (startIndex + 1 <? length lines)
                  && isTableSeparator (nth (startIndex + 1) lines []) then
            Ret (processTable lines startIndex)
          else if test Re.list_bullet line || test Re.list_number line then
            Ret (Some (processList lines startIndex))
          else if test Re.quote line then
            Ret (Some (processBlockquote lines startIndex))
          else if test Re.rule line then
            Ret (Some {| html := L "<hr>"; nextIndex := startIndex + 1 |})
          else Ret None
      end
  end.

(** The loop of processParagraph. *)
Fixpoint paragraph_loop (lines rest : list str) (i : nat) (paragraphLines : list str)
    : outcome (list str * nat) :=
  match rest with
  | [] => Ret (paragraphLines, i)
  | line :: rest' =>
      if str_eqb (trim line) [] then Ret (paragraphLines, i)
      else
        b <- processBlockElement lines i ;;
        match b with
        | Some _ => Ret (paragraphLines, i)
        | None => paragraph_loop lines rest' (S i) (paragraphLines ++ [line])
        end
  end.

(** processParagraph *)
Definition processParagraph (lines : list str) (startIndex : nat) : outcome Block :=
  r <- paragraph_loop lines (skipn startIndex lines) startIndex [] ;;
  let (paragraphLines, i) := r in
  match paragraphLines with
  | [] => Ret {| html := []; nextIndex := i + 1 |}
  | _ :: _ =>
      let content := join (L " ") paragraphLines in
      let content := escapeHTMLInText content in
      let content := processInlineElements content in
      Ret {| html := L "<p>" ++ content ++ L "</p>"; nextIndex := i |}
  end.

(* ================================================================== *)
(** ** The block dispatcher and [parse] *)

(** The loop of processLines.  [nextIndex] is whatever a processor returns,
    so the loop is run with fuel: one unit per turn. *)
Fixpoint processLines_loop (fuel : nat) (lines : list str) (i : nat) (result : list str)
    : outcome str :=
  match fuel with
  | 0 => OutOfFuel
  | S fuel' =>
      if i <? length lines then
        match nth_error lines i with
        | None => Throw
        | Some line =>
            if str_eqb (trim line) [] && (length result =? 0) then
              processLines_loop fuel' lines (S i) result
            else
              blockResult <- processBlockElement lines i ;;
              match blockResult with
              | Some b => processLines_loop fuel' lines (nextIndex b) (result ++ [html b])
              | None =>
                  paragraphResult <- processParagraph lines i ;;
                  processLines_loop fuel' lines (nextIndex paragraphResult)
                                    (result ++ [html paragraphResult])
              end
        end
      else Ret (join nl result)
  end.

(** processLines *)
Definition processLines (fuel : nat) (lines : list str) : outcome str :=
  processLines_loop fuel lines 0 [].

(** The options of the constructor, and the global [DOMPurify] when the page
    has loaded it: its [sanitize], given the HTML and the allowed tags. *)
Record Options := { sanitizeHTML_option : bool; allowedTags : list str }.

Definition default_options : Options :=
  {| sanitizeHTML_option := true;
     allowedTags :=
       map L ["p"; "br"; "strong"; "em"; "code"; "pre"; "h1"; "h2"; "h3"; "h4"; "h5"; "h6";
              "ul"; "ol"; "li"; "blockquote"; "a"; "img"; "table"; "thead"; "tbody"; "tr";
              "th"; "td"; "details"; "summary"; "kbd"; "mark"; "del"; "ins"]%string |}.

Section Parse.

Variable options : Options.
Variable DOMPurify : option (str -> list str -> str).

(** sanitizeHTML *)
Definition sanitizeHTML (html : str) : str :=
  match DOMPurify with
  | Some sanitize => sanitize html (allowedTags options)
  | None => replace_all Re.script [] html
  end.

(** parse, on a string.  (On a value that is not a string the source
    returns the empty string, as it does on the empty string.) *)
Definition parse (fuel : nat) (markdown : str) : outcome str :=
  match markdown with
  | [] => Ret []
  | _ :: _ =>
      let normalized := replace_all Re.cr nl (replace_all Re.crlf nl markdown) in
      let lines := split LF normalized in
      html <- processLines fuel lines ;;
      Ret (if sanitizeHTML_option options then sanitizeHTML html else html)
  end.

End Parse.

(* ================================================================== *)
(** * The vocabulary of the tests and properties

    The shapes of lines the block processors are specified with, the
    blocks they are expected to return, and the conditions under which a
    pattern cannot match. *)

(** ** Runs of a class *)

(** The length [n] of a run is allowed by the upper bound [hi]. *)
Definition within (n : nat) (hi : option nat) : Prop :=
  match hi with Some h => n <= h | None => True end.

(** A character that stops a run of the class [p]: the input ends, or its
    next code unit is outside [p]. *)
Definition stops (p : ascii -> bool) (s : str) : Prop :=
  match s with
  | [] => True
  | c :: _ => p c = false
  end.

(** A class without white space. *)
Definition no_space (p : ascii -> bool) : Prop :=
  forall x, p x = true -> is_space x = false.

(** ** Lines and blocks *)

(** The table gate of processBlockElement. *)
Definition table_gate (lines : list str) (startIndex : nat) (line : str) : bool :=
  isTableRow line && (startIndex + 1 <? length lines)
  && isTableSeparator (nth (startIndex + 1) lines []).

(** A line that opens the list gate of processBlockElement and is no item
    for processList. *)
Definition stuck_line (line : str) : bool :=
  (test Re.list_bullet line || test Re.list_number line)
  && match list_item line with Some _ => false | None => true end.

(** The lines [parse] splits its input into. *)
Definition lines_of (markdown : str) : list str :=
  split LF (replace_all Re.cr nl (replace_all Re.crlf nl markdown)).

(** What an item adds to the HTML of the list. *)
Definition item_html (item : ListItem) : str := render_item [] item.


(** The paragraph that starts on a line which is not blank and which no
    block processor takes. *)
Definition paragraph_block (i : nat) (line : str) (more : list str) : Block :=
  {| html := L "<p>"
             ++ processInlineElements (escapeHTMLInText (join (L " ") (line :: more)))
             ++ L "</p>";
     nextIndex := S i + length more |}.

(** The block of a header of level [n] with the text [t]. *)
Definition header_block (i n : nat) (t : str) : Block :=
  {| html := L "<h" ++ of_nat n ++ L ">" ++ processInlineElements t
             ++ L "</h" ++ of_nat n ++ L ">";
     nextIndex := i + 1 |}.

(** A blockquote line: white space, [>], one code unit of white space, and
    the [body] that is kept. *)
Definition quote_line (l body : str) : Prop :=
  exists (ws : str) (c : ascii),
    l = ws ++ ">"%char :: c :: body /\
    Forall (fun x => is_space x = true) ws /\ is_space c = true.

(** The block of a blockquote over the bodies of its lines. *)
Definition quote_block (i : nat) (bodies : list str) : Block :=
  {| html := L "<blockquote>" ++ processInlineElements (join nl bodies)
             ++ L "</blockquote>";
     nextIndex := i + length bodies |}.

(** The class [[-*_]]. *)
Definition is_rule_char (c : ascii) : bool := one_of (L "-*_") c.

(** A rule line: white space, three or more code units among [-], [*] and
    [_] (in any mixture), white space. *)
Definition rule_line (l : str) : Prop :=
  exists (ws1 body ws2 : str),
    l = ws1 ++ body ++ ws2 /\
    Forall (fun x => is_space x = true) ws1 /\
    Forall (fun x => is_rule_char x = true) body /\
    3 <= length body /\
    Forall (fun x => is_space x = true) ws2.

(** ** Texts in which a pattern does not match *)

(** A pattern is quiet on a text when it matches at no position of it. *)
Definition quiet (r : regex) (text : str) : Prop :=
  forall inp pre t, text = pre ++ t -> m inp r t = [].

(** Absence of a code unit, as a boolean. *)
Definition lacks (cs : str) (s : str) : bool := forallb (fun c => negb (one_of cs c)) s.

(** No [<] of the text is followed by the first letter of a tag of
    processInlineHTML. *)
Fixpoint no_tag_start (s : str) : bool :=
  match s with
  | [] => true
  | c :: s' =>
      negb (ch_eqb c "<"
            && match s' with
               | x :: _ => one_of (L "kmdsKMDS") x
               | [] => false
               end)
      && no_tag_start s'
  end.

(** ** Escaping *)

(** The code units [escapeHTML] rewrites. *)
Definition is_special (c : ascii) : bool :=
  one_of ("&"%char :: "<"%char :: ">"%char :: [NBSP]) c.

(** ** Tables *)

(** The HTML of a header cell, of a data cell and of a data row. *)
Definition th_html (cell : str) : str :=
  L "<th>" ++ processInlineElements cell ++ L "</th>" ++ nl.

Definition td_html (cell : str) : str :=
  L "<td>" ++ processInlineElements cell ++ L "</td>" ++ nl.

Definition row_html (row : str) : str :=
  L "<tr>" ++ nl ++ flat_map td_html (parseTableRow row) ++ L "</tr>" ++ nl.

(** The block of the table that starts at line [i] with the header line
    [header], a second line, and the data lines [rows]. *)
Definition table_block (i : nat) (header : str) (rows : list str) : Block :=
  {| html := L "<table>" ++ nl ++ L "<thead>" ++ nl ++ L "<tr>" ++ nl
             ++ flat_map th_html (parseTableRow header)
             ++ L "</tr>" ++ nl ++ L "</thead>" ++ nl ++ L "<tbody>" ++ nl
             ++ flat_map row_html rows
             ++ L "</tbody>" ++ nl ++ L "</table>";
     nextIndex := i + 2 + length rows |}.

(** ** Fenced code *)

(** The block of a fence opened at line [i] with the language [language]
    (empty: none) and closed behind the lines [body]. *)
Definition fence_block (i : nat) (language : str) (body : list str) : Block :=
  {| html := L "<pre><code"
             ++ match language with
                | _ :: _ => L " class=" ++ [DQ] ++ L "language-" ++ language ++ [DQ]
                | [] => []
                end
             ++ L ">" ++ escapeHTML (join nl body) ++ L "</code></pre>";
     nextIndex := i + length body + 2 |}.

(** ** Line endings *)

(** Every carriage return that a line feed follows is dropped. *)
Fixpoint crlf_to_lf (s : str) : str :=
  match s with
  | [] => []
  | c :: s' =>
      match s' with
      | d :: s'' =>
          if ch_eqb c CR && ch_eqb d LF then LF :: crlf_to_lf s'' else c :: crlf_to_lf s'
      | [] => [c]
      end
  end.

(** Every carriage return becomes a line feed. *)
Definition cr_to_lf (s : str) : str := map (fun c => if ch_eqb c CR then LF else c) s.

(** A text with line feeds, written with the line ending of Windows and
    with that of the classic Mac OS. *)
Definition to_crlf (s : str) : str :=
  flat_map (fun c => if ch_eqb c LF then [CR; LF] else [c]) s.

Definition to_cr (s : str) : str := map (fun c => if ch_eqb c LF then CR else c) s.

(** ** Inline elements *)

(** A replacer that looks at what was matched and captured only. *)
Definition local (f : rmatch -> str) : Prop :=
  forall x x', matched x = matched x' -> groups x = groups x' -> f x = f x'.

(** The anchor of a link and the element of an image. *)
Definition link_html (text url : str) : str :=
  L "<a href=" ++ [DQ] ++ escapeHTML url ++ [DQ] ++ L ">" ++ escapeHTML text ++ L "</a>".

Definition image_html (alt src : str) : str :=
  L "<img src=" ++ [DQ] ++ escapeHTML src ++ [DQ] ++ L " alt=" ++ [DQ]
    ++ escapeHTML alt ++ [DQ] ++ L ">".

(** What the replacement strings of the emphasis stages expand to: the
    first capture between an opening and a closing tag. *)
Definition wrap (opening closing : str) (c : caps) : str :=
  opening
  ++ (if 1 <=? length c
      then match nth 0 c None with Some s => s | None => [] end
      else L "$1")
  ++ closing.

(** No two code units [a] stand side by side. *)
Fixpoint no_double (a : ascii) (s : str) : bool :=
  match s with
  | x :: s' =>
      match s' with
      | y :: _ => negb (ch_eqb x a && ch_eqb y a) && no_double a s'
      | [] => true
      end
  | [] => true
  end.




(** ** Lists *)

(** The text of an item starts like a checkbox: [[], a blank or [x], []]
    and a code unit of white space. *)
Definition checkbox_start (body : str) : bool :=
  match body with
  | b :: k :: e :: w :: _ =>
      ch_eqb b "[" && one_of (L " x") k && ch_eqb e "]" && is_space w
  | _ => false
  end.

(** The items the loop of processList makes of lines that are all items. *)
Definition items_of (run : list str) : list ListItem :=
  flat_map (fun line => match list_item line with
                        | Some (item, _) => [item]
                        | None => []
                        end) run.

(** The block of the list that starts at line [i] with the item lines
    [run], under the tag [t]. *)
Definition list_block (i : nat) (t : ListTag) (run : list str) : Block :=
  {| html := L "<" ++ tag_name (Some t) ++ L ">" ++ nl
             ++ concat (map item_html (items_of run))
             ++ L "</" ++ tag_name (Some t) ++ L ">";
     nextIndex := i + length run |}.

(** An empty item: white space, a marker or a number and a dot, one code
    unit of white space, and nothing more. *)
Definition empty_item (line : str) : Prop :=
  exists (ind : str) (w : ascii),
    Forall (fun x => is_space x = true) ind /\ is_space w = true /\
    ((exists mk : ascii, one_of (L "-*+") mk = true /\ line = ind ++ [mk; w]) \/
     (exists digits : str,
        digits <> [] /\ Forall (fun x => is_digit x = true) digits /\
        line = ind ++ digits ++ ["."%char; w])).

(** ** Paragraphs *)

(** A line of plain text: its first code unit that is not white space
    starts no block, and it holds no [|]. *)
Definition plain_line (l : str) : bool :=
  match trimStart l with
  | x :: _ => negb (one_of (L "#`-*+>_0123456789") x) && negb (includes l (L "|"))
  | [] => false
  end.

(** The HTML of the paragraph made of some lines. *)
Definition paragraph_html (para : list str) : str :=
  L "<p>" ++ processInlineElements (escapeHTMLInText (join (L " ") para)) ++ L "</p>".

(** ** The unit tests of the repository *)





(* ================================================================== *)
(** * The unit tests of the repository

    The fifteen tests of the parser's test file, each an input and the
    substrings its output must contain: the embedding passes them all. *)
















(* ================================================================== *)
(** * Properties *)

(** ** Code units and strings *)

Lemma ch_eqb_true (a b : ascii) : ch_eqb a b = true <-> a = b.
Proof. apply Ascii.eqb_eq. Qed.

Lemma ch_eqb_false (a b : ascii) : ch_eqb a b = false <-> a <> b.
Proof. apply Ascii.eqb_neq. Qed.

Lemma ch_eqb_refl (a : ascii) : ch_eqb a a = true.
Proof. apply Ascii.eqb_refl. Qed.

Lemma str_eqb_nil (s : str) : str_eqb s [] = true <-> s = [].
Proof. destruct s; simpl; split; congruence. Qed.

Lemma not_ch_true (a c : ascii) : not_ch a c = true <-> c <> a.
Proof.
  unfold not_ch. rewrite negb_true_iff. apply ch_eqb_false.
Qed.

Lemma hd_error_app {A : Type} (l1 l2 : list A) (x : A) :
  hd_error l1 = Some x -> hd_error (l1 ++ l2) = Some x.
Proof. destruct l1; simpl; congruence. Qed.

Lemma firstn_app_len {A : Type} (run rest : list A) :
  firstn (length (run ++ rest) - length rest) (run ++ rest) = run.
Proof.
  rewrite length_app, Nat.add_sub.
  rewrite firstn_app, Nat.sub_diag, firstn_all. simpl. apply app_nil_r.
Qed.

(** A string is blank for [trim] exactly when all its code units are white
    space. *)
Lemma trimStart_nil (s : str) :
  trimStart s = [] <-> Forall (fun c => is_space c = true) s.
Proof.
  induction s as [|c s IH]; simpl.
  - split; auto.
  - destruct (is_space c) eqn:E.
    + rewrite IH. split; intros H.
      * constructor; assumption.
      * inversion H; assumption.
    + split; intros H; [discriminate|]. inversion H; congruence.
Qed.

Lemma trimStart_keeps (s : str) (c : ascii) :
  In c s -> is_space c = false -> exists d, In d (trimStart s) /\ is_space d = false.
Proof.
  induction s as [|x s IH]; simpl; [tauto|].
  intros [->|Hin] Hc.
  - rewrite Hc. exists c. simpl. auto.
  - destruct (is_space x) eqn:E; [auto|].
    exists x. simpl. auto.
Qed.

Lemma trim_nonblank (s : str) (c : ascii) :
  In c s -> is_space c = false -> trim s <> [].
Proof.
  intros Hin Hc. unfold trim.
  destruct (trimStart_keeps s c Hin Hc) as (d & Hd & Hds).
  apply in_rev in Hd.
  destruct (trimStart_keeps _ d Hd Hds) as (e & He & _).
  intros Hnil. apply in_rev in He. rewrite Hnil in He. exact He.
Qed.

Lemma trim_blank (s : str) :
  Forall (fun c => is_space c = true) s -> trim s = [].
Proof.
  intros H. unfold trim.
  assert (E : trimStart s = []) by (apply trimStart_nil; exact H).
  rewrite E. reflexivity.
Qed.

(** ** Quantified classes *)

Lemma within_pred (n : nat) (hi : option nat) :
  within (S n) hi -> within n (option_map pred hi) /\ hi_ok hi = true.
Proof.
  destruct hi as [[|h]|]; simpl; intros; split; auto; lia.
Qed.

(** Every end that [rep] lists is reached over a run of the class of an
    allowed length. *)
Lemma rep_In (p : ascii -> bool) (s : str) :
  forall lo hi r, In r (rep p lo hi s) ->
    exists run, s = run ++ r /\ Forall (fun c => p c = true) run
                /\ lo <= length run /\ within (length run) hi.
Proof.
  induction s as [|c s IH]; intros lo hi r; simpl.
  - destruct (lo =? 0) eqn:E; simpl; [|tauto].
    intros [<-|[]]. exists []. apply Nat.eqb_eq in E. subst.
    repeat split; auto. destruct hi; simpl; lia.
  - intros H. apply in_app_or in H. destruct H as [H|H].
    + destruct (p c) eqn:Ep; [|destruct H].
      destruct hi as [[|h]|]; cbn [andb hi_ok] in H; try (destruct H; fail);
        apply IH in H; destruct H as (run & -> & Hrun & Hlo & Hhi);
        exists (c :: run); simpl in *; repeat split; auto; lia.
    + destruct (lo =? 0) eqn:E; simpl in H; [|tauto].
      destruct H as [<-|[]]. exists []. apply Nat.eqb_eq in E. subst.
      repeat split; auto. destruct hi; simpl; lia.
Qed.

(** Greedy matching: the first end listed is behind the longest run. *)
Lemma rep_first (p : ascii -> bool) (run rest : str) :
  forall lo hi,
    Forall (fun c => p c = true) run -> stops p rest ->
    lo <= length run -> within (length run) hi ->
    hd_error (rep p lo hi (run ++ rest)) = Some rest.
Proof.
  induction run as [|c run IH]; intros lo hi Hrun Hstop Hlo Hhi.
  - simpl in Hlo. assert (lo = 0) by lia. subst lo.
    destruct rest as [|d rest]; simpl; [reflexivity|].
    simpl in Hstop. rewrite Hstop. reflexivity.
  - inversion Hrun as [|? ? Hc Hrun']; subst.
    destruct (within_pred _ _ Hhi) as [Hhi' Hok].
    simpl. rewrite Hc, Hok. simpl.
    apply hd_error_app. apply IH; auto. simpl in Hlo. lia.
Qed.

Lemma rep_none (p : ascii -> bool) (lo : nat) (hi : option nat) (s : str) :
  1 <= lo -> stops p s -> rep p lo hi s = [].
Proof.
  intros Hlo Hs. destruct lo as [|lo]; [lia|].
  destruct s as [|c s]; simpl; [reflexivity|].
  simpl in Hs. rewrite Hs. reflexivity.
Qed.

(** ** The matcher *)

Lemma m_seq_first (inp : str) (a b : regex) (s s1 s2 : str) (c1 c2 : caps) :
  hd_error (m inp a s) = Some (s1, c1) ->
  hd_error (m inp b s1) = Some (s2, c2) ->
  hd_error (m inp (a >> b) s) = Some (s2, c1 ++ c2).
Proof.
  simpl. destruct (m inp a s) as [|x l]; simpl; [discriminate|].
  intros [= ->]. simpl.
  destruct (m inp b s1) as [|y l']; simpl; [discriminate|].
  intros [= ->]. reflexivity.
Qed.

Lemma m_seq_In (inp : str) (a b : regex) (s s2 : str) (c : caps) :
  In (s2, c) (m inp (a >> b) s) <->
  exists s1 c1 c2, In (s1, c1) (m inp a s) /\ In (s2, c2) (m inp b s1) /\ c = c1 ++ c2.
Proof.
  simpl. rewrite in_flat_map. split.
  - intros ([s1 c1] & Ha & Hb). apply in_map_iff in Hb.
    destruct Hb as ([s2' c2] & [= <- <-] & Hb). simpl in *.
    exists s1, c1, c2. auto.
  - intros (s1 & c1 & c2 & Ha & Hb & ->).
    exists (s1, c1). split; [assumption|].
    apply in_map_iff. exists (s2, c2). auto.
Qed.

Lemma m_seq_none (inp : str) (a b : regex) (s : str) :
  (forall s1 c1, In (s1, c1) (m inp a s) -> m inp b s1 = []) ->
  m inp (a >> b) s = [].
Proof.
  intros H. destruct (m inp (a >> b) s) as [|[s2 c] l] eqn:E; [reflexivity|].
  assert (Hin : In (s2, c) (m inp (a >> b) s)) by (rewrite E; left; reflexivity).
  apply m_seq_In in Hin. destruct Hin as (s1 & c1 & c2 & Ha & Hb & _).
  rewrite (H _ _ Ha) in Hb. destruct Hb.
Qed.

Lemma m_grp_first (inp : str) (a : regex) (s s1 : str) (c1 : caps) :
  hd_error (m inp a s) = Some (s1, c1) ->
  hd_error (m inp (Grp a) s)
  = Some (s1, Some (firstn (length s - length s1) s) :: c1).
Proof.
  simpl. destruct (m inp a s) as [|x l]; simpl; [discriminate|].
  intros [= ->]. reflexivity.
Qed.

Lemma m_grp_In (inp : str) (a : regex) (s s1 : str) (c : caps) :
  In (s1, c) (m inp (Grp a) s) -> exists c1, In (s1, c1) (m inp a s).
Proof.
  simpl. rewrite in_map_iff. intros ([s1' c1] & [= <- _] & H). eauto.
Qed.

Lemma m_rep_first (inp : str) (p : ascii -> bool) (lo : nat) (hi : option nat)
    (run rest : str) :
  Forall (fun c => p c = true) run -> stops p rest ->
  lo <= length run -> within (length run) hi ->
  hd_error (m inp (Rep p lo hi) (run ++ rest)) = Some (rest, []).
Proof.
  intros H1 H2 H3 H4. simpl.
  pose proof (rep_first p run rest lo hi H1 H2 H3 H4) as H.
  destruct (rep p lo hi (run ++ rest)); simpl in *; [discriminate|].
  injection H as ->. reflexivity.
Qed.

Lemma m_rep_In (inp : str) (p : ascii -> bool) (lo : nat) (hi : option nat)
    (s r : str) (c : caps) :
  In (r, c) (m inp (Rep p lo hi) s) ->
  exists run, s = run ++ r /\ Forall (fun c => p c = true) run
              /\ lo <= length run /\ within (length run) hi.
Proof.
  simpl. rewrite in_map_iff. intros (r' & [= <- _] & H).
  eapply rep_In; eauto.
Qed.

Lemma m_cls_In (inp : str) (p : ascii -> bool) (s r : str) (c : caps) :
  In (r, c) (m inp (Cls p) s) -> exists x, s = x :: r /\ p x = true.
Proof.
  simpl. destruct s as [|x s]; [intros []|].
  destruct (p x) eqn:E; [|intros []].
  intros [[= <- _]|[]]. eauto.
Qed.

Lemma m_cls_first (inp : str) (p : ascii -> bool) (x : ascii) (s : str) :
  p x = true -> hd_error (m inp (Cls p) (x :: s)) = Some (s, []).
Proof. intros H. simpl. rewrite H. reflexivity. Qed.

Lemma m_eol_In (inp : str) (s r : str) (c : caps) :
  In (r, c) (m inp Eol s) -> s = [] /\ r = [].
Proof.
  simpl. destruct s; [|intros []]. intros [[= <- _]|[]]. auto.
Qed.

(** A pattern anchored by [^] matches at the start of the input only. *)
Lemma m_bol (s : str) (r : regex) : m s (Bol >> r) s = m s r s.
Proof.
  simpl. rewrite Nat.eqb_refl. simpl. rewrite app_nil_r.
  rewrite <- (map_id (m s r s)) at 2. apply map_ext. intros [? ?]. reflexivity.
Qed.

Lemma m_bol_later (inp : str) (r : regex) (s : str) :
  length s < length inp -> m inp (Bol >> r) s = [].
Proof.
  intros H. simpl. destruct (length s =? length inp) eqn:E; [|reflexivity].
  apply Nat.eqb_eq in E. lia.
Qed.

Lemma search_bol_later (inp : str) (r : regex) (s : str) :
  forall i, length s < length inp -> search inp (Bol >> r) i s = None.
Proof.
  induction s as [|c s IH]; intros i H; cbn [search]; unfold match_here;
    rewrite (m_bol_later inp r _ H).
  - reflexivity.
  - apply IH. simpl in H. lia.
Qed.

Lemma exec_bol (r : regex) (s : str) :
  exec (Bol >> r) s = match_here s r 0 s.
Proof.
  unfold exec. destruct s as [|c s]; cbn [search]; unfold match_here; rewrite m_bol.
  - destruct (m [] r []); reflexivity.
  - destruct (m (c :: s) r (c :: s)); [|reflexivity].
    apply search_bol_later. simpl. lia.
Qed.

Lemma test_bol (r : regex) (s : str) :
  test (Bol >> r) s = match m s r s with [] => false | _ :: _ => true end.
Proof.
  unfold test. rewrite exec_bol. unfold match_here. destruct (m s r s); reflexivity.
Qed.

(** ** The dispatcher loop, one turn at a time *)

Lemma nth_error_skipn {A : Type} (l : list A) (i : nat) (x : A) :
  nth_error l i = Some x -> skipn i l = x :: skipn (S i) l.
Proof.
  revert i. induction l as [|y l IH]; intros [|i]; simpl; try discriminate.
  - intros [= ->]. reflexivity.
  - intros H. rewrite (IH _ H). reflexivity.
Qed.

Lemma nth_error_ltb {A : Type} (l : list A) (i : nat) (x : A) :
  nth_error l i = Some x -> (i <? length l) = true.
Proof.
  intros H. apply Nat.ltb_lt. apply nth_error_Some. congruence.
Qed.

Lemma loop_done (fuel : nat) (lines : list str) (i : nat) (result : list str) :
  length lines <= i ->
  processLines_loop (S fuel) lines i result = Ret (join nl result).
Proof.
  intros H. cbn [processLines_loop].
  destruct (i <? length lines) eqn:E; [|reflexivity].
  apply Nat.ltb_lt in E. lia.
Qed.

Lemma loop_block (fuel : nat) (lines : list str) (i : nat) (result : list str)
    (line : str) (b : Block) :
  nth_error lines i = Some line ->
  str_eqb (trim line) [] && (length result =? 0) = false ->
  processBlockElement lines i = Ret (Some b) ->
  processLines_loop (S fuel) lines i result
  = processLines_loop fuel lines (nextIndex b) (result ++ [html b]).
Proof.
  intros Hn Hb Hp. cbn [processLines_loop].
  rewrite (nth_error_ltb _ _ _ Hn), Hn, Hb, Hp. reflexivity.
Qed.

Lemma loop_paragraph (fuel : nat) (lines : list str) (i : nat) (result : list str)
    (line : str) (p : Block) :
  nth_error lines i = Some line ->
  str_eqb (trim line) [] && (length result =? 0) = false ->
  processBlockElement lines i = Ret None ->
  processParagraph lines i = Ret p ->
  processLines_loop (S fuel) lines i result
  = processLines_loop fuel lines (nextIndex p) (result ++ [html p]).
Proof.
  intros Hn Hb Hp Hq. cbn [processLines_loop].
  rewrite (nth_error_ltb _ _ _ Hn), Hn, Hb, Hp. cbn [bind]. rewrite Hq. reflexivity.
Qed.

(** ** Lists *)

Lemma render_item_app (h : str) (item : ListItem) :
  render_item h item = h ++ item_html item.
Proof.
  unfold item_html, render_item. destruct (type item); reflexivity.
Qed.

Lemma fold_render (items : list ListItem) :
  forall h, fold_left render_item items h = h ++ concat (map item_html items).
Proof.
  induction items as [|it items IH]; intros h; simpl.
  - symmetry. apply app_nil_r.
  - rewrite IH, render_item_app, <- app_assoc. reflexivity.
Qed.





(** ** Progress of the dispatcher *)

Lemma stuck_block :
  processBlockElement [L "- "] 0
  = Ret (Some {| html := L "<null>" ++ nl ++ L "</null>"; nextIndex := 0 |}).
Proof. vm_compute. reflexivity. Qed.

(** C1.  On the line [- ] (a bullet and a blank, nothing else) the list gate
    of processBlockElement opens, no item pattern of processList matches,
    and processList returns the index it was called with: the dispatcher
    turns on that index for ever, with any amount of fuel, and [parse]
    produces nothing. *)
Theorem C1_dispatcher_stuck_on_empty_bullet :
  processList [L "- "] 0
  = {| html := L "<null>" ++ nl ++ L "</null>"; nextIndex := 0 |} /\
  (forall (fuel : nat) (result : list str),
     processLines_loop fuel [L "- "] 0 result = OutOfFuel) /\
  (forall (options : Options) (DOMPurify : option (str -> list str -> str))
          (fuel : nat),
     parse options DOMPurify fuel (L "- ") = OutOfFuel).
Proof.
  assert (Hloop : forall fuel result,
             processLines_loop fuel [L "- "] 0 result = OutOfFuel).
  { induction fuel as [|fuel IH]; intros result; [reflexivity|].
    rewrite (loop_block fuel [L "- "] 0 result (L "- ") _ eq_refl eq_refl stuck_block).
    apply IH. }
  split; [vm_compute; reflexivity|]. split; [exact Hloop|].
  intros options DOMPurify fuel. unfold parse.
  change (L "- ") with ["-"%char; " "%char].
  cbv beta iota.
  replace (split LF (replace_all Re.cr nl (replace_all Re.crlf nl ["-"%char; " "%char])))
    with [L "- "] by (vm_compute; reflexivity).
  unfold processLines. rewrite Hloop. reflexivity.
Qed.

(** ** Literal prefixes and the first code unit of a line *)

Lemma starts_with_app (p s : str) :
  starts_with p s = true <-> exists rest, s = p ++ rest.
Proof.
  revert s. induction p as [|a p IH]; intros s; simpl.
  - split; eauto.
  - destruct s as [|c s].
    + split; [discriminate|]. intros (rest & H). discriminate.
    + rewrite andb_true_iff, ch_eqb_true, IH. split.
      * intros (-> & rest & ->). eauto.
      * intros (rest & [= -> ->]). eauto.
Qed.

Lemma m_lit (inp : str) (p s : str) :
  m inp (Lit p) s = if starts_with p s then [(skipn (length p) s, [])] else [].
Proof.
  revert s. induction p as [|a p IH]; intros s; [reflexivity|].
  cbn [Lit m starts_with]. destruct s as [|c s]; [reflexivity|].
  unfold is_ch. destruct (ch_eqb c a) eqn:E.
  - apply ch_eqb_true in E. subst c. rewrite ch_eqb_refl.
    cbn [flat_map fst snd andb app]. rewrite app_nil_r, IH.
    destruct (starts_with p s); reflexivity.
  - assert (E' : ch_eqb a c = false).
    { apply ch_eqb_false. apply ch_eqb_false in E. congruence. }
    rewrite E'. reflexivity.
Qed.

Lemma m_seq_nil_l (inp : str) (a b : regex) (s : str) :
  m inp a s = [] -> m inp (a >> b) s = [].
Proof. intros H. simpl. rewrite H. reflexivity. Qed.

Lemma m_grp_nil (inp : str) (a : regex) (s : str) :
  m inp a s = [] -> m inp (Grp a) s = [].
Proof. intros H. simpl. rewrite H. reflexivity. Qed.

Lemma m_rep_none (inp : str) (p : ascii -> bool) (lo : nat) (hi : option nat) (s : str) :
  1 <= lo -> stops p s -> m inp (Rep p lo hi) s = [].
Proof. intros H1 H2. simpl. rewrite rep_none; auto. Qed.

Lemma match_here_none (inp : str) (r : regex) (i : nat) (s : str) :
  m inp r s = [] -> match_here inp r i s = None.
Proof. intros H. unfold match_here. rewrite H. reflexivity. Qed.

(** The header pattern wants a [#] first. *)
Lemma header_needs_hash (line : str) :
  stops (is_ch "#") line -> exec Re.header line = None.
Proof.
  intros H. unfold Re.header. rewrite exec_bol.
  apply match_here_none, m_seq_nil_l, m_grp_nil, m_rep_none; [lia|exact H].
Qed.

(** The fence pattern matches the lines that begin with three backticks. *)
Lemma test_fence (line : str) :
  test Re.fence line = true <-> exists rest, line = L "```" ++ rest.
Proof.
  unfold Re.fence. rewrite test_bol, m_lit, <- starts_with_app.
  destruct (starts_with (L "```") line); split; congruence.
Qed.

(** ** What the gates of the dispatcher accept *)

(** Every run of the class of an allowed length is listed by [rep]. *)
Lemma rep_In_run (p : ascii -> bool) (run r : str) :
  forall lo hi,
    Forall (fun c => p c = true) run -> lo <= length run -> within (length run) hi ->
    In r (rep p lo hi (run ++ r)).
Proof.
  induction run as [|c run IH]; intros lo hi Hrun Hlo Hhi.
  - simpl in Hlo. assert (lo = 0) by lia. subst lo.
    cbn [app]. destruct r as [|d r]; simpl.
    + left. reflexivity.
    + apply in_or_app. right. left. reflexivity.
  - inversion Hrun as [|? ? Hc Hrun']; subst.
    destruct (within_pred _ _ Hhi) as [Hhi' Hok].
    simpl. rewrite Hc, Hok. simpl. apply in_or_app. left.
    apply IH; auto. simpl in Hlo. lia.
Qed.

Lemma m_rep_In_run (inp : str) (p : ascii -> bool) (lo : nat) (hi : option nat)
    (run r : str) :
  Forall (fun c => p c = true) run -> lo <= length run -> within (length run) hi ->
  In (r, []) (m inp (Rep p lo hi) (run ++ r)).
Proof.
  intros. simpl. apply in_map_iff. exists r. split; [reflexivity|].
  apply rep_In_run; assumption.
Qed.

Lemma m_seq_In_intro (inp : str) (a b : regex) (s s1 s2 : str) (c1 c2 : caps) :
  In (s1, c1) (m inp a s) -> In (s2, c2) (m inp b s1) ->
  In (s2, c1 ++ c2) (m inp (a >> b) s).
Proof.
  intros Ha Hb. apply m_seq_In. exists s1, c1, c2. auto.
Qed.

Lemma m_cls_In_intro (inp : str) (p : ascii -> bool) (x : ascii) (s : str) :
  p x = true -> In (s, []) (m inp (Cls p) (x :: s)).
Proof. intros H. simpl. rewrite H. left. reflexivity. Qed.

Lemma test_bol_true (r : regex) (s : str) :
  test (Bol >> r) s = true <-> exists e, In e (m s r s).
Proof.
  rewrite test_bol. destruct (m s r s) as [|e l]; split.
  - discriminate.
  - intros (e & []).
  - intros _. exists e. left. reflexivity.
  - reflexivity.
Qed.

Lemma test_bol_false (r : regex) (s : str) :
  test (Bol >> r) s = false <-> m s r s = [].
Proof.
  rewrite test_bol. destruct (m s r s); split; congruence.
Qed.

(** The line from its first code unit that is not white space. *)
Lemma trimStart_app (run s : str) :
  Forall (fun c => is_space c = true) run -> trimStart (run ++ s) = trimStart s.
Proof.
  induction 1 as [|c run Hc _ IH]; simpl; [reflexivity|].
  rewrite Hc. exact IH.
Qed.

Lemma trimStart_split (s : str) :
  exists run, s = run ++ trimStart s /\ Forall (fun c => is_space c = true) run
              /\ stops is_space (trimStart s).
Proof.
  induction s as [|c s (run & E & Hrun & Hstop)]; simpl.
  - exists []. repeat split; auto.
  - destruct (is_space c) eqn:Ec.
    + exists (c :: run). simpl. rewrite <- E. repeat split; auto.
    + exists []. simpl. repeat split; auto.
Qed.

Lemma trimStart_lead (run s : str) (x : ascii) :
  Forall (fun c => is_space c = true) run -> is_space x = false ->
  trimStart (run ++ x :: s) = x :: s.
Proof.
  intros Hrun Hx. rewrite trimStart_app by assumption. simpl. rewrite Hx. reflexivity.
Qed.

(** The first code unit of a line is white space or the first code unit of
    its trimmed form. *)
Lemma first_of_line (line : str) (x : ascii) (l : str) :
  line = x :: l -> is_space x = true \/ trimStart line = line.
Proof.
  intros ->. simpl. destruct (is_space x); auto.
Qed.

(** A gate [^\s*c...] looks at the first code unit that is not white
    space. *)
Lemma lead_cls_inv (p : ascii -> bool) (r : regex) (line : str) :
  no_space p ->
  test (Bol >> Re.ws_star >> Cls p >> r) line = true ->
  exists x s, trimStart line = x :: s /\ p x = true /\ exists e, In e (m line r s).
Proof.
  intros Hp H. apply test_bol_true in H. destruct H as ([s2 c] & H).
  apply m_seq_In in H. destruct H as (s1 & c1 & c2 & Hws & H & _).
  apply m_rep_In in Hws. destruct Hws as (run & -> & Hrun & _).
  apply m_seq_In in H. destruct H as (s3 & c3 & c4 & Hc & H & _).
  apply m_cls_In in Hc. destruct Hc as (x & -> & Hx).
  exists x, s3. split; [|split; [exact Hx|eauto]].
  apply trimStart_lead; auto.
Qed.

Lemma lead_cls_intro (p : ascii -> bool) (r : regex) (line : str) (x : ascii)
    (s : str) (e : str * caps) :
  trimStart line = x :: s -> p x = true -> In e (m line r s) ->
  test (Bol >> Re.ws_star >> Cls p >> r) line = true.
Proof.
  intros Ht Hx He. apply test_bol_true.
  destruct (trimStart_split line) as (run & E & Hrun & _). rewrite Ht in E.
  destruct e as [s2 c2]. exists (s2, [] ++ [] ++ c2).
  apply m_seq_In_intro with (s1 := x :: s).
  - rewrite E at 2. apply m_rep_In_run; simpl; auto. lia.
  - apply m_seq_In_intro with (s1 := s); [apply m_cls_In_intro; exact Hx|exact He].
Qed.

Lemma lead_rep_inv (p : ascii -> bool) (lo : nat) (hi : option nat) (r : regex)
    (line : str) :
  no_space p -> 1 <= lo ->
  test (Bol >> Re.ws_star >> Rep p lo hi >> r) line = true ->
  exists x s, trimStart line = x :: s /\ p x = true.
Proof.
  intros Hp Hlo H. apply test_bol_true in H. destruct H as ([s2 c] & H).
  apply m_seq_In in H. destruct H as (s1 & c1 & c2 & Hws & H & _).
  apply m_rep_In in Hws. destruct Hws as (run & -> & Hrun & _).
  apply m_seq_In in H. destruct H as (s3 & c3 & c4 & Hc & H & _).
  apply m_rep_In in Hc. destruct Hc as (run2 & -> & Hrun2 & Hlen & _).
  destruct run2 as [|x run2]; [simpl in Hlen; lia|].
  inversion Hrun2; subst. exists x, (run2 ++ s3). split; [|assumption].
  apply trimStart_lead; auto.
Qed.

Lemma no_space_marker : no_space (one_of (L "-*+")).
Proof.
  intros x. unfold one_of. simpl. rewrite !orb_true_iff, !ch_eqb_true.
  intros [->|[->|[->|H]]]; [reflexivity..|discriminate].
Qed.

Lemma no_space_rule : no_space (one_of (L "-*_")).
Proof.
  intros x. unfold one_of. simpl. rewrite !orb_true_iff, !ch_eqb_true.
  intros [->|[->|[->|H]]]; [reflexivity..|discriminate].
Qed.

Lemma no_space_is_ch (a : ascii) : is_space a = false -> no_space (is_ch a).
Proof.
  intros Ha x Hx. apply ch_eqb_true in Hx. subst. exact Ha.
Qed.

Lemma no_space_digit : no_space is_digit.
Proof.
  intros x. unfold is_digit, is_space, in_range.
  rewrite andb_true_iff, !Nat.leb_le. intros [H1 H2].
  rewrite !orb_false_iff, andb_false_iff, !Nat.leb_gt, !Nat.eqb_neq. lia.
Qed.

(** The gates of the dispatcher below the table gate, on a line whose first
    code unit that is not white space is [x]. *)
Lemma gate_bullet_lead (line : str) (x : ascii) (s : str) :
  trimStart line = x :: s -> one_of (L "-*+") x = false ->
  test Re.list_bullet line = false.
Proof.
  intros Ht Hx. apply not_true_is_false. intros H.
  apply (lead_cls_inv _ _ _ no_space_marker) in H.
  destruct H as (y & s' & E & Hy & _). congruence.
Qed.

Lemma gate_number_lead (line : str) (x : ascii) (s : str) :
  trimStart line = x :: s -> is_digit x = false ->
  test Re.list_number line = false.
Proof.
  intros Ht Hx. apply not_true_is_false. intros H.
  apply (lead_rep_inv _ _ _ _ _ no_space_digit) in H; [|lia].
  destruct H as (y & s' & E & Hy). congruence.
Qed.

Lemma gate_quote_lead (line : str) (x : ascii) (s : str) :
  trimStart line = x :: s -> x <> ">"%char ->
  test Re.quote line = false.
Proof.
  intros Ht Hx. apply not_true_is_false. intros H.
  apply (lead_cls_inv _ _ _ (no_space_is_ch ">" eq_refl)) in H.
  destruct H as (y & s' & E & Hy & _). apply ch_eqb_true in Hy. congruence.
Qed.

Lemma gate_rule_lead (line : str) (x : ascii) (s : str) :
  trimStart line = x :: s -> one_of (L "-*_") x = false ->
  test Re.rule line = false.
Proof.
  intros Ht Hx. apply not_true_is_false. intros H.
  apply (lead_rep_inv _ _ _ _ _ no_space_rule) in H; [|lia].
  destruct H as (y & s' & E & Hy). congruence.
Qed.

Lemma gate_header_lead (line : str) (x : ascii) (s : str) :
  trimStart line = x :: s -> x <> "#"%char -> exec Re.header line = None.
Proof.
  intros Ht Hx. apply header_needs_hash.
  destruct line as [|y l]; [exact I|]. simpl.
  destruct (first_of_line (y :: l) y l eq_refl) as [Hy|Hy].
  - apply ch_eqb_false. intros ->. discriminate.
  - rewrite Hy in Ht. injection Ht as -> _. apply ch_eqb_false. exact Hx.
Qed.

Lemma gate_fence_lead (line : str) (x : ascii) (s : str) :
  trimStart line = x :: s -> x <> "`"%char -> test Re.fence line = false.
Proof.
  intros Ht Hx. apply not_true_is_false. intros H.
  apply test_fence in H. destruct H as (rest & ->).
  simpl in Ht. injection Ht as <- _. congruence.
Qed.

(** processBlockElement raises nothing on a line of the document. *)
Lemma processBlockElement_ret (lines : list str) (i : nat) (line : str) :
  nth_error lines i = Some line -> exists b, processBlockElement lines i = Ret b.
Proof.
  intros Hn. unfold processBlockElement, processFencedCodeBlock. rewrite Hn.
  destruct (exec Re.header line); [eauto|].
  destruct (test Re.fence line).
  { destruct (fence_loop _ _ _). cbn [bind]. eauto. }
  destruct (_ && _ && _); [eauto|].
  destruct (_ || _); [eauto|].
  destruct (test Re.quote line); [eauto|].
  destruct (test Re.rule line); eauto.
Qed.

(** ** Paragraphs *)

Lemma skipn_cons_inv {A : Type} (l : list A) (i : nat) (x : A) (rest : list A) :
  skipn i l = x :: rest -> nth_error l i = Some x /\ skipn (S i) l = rest.
Proof.
  revert i. induction l as [|y l IH]; intros [|i]; simpl; try discriminate.
  - intros [= -> ->]. auto.
  - intros H. apply IH in H. exact H.
Qed.

Lemma paragraph_loop_ret (lines : list str) :
  forall rest i paragraphLines,
    skipn i lines = rest ->
    exists more tail,
      rest = more ++ tail /\
      paragraph_loop lines rest i paragraphLines
      = Ret (paragraphLines ++ more, i + length more).
Proof.
  induction rest as [|line rest IH]; intros i acc Hrest.
  - exists [], []. simpl. rewrite app_nil_r, Nat.add_0_r. auto.
  - destruct (skipn_cons_inv _ _ _ _ Hrest) as [Hn Hrest'].
    cbn [paragraph_loop].
    destruct (str_eqb (trim line) []).
    { exists [], (line :: rest). simpl. rewrite app_nil_r, Nat.add_0_r. auto. }
    destruct (processBlockElement_ret _ _ _ Hn) as ([b|] & Hb); rewrite Hb; cbn [bind].
    { exists [], (line :: rest). simpl. rewrite app_nil_r, Nat.add_0_r. auto. }
    destruct (IH (S i) (acc ++ [line]) Hrest') as (more & tail & E & Hloop).
    exists (line :: more), tail. split; [simpl; congruence|].
    rewrite Hloop, <- app_assoc. simpl. do 2 f_equal. lia.
Qed.

Lemma paragraph_first (lines : list str) (i : nat) (line : str) :
  nth_error lines i = Some line ->
  trim line <> [] ->
  processBlockElement lines i = Ret None ->
  exists more tail,
    skipn (S i) lines = more ++ tail /\
    processParagraph lines i = Ret (paragraph_block i line more).
Proof.
  intros Hn Ht Hb. unfold processParagraph.
  rewrite (nth_error_skipn _ _ _ Hn). cbn [paragraph_loop].
  destruct (str_eqb (trim line) []) eqn:E; [apply str_eqb_nil in E; contradiction|].
  rewrite Hb. cbn [bind].
  destruct (paragraph_loop_ret lines (skipn (S i) lines) (S i) ([] ++ [line]) eq_refl)
    as (more & tail & Hsplit & Hloop).
  exists more, tail. split; [exact Hsplit|].
  rewrite Hloop. cbn [bind app]. reflexivity.
Qed.

Lemma dispatch_paragraph (lines : list str) (i : nat) (line : str) :
  nth_error lines i = Some line ->
  trim line <> [] ->
  processBlockElement lines i = Ret None ->
  exists more tail,
    skipn (S i) lines = more ++ tail /\
    processParagraph lines i = Ret (paragraph_block i line more) /\
    forall fuel result,
      processLines_loop (S fuel) lines i result
      = processLines_loop fuel lines (S i + length more)
          (result ++ [html (paragraph_block i line more)]).
Proof.
  intros Hn Ht Hb.
  destruct (paragraph_first lines i line Hn Ht Hb) as (more & tail & Hs & Hp).
  exists more, tail. split; [exact Hs|]. split; [exact Hp|].
  intros fuel result.
  rewrite (loop_paragraph fuel lines i result line (paragraph_block i line more) Hn);
    [reflexivity| |exact Hb|exact Hp].
  apply andb_false_intro1. apply not_true_is_false. rewrite str_eqb_nil. exact Ht.
Qed.

(** processParagraph raises nothing and goes on. *)
Lemma progress_paragraph (lines : list str) (i : nat) :
  exists p, processParagraph lines i = Ret p /\ i < nextIndex p.
Proof.
  unfold processParagraph.
  destruct (paragraph_loop_ret lines (skipn i lines) i [] eq_refl)
    as (more & tail & _ & E).
  rewrite E. cbn [bind app].
  destruct more as [|l more]; eexists; (split; [reflexivity|]); simpl; lia.
Qed.

(** The dispatcher raises no error, wherever it stands and whatever fuel it
    has. *)
Lemma dispatcher_never_throws (lines : list str) :
  forall fuel i result, processLines_loop fuel lines i result <> Throw.
Proof.
  induction fuel as [|fuel IH]; intros i result; [discriminate|].
  cbn [processLines_loop].
  destruct (i <? length lines) eqn:Ei; [|discriminate].
  apply Nat.ltb_lt in Ei.
  destruct (nth_error lines i) as [line|] eqn:Hn;
    [|apply nth_error_None in Hn; lia].
  destruct (_ && _); [apply IH|].
  destruct (processBlockElement_ret lines i line Hn) as ([b|] & Hb); rewrite Hb;
    cbn [bind]; [apply IH|].
  destruct (progress_paragraph lines i) as (p & Hp & _). rewrite Hp.
  cbn [bind]. apply IH.
Qed.

(** X3.  [parse] raises no error: on every string, with every options,
    with or without DOMPurify and with any fuel, it does not produce a
    TypeError. *)
Theorem parse_never_throws :
  forall (options : Options) (DOMPurify : option (str -> list str -> str))
         (fuel : nat) (markdown : str),
    parse options DOMPurify fuel markdown <> Throw.
Proof.
  intros options DOMPurify fuel markdown.
  unfold parse. destruct markdown as [|c markdown]; [discriminate|].
  unfold processLines.
  pose proof (dispatcher_never_throws
                (split LF (replace_all Re.cr nl (replace_all Re.crlf nl (c :: markdown))))
                fuel 0 []) as H.
  destruct (processLines_loop _ _ _ _); cbn [bind]; congruence.
Qed.

(** ** Fenced code blocks *)




(** ** Tables *)





(** ** Headers *)

Lemma match_here_first (inp : str) (r : regex) (i : nat) (s rest : str) (c : caps) :
  hd_error (m inp r s) = Some (rest, c) ->
  match_here inp r i s
  = Some {| mindex := i; matched := firstn (length s - length rest) s;
            mrest := rest; groups := c |}.
Proof.
  unfold match_here. destruct (m inp r s) as [|x l]; simpl; [discriminate|].
  intros [= ->]. reflexivity.
Qed.

Lemma m_eol_first (inp : str) : hd_error (m inp Eol []) = Some ([], []).
Proof. reflexivity. Qed.

Lemma Forall_repeat {A : Type} (P : A -> Prop) (x : A) (n : nat) :
  P x -> Forall P (repeat x n).
Proof. intros H. induction n; simpl; constructor; auto. Qed.

Lemma space_stops (p : ascii -> bool) (w t : str) :
  no_space p -> w <> [] -> Forall (fun c => is_space c = true) w -> stops p (w ++ t).
Proof.
  intros Hp Hw Hs. destruct w as [|x w]; [congruence|]. simpl.
  inversion Hs; subst. destruct (p x) eqn:E; [|reflexivity].
  apply Hp in E. congruence.
Qed.

(** The header pattern on [#...# white-space text]: the first group is the
    run of [#], the second the text. *)
Lemma header_match (n : nat) (w t : str) (c : ascii) (t' : str) :
  1 <= n <= 6 -> w <> [] -> Forall (fun x => is_space x = true) w ->
  t = c :: t' -> is_space c = false -> Forall (fun x => is_dot x = true) t ->
  exec Re.header (repeat "#"%char n ++ w ++ t)
  = Some {| mindex := 0; matched := repeat "#"%char n ++ w ++ t; mrest := [];
            groups := [Some (repeat "#"%char n); Some t] |}.
Proof.
  intros Hn Hw Hws Ht Hc Hdot.
  set (line := repeat "#"%char n ++ w ++ t).
  unfold Re.header. rewrite exec_bol.
  assert (A1 : hd_error (m line (Grp (Rep (is_ch "#") 1 (Some 6))) line)
               = Some (w ++ t, [Some (repeat "#"%char n)])).
  { assert (G : hd_error (m line (Rep (is_ch "#") 1 (Some 6)) line) = Some (w ++ t, [])).
    { apply m_rep_first.
      - apply Forall_repeat. reflexivity.
      - apply space_stops; auto. apply no_space_is_ch. reflexivity.
      - rewrite repeat_length. lia.
      - rewrite repeat_length. simpl. lia. }
    apply m_grp_first in G. unfold line in G.
    rewrite firstn_app_len in G. exact G. }
  assert (A2 : hd_error (m line Re.ws_plus (w ++ t)) = Some (t, [])).
  { apply m_rep_first; simpl; auto.
    - subst t. simpl. exact Hc.
    - destruct w; [congruence|simpl; lia]. }
  assert (A3 : hd_error (m line (Grp Re.any_plus) t) = Some ([], [Some t])).
  { assert (G : hd_error (m line Re.any_plus (t ++ [])) = Some ([], [])).
    { apply m_rep_first; simpl; auto. subst t. simpl. lia. }
    rewrite app_nil_r in G. apply m_grp_first in G.
    simpl length in G. rewrite Nat.sub_0_r, firstn_all in G. exact G. }
  pose proof (m_seq_first line _ _ _ _ _ _ _ A3 (m_eol_first line)) as A4.
  pose proof (m_seq_first line _ _ _ _ _ _ _ A2 A4) as A5.
  pose proof (m_seq_first line _ _ _ _ _ _ _ A1 A5) as A6.
  rewrite (match_here_first _ _ 0 _ _ _ A6). simpl length.
  rewrite Nat.sub_0_r, firstn_all. reflexivity.
Qed.

Lemma repeat_split_head {A : Type} (x : A) (n : nat) (rest run s1 : list A) :
  repeat x n ++ rest = run ++ s1 -> length run < n -> exists s', s1 = x :: s'.
Proof.
  revert run. induction n as [|n IH]; intros run E Hlen; [lia|].
  destruct run as [|y run]; simpl in *.
  - eauto.
  - injection E as _ E. apply (IH run E). lia.
Qed.

(** Seven [#] or more: the header pattern does not match. *)
Lemma header_seven (n : nat) (rest : str) :
  7 <= n -> exec Re.header (repeat "#"%char n ++ rest) = None.
Proof.
  intros Hn. unfold Re.header. rewrite exec_bol.
  apply match_here_none, m_seq_none. intros s1 c1 H.
  apply m_grp_In in H. destruct H as (c & H).
  apply m_rep_In in H. destruct H as (run & E & _ & _ & Hhi). simpl in Hhi.
  destruct (repeat_split_head "#"%char n rest run s1 E) as (s' & ->); [lia|].
  apply m_seq_nil_l, m_rep_none; [lia|reflexivity].
Qed.

(** A line that begins with [#] passes no gate but the header's and the
    table's. *)
Lemma hash_line_no_block (lines : list str) (i : nat) (s : str) :
  nth_error lines i = Some ("#"%char :: s) ->
  exec Re.header ("#"%char :: s) = None ->
  table_gate lines i ("#"%char :: s) = false ->
  processBlockElement lines i = Ret None.
Proof.
  intros Hn Hhdr Hgate. unfold processBlockElement. rewrite Hn, Hhdr.
  rewrite (gate_fence_lead ("#"%char :: s) "#" s eq_refl) by discriminate.
  fold (table_gate lines i ("#"%char :: s)). rewrite Hgate.
  rewrite (gate_bullet_lead ("#"%char :: s) "#" s eq_refl eq_refl).
  rewrite (gate_number_lead ("#"%char :: s) "#" s eq_refl eq_refl).
  rewrite (gate_quote_lead ("#"%char :: s) "#" s eq_refl) by discriminate.
  rewrite (gate_rule_lead ("#"%char :: s) "#" s eq_refl eq_refl).
  reflexivity.
Qed.

(** C8.  On a line made of [n] times [#] with [n] from 1 to 6, white space,
    and a text that begins with a code unit which is not white space and
    holds no line terminator, processBlockElement returns the header of
    level [n] of that text.  On a line that begins with seven [#] or more
    the header pattern does not match; unless the table gate takes the line
    (it holds a [|] and the next line is a separator), no block processor
    does, and the dispatcher renders it through processParagraph. *)
Theorem C8_header_levels_and_seven_hashes :
  forall (lines : list str) (i : nat) (line : str),
    nth_error lines i = Some line ->
    (forall (n : nat) (w t : str) (c : ascii) (t' : str),
       line = repeat "#"%char n ++ w ++ t ->
       1 <= n <= 6 -> w <> [] -> Forall (fun x => is_space x = true) w ->
       t = c :: t' -> is_space c = false -> Forall (fun x => is_dot x = true) t ->
       processBlockElement lines i = Ret (Some (header_block i n t))) /\
    (forall (n : nat) (rest : str),
       line = repeat "#"%char n ++ rest -> 7 <= n ->
       exec Re.header line = None /\
       (table_gate lines i line = false ->
        processBlockElement lines i = Ret None /\
        exists more tail : list str,
          skipn (S i) lines = more ++ tail /\
          processParagraph lines i = Ret (paragraph_block i line more) /\
          forall (fuel : nat) (result : list str),
            processLines_loop (S fuel) lines i result
            = processLines_loop fuel lines (S i + length more)
                (result ++ [html (paragraph_block i line more)]))).
Proof.
  intros lines i line Hn. split.
  - intros n w t c t' -> Hr Hw Hws Ht Hc Hdot.
    unfold processBlockElement. rewrite Hn.
    rewrite (header_match n w t c t' Hr Hw Hws Ht Hc Hdot).
    unfold header_block, group_str, group. cbn [groups nth].
    rewrite repeat_length. reflexivity.
  - intros n rest -> Hr.
    pose proof (header_seven n rest Hr) as Hhdr. split; [exact Hhdr|].
    intros Hgate. destruct n as [|n]; [lia|]. cbn [repeat app] in *.
    pose proof (hash_line_no_block lines i _ Hn Hhdr Hgate) as Hblock.
    split; [exact Hblock|].
    apply (dispatch_paragraph lines i _ Hn); [|exact Hblock].
    apply (trim_nonblank _ "#"); [left|]; reflexivity.
Qed.

(** [# H1] is a header of level 1; [####### H7] is a paragraph. *)
Lemma C8_witness :
  processBlockElement [L "# H1"] 0 = Ret (Some (header_block 0 1 (L "H1"))) /\
  processBlockElement [L "####### H7"] 0 = Ret None.
Proof.
  split.
  - apply (proj1 (C8_header_levels_and_seven_hashes [L "# H1"] 0 (L "# H1") eq_refl)
             1 (L " ") (L "H1") "H"%char (L "1"));
      try reflexivity; try (simpl; lia); try discriminate.
    + repeat constructor.
    + repeat constructor.
  - apply (proj2 (C8_header_levels_and_seven_hashes
                    [L "####### H7"] 0 (L "####### H7") eq_refl) 7 (L " H7"));
      try reflexivity; simpl; lia.
Defined.

(** Seven [#] in a line that the table gate takes: a table, no paragraph. *)
Lemma C8_counterexample :
  exec Re.header (L "####### a|b") = None /\
  table_gate [L "####### a|b"; L "-|-"] 0 (L "####### a|b") = true /\
  processBlockElement [L "####### a|b"; L "-|-"] 0
  = Ret (Some {| html := join nl [L "<table>"; L "<thead>"; L "<tr>";
                                  L "<th>####### a</th>"; L "<th>b</th>"; L "</tr>";
                                  L "</thead>"; L "<tbody>"; L "</tbody>"; L "</table>"];
                 nextIndex := 2 |}) /\
  processLines 2 [L "####### a|b"; L "-|-"]
  = Ret (join nl [L "<table>"; L "<thead>"; L "<tr>";
                  L "<th>####### a</th>"; L "<th>b</th>"; L "</tr>";
                  L "</thead>"; L "<tbody>"; L "</tbody>"; L "</table>"]).
Proof. vm_compute. repeat split; reflexivity. Qed.

(** ** Blockquotes *)

Lemma rep_first_bounded (p : ascii -> bool) (run rest : str) :
  forall lo,
    Forall (fun c => p c = true) run -> lo <= length run ->
    hd_error (rep p lo (Some (length run)) (run ++ rest)) = Some rest.
Proof.
  induction run as [|c run IH]; intros lo Hrun Hlo.
  - simpl in Hlo. assert (lo = 0) by lia. subst lo.
    destruct rest as [|d rest]; simpl; [reflexivity|].
    rewrite andb_false_r. reflexivity.
  - inversion Hrun as [|? ? Hc Hrun']; subst.
    simpl. rewrite Hc. simpl.
    apply hd_error_app. apply IH; auto. simpl in Hlo. lia.
Qed.

Lemma m_rep_first_bounded (inp : str) (p : ascii -> bool) (lo : nat) (run rest : str) :
  Forall (fun c => p c = true) run -> lo <= length run ->
  hd_error (m inp (Rep p lo (Some (length run))) (run ++ rest)) = Some (rest, []).
Proof.
  intros H1 H2. simpl.
  pose proof (rep_first_bounded p run rest lo H1 H2) as H.
  destruct (rep p lo (Some (length run)) (run ++ rest)); simpl in *; [discriminate|].
  injection H as ->. reflexivity.
Qed.

Lemma test_quote_iff (l : str) :
  test Re.quote l = true <-> exists body, quote_line l body.
Proof.
  split.
  - intros H. apply (lead_cls_inv _ _ _ (no_space_is_ch ">" eq_refl)) in H.
    destruct H as (x & s & Ht & Hx & [s2 c2] & He).
    apply ch_eqb_true in Hx. subst x.
    apply m_cls_In in He. destruct He as (c & -> & Hc).
    destruct (trimStart_split l) as (ws & E & Hws & _). rewrite Ht in E.
    exists s2, ws, c. auto.
  - intros (body & ws & c & -> & Hws & Hc).
    apply (lead_cls_intro _ _ _ ">"%char (c :: body) (body, [])).
    + apply trimStart_lead; auto.
    + reflexivity.
    + apply m_cls_In_intro. exact Hc.
Qed.

(** The marker pattern takes the white space, the [>] and one code unit of
    white space away. *)
Lemma quote_strip (l body : str) :
  quote_line l body -> replace_first Re.quote_marker [] l = body.
Proof.
  intros (ws & c & -> & Hws & Hc).
  set (line := ws ++ ">"%char :: c :: body).
  assert (A1 : hd_error (m line Re.ws_star line) = Some (">"%char :: c :: body, [])).
  { apply m_rep_first; simpl; auto. lia. }
  assert (A2 : hd_error (m line (Re.C ">") (">"%char :: c :: body)) = Some (c :: body, [])).
  { apply m_cls_first. reflexivity. }
  assert (A3 : hd_error (m line (Rep is_space 0 (Some 1)) (c :: body)) = Some (body, [])).
  { exact (m_rep_first_bounded line is_space 0 [c] body
             (Forall_cons _ Hc (Forall_nil _)) (Nat.le_0_l _)). }
  pose proof (m_seq_first line _ _ _ _ _ _ _ A2 A3) as A4.
  pose proof (m_seq_first line _ _ _ _ _ _ _ A1 A4) as A5.
  unfold replace_first, Re.quote_marker. rewrite exec_bol.
  rewrite (match_here_first _ _ 0 _ _ _ A5). reflexivity.
Qed.

(** The loop of processBlockquote takes the longest run of blockquote lines
    and keeps their bodies. *)
Lemma quote_loop_run (rest : list str) :
  forall i quoteLines,
    exists run bodies tail,
      rest = run ++ tail /\
      Forall2 quote_line run bodies /\
      (forall l tl, tail = l :: tl -> test Re.quote l = false) /\
      quote_loop rest i quoteLines = (quoteLines ++ bodies, i + length run).
Proof.
  induction rest as [|l rest IH]; intros i acc.
  - exists [], [], []. simpl. rewrite app_nil_r, Nat.add_0_r.
    repeat split; auto. discriminate.
  - cbn [quote_loop]. destruct (test Re.quote l) eqn:E.
    + apply test_quote_iff in E. destruct E as (body & Hb).
      rewrite (quote_strip l body Hb).
      destruct (IH (S i) (acc ++ [body])) as (run & bodies & tail & -> & HF & Ht & Hl).
      exists (l :: run), (body :: bodies), tail.
      rewrite Hl, <- app_assoc. simpl. repeat split; auto;
        try (do 2 f_equal; lia).
    + exists [], [], (l :: rest). simpl. rewrite app_nil_r, Nat.add_0_r.
      repeat split; auto. intros l' tl [= <- _]. exact E.
Qed.

Lemma quote_line_fun (l b1 b2 : str) : quote_line l b1 -> quote_line l b2 -> b1 = b2.
Proof.
  intros H1 H2. rewrite <- (quote_strip l b1 H1). apply quote_strip. exact H2.
Qed.

(** C5.  A run of blockquote lines -- each is optional white space, [>],
    one code unit of white space (it is required) and a body -- whose first
    line the table gate does not take is rendered by processBlockElement as
    one [<blockquote>]: the bodies of the longest such run, joined by line
    feeds and passed through the inline engine; the next index is behind
    the run. *)
Theorem C5_blockquote_needs_space_after_marker :
  forall (lines : list str) (i : nat) (line body : str),
    nth_error lines i = Some line ->
    quote_line line body ->
    table_gate lines i line = false ->
    exists (run bodies tail : list str),
      skipn (S i) lines = run ++ tail /\
      Forall2 quote_line run bodies /\
      (forall l tl b, tail = l :: tl -> ~ quote_line l b) /\
      processBlockElement lines i = Ret (Some (quote_block i (body :: bodies))).
Proof.
  intros lines i line body Hn Hq Hgate.
  pose proof Hq as (ws & c & Hline & Hws & Hc).
  assert (Ht : trimStart line = ">"%char :: c :: body).
  { rewrite Hline. apply trimStart_lead; auto. }
  assert (Htest : test Re.quote line = true) by (apply test_quote_iff; eauto).
  destruct (quote_loop_run (skipn (S i) lines) (S i) ([] ++ [body]))
    as (run & bodies & tail & Hsplit & HF & Htail & Hloop).
  exists run, bodies, tail. split; [exact Hsplit|]. split; [exact HF|]. split.
  { intros l tl b -> Hb.
    assert (Hl : test Re.quote l = true) by (apply test_quote_iff; eauto).
    rewrite (Htail l tl eq_refl) in Hl. discriminate. }
  unfold processBlockElement. rewrite Hn.
  rewrite (gate_header_lead line _ _ Ht) by discriminate.
  rewrite (gate_fence_lead line _ _ Ht) by discriminate.
  fold (table_gate lines i line). rewrite Hgate.
  rewrite (gate_bullet_lead line _ _ Ht eq_refl).
  rewrite (gate_number_lead line _ _ Ht eq_refl).
  rewrite Htest. cbn [orb].
  unfold processBlockquote. rewrite (nth_error_skipn _ _ _ Hn).
  cbn [quote_loop]. rewrite Htest, (quote_strip line body Hq), Hloop.
  unfold quote_block. cbn [app length].
  do 3 f_equal.
  apply Forall2_length in HF. lia.
Qed.

(** Two blockquote lines and a paragraph line behind them. *)
Lemma C5_witness :
  exists (run bodies tail : list str),
    skipn 1 [L "> a"; L " > b"; L ">c"] = run ++ tail /\
    Forall2 quote_line run bodies /\
    (forall l tl b, tail = l :: tl -> ~ quote_line l b) /\
    processBlockElement [L "> a"; L " > b"; L ">c"] 0
    = Ret (Some (quote_block 0 (L "a" :: bodies))).
Proof.
  apply (C5_blockquote_needs_space_after_marker
           [L "> a"; L " > b"; L ">c"] 0 (L "> a") (L "a")).
  - reflexivity.
  - exists [], " "%char. repeat split; auto.
  - vm_compute. reflexivity.
Defined.

(** A line that begins with [>] and no white space behind it is not taken
    as a blockquote: it is a paragraph. *)
Lemma C5_counterexample :
  test Re.quote (L ">quote") = false /\
  processBlockElement [L ">quote"] 0 = Ret None /\
  processLines 2 [L ">quote"] = Ret (L "<p>>quote</p>").
Proof. vm_compute. repeat split; reflexivity. Qed.

(** ** Horizontal rules *)

Lemma test_rule_iff (l : str) : test Re.rule l = true <-> rule_line l.
Proof.
  unfold Re.rule. rewrite test_bol_true. split.
  - intros ([s c] & H).
    apply m_seq_In in H. destruct H as (s1 & c1 & c2 & H1 & H & _).
    apply m_rep_In in H1. destruct H1 as (ws1 & -> & Hws1 & _).
    apply m_seq_In in H. destruct H as (s2 & c3 & c4 & H2 & H & _).
    apply m_rep_In in H2. destruct H2 as (body & -> & Hbody & Hlen & _).
    apply m_seq_In in H. destruct H as (s3 & c5 & c6 & H3 & H & _).
    apply m_rep_In in H3. destruct H3 as (ws2 & -> & Hws2 & _).
    apply m_eol_In in H. destruct H as [-> ->].
    exists ws1, body, ws2. rewrite app_nil_r. auto.
  - intros (ws1 & body & ws2 & -> & Hws1 & Hbody & Hlen & Hws2).
    exists ([], [] ++ [] ++ [] ++ []).
    apply m_seq_In_intro with (s1 := body ++ ws2).
    { apply m_rep_In_run; simpl; auto. lia. }
    apply m_seq_In_intro with (s1 := ws2).
    { apply m_rep_In_run; simpl; auto. }
    apply m_seq_In_intro with (s1 := []).
    { rewrite <- (app_nil_r ws2) at 2. apply m_rep_In_run; simpl; auto. lia. }
    left. reflexivity.
Qed.

Lemma indexOf_char (c : ascii) (s : str) :
  indexOf [c] s = None <-> ~ In c s.
Proof.
  induction s as [|x s IH]; simpl.
  - tauto.
  - rewrite andb_true_r. destruct (ch_eqb c x) eqn:E.
    + apply ch_eqb_true in E. subst. split; [discriminate|]. intros H. exfalso. auto.
    + apply ch_eqb_false in E. destruct (indexOf [c] s); simpl.
      * split; [discriminate|]. intros H. exfalso. apply H. right.
        apply Decidable.not_not; [|intros Hn; apply IH in Hn; discriminate].
        destruct (in_dec ascii_dec c s); [left|right]; assumption.
      * split; [|reflexivity]. intros _ [H|H]; [congruence|].
        apply IH in H; auto.
Qed.

Lemma includes_char (c : ascii) (s : str) :
  includes s [c] = false <-> ~ In c s.
Proof.
  unfold includes. rewrite <- indexOf_char.
  destruct (indexOf [c] s); split; congruence.
Qed.

Lemma rule_line_no_pipe (l : str) : rule_line l -> includes l (L "|") = false.
Proof.
  intros (ws1 & body & ws2 & -> & Hws1 & Hbody & _ & Hws2).
  apply includes_char. intros H.
  rewrite !in_app_iff in H.
  rewrite Forall_forall in Hws1, Hbody, Hws2.
  destruct H as [H|[H|H]];
    [apply Hws1 in H|apply Hbody in H|apply Hws2 in H]; discriminate.
Qed.

(** The HTML of a block of another kind is longer than [<hr>]. *)
Ltac longer H :=
  apply (f_equal (@length ascii)) in H;
  repeat first [rewrite length_app in H | progress simpl in H]; lia.

Lemma list_html_long (lines : list str) (i : nat) :
  html (processList lines i) <> L "<hr>".
Proof.
  unfold processList. destruct (list_loop _ _ _ _) as [[items j] [[|]|]];
    cbn [html]; intros H; longer H.
Qed.

Lemma table_html_long (lines : list str) (i : nat) (b : Block) :
  processTable lines i = Some b -> html b <> L "<hr>".
Proof.
  unfold processTable. destruct (table_loop _ _ _) as [tableLines j].
  destruct (_ <? 2); [discriminate|]. intros [= <-]. cbn [html]. intros H. longer H.
Qed.

Lemma fence_html_long (lines : list str) (i : nat) (b : Block) :
  processFencedCodeBlock lines i = Ret b -> html b <> L "<hr>".
Proof.
  unfold processFencedCodeBlock. destruct (nth_error lines i); [|discriminate].
  destruct (fence_loop _ _ _) as [codeLines j].
  intros [= <-]. cbn [html]. intros H. longer H.
Qed.

(** C6.  processBlockElement answers [<hr>] with the next index one line
    on exactly on the rule lines: optional white space, three or more code
    units each of which is [-], [*] or [_] -- they need not be the same --
    and optional white space. *)
Theorem C6_rule_lines_mix_allowed :
  forall (lines : list str) (i : nat) (line : str),
    nth_error lines i = Some line ->
    (processBlockElement lines i = Ret (Some {| html := L "<hr>"; nextIndex := i + 1 |})
     <-> rule_line line).
Proof.
  intros lines i line Hn. split.
  - unfold processBlockElement. rewrite Hn.
    destruct (exec Re.header line) as [x|].
    { intros [= H]. longer H. }
    destruct (test Re.fence line).
    { destruct (processFencedCodeBlock lines i) as [b| |] eqn:E; cbn [bind];
        try discriminate.
      intros [= ->]. apply fence_html_long in E. exfalso. apply E. reflexivity. }
    destruct (_ && _ && _).
    { intros [= H]. apply table_html_long in H. exfalso. apply H. reflexivity. }
    destruct (_ || _).
    { intros [= H]. pose proof (list_html_long lines i) as N. rewrite H in N.
      exfalso. apply N. reflexivity. }
    destruct (test Re.quote line).
    { intros [= H]. unfold processBlockquote in H.
      destruct (quote_loop _ _ _) as [quoteLines j] in H.
      discriminate H. }
    destruct (test Re.rule line) eqn:E; [|discriminate].
    intros _. apply test_rule_iff. exact E.
  - intros Hr. pose proof Hr as (ws1 & body & ws2 & Hline & Hws1 & Hbody & Hlen & Hws2).
    destruct body as [|b1 [|b2 body]]; simpl in Hlen; try lia.
    inversion Hbody as [|? ? Hb1 Hbody']; subst.
    inversion Hbody' as [|? ? Hb2 _]; subst.
    assert (Ht : trimStart (ws1 ++ (b1 :: b2 :: body) ++ ws2)
                 = b1 :: b2 :: body ++ ws2).
    { apply trimStart_lead; [assumption|]. apply no_space_rule. exact Hb1. }
    set (line := ws1 ++ (b1 :: b2 :: body) ++ ws2) in *.
    assert (Hne : forall x, is_rule_char x = false -> b1 <> x).
    { intros x Hx ->. congruence. }
    unfold processBlockElement. rewrite Hn.
    rewrite (gate_header_lead line _ _ Ht) by (apply Hne; reflexivity).
    rewrite (gate_fence_lead line _ _ Ht) by (apply Hne; reflexivity).
    unfold isTableRow. rewrite (rule_line_no_pipe line Hr). cbn [andb].
    assert (Hbullet : test Re.list_bullet line = false).
    { apply not_true_is_false. intros H.
      apply (lead_cls_inv _ _ _ no_space_marker) in H.
      destruct H as (x & s & E & _ & [s2 c2] & He). rewrite Ht in E.
      injection E as <- <-. apply m_cls_In in He. destruct He as (y & [= <- _] & Hy).
      apply no_space_rule in Hb2. congruence. }
    rewrite Hbullet.
    rewrite (gate_number_lead line b1 _ Ht).
    2:{ unfold is_rule_char, one_of in Hb1. simpl in Hb1.
        rewrite !orb_true_iff, !ch_eqb_true in Hb1.
        destruct Hb1 as [->|[->|[->|H]]]; [reflexivity..|discriminate]. }
    rewrite (gate_quote_lead line _ _ Ht) by (apply Hne; reflexivity).
    apply test_rule_iff in Hr. rewrite Hr. reflexivity.
Qed.

(** Three different rule characters between blanks. *)
Lemma C6_witness :
  processBlockElement [L " -*_ "] 0 = Ret (Some {| html := L "<hr>"; nextIndex := 0 + 1 |})
  <-> rule_line (L " -*_ ").
Proof.
  apply (C6_rule_lines_mix_allowed [L " -*_ "] 0 (L " -*_ ")). reflexivity.
Defined.

(** A mixture of the three rule characters is a rule. *)
Lemma C6_counterexample :
  test Re.rule (L "-*_") = true /\
  processBlockElement [L "-*_"] 0 = Ret (Some {| html := L "<hr>"; nextIndex := 1 |}) /\
  processLines 2 [L "-*_"] = Ret (L "<hr>").
Proof. vm_compute. repeat split; reflexivity. Qed.

(** ** Replacement *)

Lemma quiet_tail (r : regex) (a b : str) : quiet r (a ++ b) -> quiet r b.
Proof.
  intros H inp pre t E. apply (H inp (a ++ pre) t). rewrite E, app_assoc. reflexivity.
Qed.

Lemma replace_st_quiet {St : Type} (inp : str) (r : regex) (f : St -> rmatch -> St * str)
    (s : str) :
  forall i st, (forall pre t, s = pre ++ t -> m inp r t = []) ->
               replace_st inp r f i s 0 st = (st, s).
Proof.
  induction s as [|c s IH]; intros i st H; cbn [replace_st].
  - rewrite (match_here_none inp r i [] (H [] [] eq_refl)). reflexivity.
  - rewrite (match_here_none inp r i _ (H [] _ eq_refl)).
    rewrite IH; [reflexivity|].
    intros pre t E. apply (H (c :: pre) t). rewrite E. reflexivity.
Qed.

Lemma replace_fn_quiet (r : regex) (f : rmatch -> str) (text : str) :
  quiet r text -> replace_fn r f text = text.
Proof.
  intros H. unfold replace_fn. rewrite replace_st_quiet; [reflexivity|].
  intros pre t E. exact (H text pre t E).
Qed.

Lemma replace_all_quiet (r : regex) (template text : str) :
  quiet r text -> replace_all r template text = text.
Proof. intros H. unfold replace_all. apply replace_fn_quiet. exact H. Qed.

(** Passing over the code units of a match. *)
Lemma replace_st_skip {St : Type} (inp : str) (r : regex) (f : St -> rmatch -> St * str)
    (a s : str) :
  forall i st,
    replace_st inp r f i (a ++ s) (length a) st
    = replace_st inp r f (i + length a) s 0 st.
Proof.
  induction a as [|c a IH]; intros i st; cbn [app length].
  - rewrite Nat.add_0_r. reflexivity.
  - cbn [replace_st]. rewrite IH. f_equal. lia.
Qed.

(** The scan copies a prefix in which the pattern matches nowhere. *)
Lemma replace_st_prefix {St : Type} (inp : str) (r : regex)
    (f : St -> rmatch -> St * str) (pre s : str) :
  forall i st,
    (forall p1 x p2, pre = p1 ++ x :: p2 -> m inp r (x :: p2 ++ s) = []) ->
    replace_st inp r f i (pre ++ s) 0 st
    = (fst (replace_st inp r f (i + length pre) s 0 st),
       pre ++ snd (replace_st inp r f (i + length pre) s 0 st)).
Proof.
  induction pre as [|c pre IH]; intros i st H; cbn [app length].
  - rewrite Nat.add_0_r. destruct (replace_st inp r f i s 0 st). reflexivity.
  - cbn [replace_st].
    rewrite (match_here_none inp r i _ (H [] c pre eq_refl)).
    rewrite IH.
    + replace (S i + length pre) with (i + S (length pre)) by lia. reflexivity.
    + intros p1 x p2 E. apply (H (c :: p1) x p2). rewrite E. reflexivity.
Qed.

(** The scan at a match that is not empty. *)
Lemma replace_st_match {St : Type} (inp : str) (r : regex)
    (f : St -> rmatch -> St * str) (x : ascii) (mt rest : str) (c : caps) :
  forall i st,
    hd_error (m inp r (x :: mt ++ rest)) = Some (rest, c) ->
    replace_st inp r f i (x :: mt ++ rest) 0 st
    = let hit := {| mindex := i; matched := x :: mt; mrest := rest; groups := c |} in
      (fst (replace_st inp r f (i + length (x :: mt)) rest 0 (fst (f st hit))),
       snd (f st hit)
       ++ snd (replace_st inp r f (i + length (x :: mt)) rest 0 (fst (f st hit)))).
Proof.
  intros i st H. cbn [replace_st].
  rewrite (match_here_first inp r i _ _ _ H).
  change (x :: mt ++ rest) with ((x :: mt) ++ rest).
  rewrite firstn_app_len. cbn [matched length app].
  destruct (f st _) as [st1 out] eqn:Ef. cbn [fst snd].
  rewrite replace_st_skip.
  replace (S i + length mt) with (i + S (length mt)) by lia.
  destruct (replace_st inp r f (i + S (length mt)) rest 0 st1). reflexivity.
Qed.


(** A pattern that begins with a given code unit is quiet where that code
    unit does not occur. *)
Lemma m_head_none (inp : str) (a x : ascii) (r : regex) (s : str) :
  x <> a -> m inp (Re.C a >> r) (x :: s) = [].
Proof.
  intros H. apply m_seq_nil_l. simpl. unfold is_ch.
  apply ch_eqb_false in H. rewrite H. reflexivity.
Qed.

Lemma quiet_head (a : ascii) (r : regex) (text : str) :
  ~ In a text -> quiet (Re.C a >> r) text.
Proof.
  intros H inp pre t E. destruct t as [|x t]; [reflexivity|].
  apply m_head_none. intros ->. apply H. rewrite E. apply in_or_app. right. left.
  reflexivity.
Qed.

Lemma quiet_second (p : ascii -> bool) (b : ascii) (r : regex) (text : str) :
  ~ In b text -> quiet (Cls p >> Re.C b >> r) text.
Proof.
  intros H inp pre t E. apply m_seq_none. intros s1 c1 Hin.
  apply m_cls_In in Hin. destruct Hin as (x & -> & _).
  destruct s1 as [|y s1]; [reflexivity|].
  apply m_head_none. intros ->. apply H. rewrite E. apply in_or_app. right.
  right. left. reflexivity.
Qed.

Lemma lacks_app (cs a b : str) : lacks cs (a ++ b) = lacks cs a && lacks cs b.
Proof. apply forallb_app. Qed.

Lemma lacks_not_In (cs s : str) (a : ascii) :
  lacks cs s = true -> In a cs -> ~ In a s.
Proof.
  unfold lacks. rewrite forallb_forall. intros H Ha Hin.
  apply H in Hin. apply negb_true_iff in Hin.
  unfold one_of in Hin. assert (E : existsb (ch_eqb a) cs = true).
  { apply existsb_exists. exists a. split; [exact Ha|apply ch_eqb_refl]. }
  congruence.
Qed.

Lemma lacks_sub (cs cs' s : str) :
  (forall a, In a cs' -> In a cs) -> lacks cs s = true -> lacks cs' s = true.
Proof.
  unfold lacks. rewrite !forallb_forall. intros Hsub H x Hx.
  apply negb_true_iff. apply not_true_is_false. intros E.
  unfold one_of in E. apply existsb_exists in E. destruct E as (a & Ha & Hxa).
  apply ch_eqb_true in Hxa. subst a.
  specialize (H x Hx). apply negb_true_iff in H.
  assert (E : one_of cs x = true).
  { unfold one_of. apply existsb_exists. exists x. split; [auto|apply ch_eqb_refl]. }
  congruence.
Qed.

Lemma lacks_incl (cs s s' : str) :
  (forall a, In a s' -> In a s) -> lacks cs s = true -> lacks cs s' = true.
Proof.
  unfold lacks. rewrite !forallb_forall. auto.
Qed.

(** [escapeHTML] writes nothing but the code units it reads and those of the
    four entities. *)
Lemma lacks_escapeHTML (cs s : str) :
  lacks cs (L "&amp;nbsp;lt;gt;") = true -> lacks cs s = true ->
  lacks cs (escapeHTML s) = true.
Proof.
  intros He. induction s as [|x s IH]; intros H; [reflexivity|].
  simpl in H. apply andb_true_iff in H. destruct H as [Hx Hs].
  change (escapeHTML (x :: s)) with (escape_char x ++ escapeHTML s).
  rewrite lacks_app, (IH Hs), andb_true_r.
  unfold escape_char.
  repeat match goal with
         | |- context [if ?b then _ else _] => destruct b
         end;
    try (simpl; rewrite Hx; reflexivity);
    (eapply lacks_incl; [|exact He]); simpl; tauto.
Qed.


(** ** The inline engine on a code span *)

(** The code-span pattern at a backtick, a content without backticks and a
    backtick. *)
Lemma code_span_match (inp : str) (c post : str) :
  c <> [] -> lacks (L "`") c = true ->
  hd_error (m inp Re.code_span ("`"%char :: (c ++ ["`"%char]) ++ post))
  = Some (post, [Some c]).
Proof.
  intros Hc Hl. unfold Re.code_span.
  rewrite <- app_assoc. cbn [app].
  assert (A1 : hd_error (m inp (Grp (Rep (not_ch "`") 1 None)) (c ++ "`"%char :: post))
               = Some ("`"%char :: post, [Some c])).
  { assert (G : hd_error (m inp (Rep (not_ch "`") 1 None) (c ++ "`"%char :: post))
                = Some ("`"%char :: post, [])).
    { apply m_rep_first; simpl; auto.
      - apply Forall_forall. intros x Hx. apply not_ch_true. intros ->.
        exact (lacks_not_In (L "`") c "`"%char Hl (or_introl eq_refl) Hx).
      - destruct c; [congruence|simpl; lia]. }
    apply m_grp_first in G. rewrite firstn_app_len in G. exact G. }
  assert (A2 : hd_error (m inp (Re.C "`") ("`"%char :: post)) = Some (post, []))
    by (apply m_cls_first; reflexivity).
  pose proof (m_seq_first inp _ _ _ _ _ _ _ A1 A2) as A3.
  exact (m_seq_first inp _ _ _ _ _ _ _ (m_cls_first inp _ "`"%char _ eq_refl) A3).
Qed.

Lemma head_quiet_prefix (inp : str) (a : ascii) (r : regex) (pre s : str) :
  ~ In a pre ->
  forall p1 x p2, pre = p1 ++ x :: p2 -> m inp (Re.C a >> r) (x :: p2 ++ s) = [].
Proof.
  intros H p1 x p2 E. apply m_head_none. intros ->. apply H. rewrite E.
  apply in_or_app. right. left. reflexivity.
Qed.



Lemma no_tag_start_app_plain (a b : str) :
  lacks (L "<") a = true -> no_tag_start (a ++ b) = no_tag_start b.
Proof.
  induction a as [|c a IH]; intros H; [reflexivity|].
  simpl in H. apply andb_true_iff in H. destruct H as [Hc Ha].
  cbn [app no_tag_start]. rewrite (IH Ha).
  rewrite orb_false_r in Hc. apply negb_true_iff in Hc. rewrite Hc. reflexivity.
Qed.

Lemma LitI_cons_none (inp : str) (a : ascii) (tag : str) (s : str) :
  match s with
  | x :: _ => is_ch_i a x = false
  | [] => True
  end ->
  m inp (LitI (a :: tag)) s = [].
Proof.
  intros H. cbn [LitI]. apply m_seq_nil_l. simpl.
  destruct s as [|x s]; [reflexivity|]. rewrite H. reflexivity.
Qed.

Lemma is_ch_i_lt (c : ascii) : is_ch_i "<" c = true -> c = "<"%char.
Proof.
  destruct c as [[] [] [] [] [] [] [] []]; vm_compute; intros H;
    try discriminate H; reflexivity.
Qed.

Lemma is_ch_i_tag (a y : ascii) :
  In a (L "kmds") -> is_ch_i a y = true -> one_of (L "kmdsKMDS") y = true.
Proof.
  intros [<-|[<-|[<-|[<-|[]]]]]; destruct y as [[] [] [] [] [] [] [] []];
    vm_compute; intros H; try discriminate H; reflexivity.
Qed.

Lemma quiet_inline_tag (tag : str) (text : str) :
  In tag allowedInlineTags -> no_tag_start text = true -> quiet (Re.inline_tag tag) text.
Proof.
  intros Htag H inp pre t E. subst text.
  assert (Ht : no_tag_start t = true).
  { clear Htag. induction pre as [|c pre IH]; [exact H|].
    apply IH. cbn [app no_tag_start] in H. apply andb_true_iff in H. tauto. }
  unfold Re.inline_tag. apply m_seq_nil_l.
  destruct t as [|c t]; [reflexivity|].
  cbn [LitI]. apply m_seq_none. intros s1 c1 Hin.
  apply m_cls_In in Hin. destruct Hin as (x & [= <- <-] & Hx).
  apply is_ch_i_lt in Hx. subst c.
  cbn [no_tag_start] in Ht. apply andb_true_iff in Ht. destruct Ht as [Ht _].
  apply negb_true_iff in Ht. rewrite ch_eqb_refl in Ht. cbn [andb] in Ht.
  destruct t as [|y t].
  - destruct Htag as [<-|[<-|[<-|[<-|[]]]]]; reflexivity.
  - assert (Hy : forall a, In a (L "kmds") -> is_ch_i a y = false).
    { intros a Ha. apply not_true_is_false. intros Hi.
      apply (is_ch_i_tag a y Ha) in Hi. congruence. }
    destruct Htag as [<-|[<-|[<-|[<-|[]]]]];
      apply LitI_cons_none; apply Hy; simpl; auto.
Qed.

Lemma processInlineHTML_quiet (text : str) :
  no_tag_start text = true -> processInlineHTML text = text.
Proof.
  intros H. unfold processInlineHTML, allowedInlineTags. cbn [fold_left].
  rewrite (replace_fn_quiet (Re.inline_tag (L "kbd")) _ text)
    by (apply quiet_inline_tag; [simpl; auto|exact H]).
  rewrite (replace_fn_quiet (Re.inline_tag (L "mark")) _ text)
    by (apply quiet_inline_tag; [simpl; auto|exact H]).
  rewrite (replace_fn_quiet (Re.inline_tag (L "details")) _ text)
    by (apply quiet_inline_tag; [simpl; auto|exact H]).
  apply replace_fn_quiet. apply quiet_inline_tag; [simpl; auto 6|exact H].
Qed.

Lemma later_stages_quiet (text : str) :
  lacks (L "*_~[") text = true -> no_tag_start text = true ->
  processInlineHTML
    (processStrikethrough (processBoldItalic (processLinks (processImages text))))
  = text.
Proof.
  intros H Ht.
  assert (Hn : forall a, In a (L "*_~[") -> ~ In a text)
    by (intros a; apply lacks_not_In; exact H).
  unfold processImages. rewrite (replace_fn_quiet _ _ text)
    by (apply (quiet_second _ "["%char); apply Hn; simpl; auto).
  unfold processLinks. rewrite (replace_fn_quiet _ _ text)
    by (apply (quiet_head "["%char); apply Hn; simpl; auto).
  unfold processBoldItalic, processStrikethrough, Re.pair2, Re.pair1. cbv zeta.
  do 5 (rewrite (replace_all_quiet _ _ text)
         by (apply quiet_head; apply Hn; simpl; auto)).
  apply processInlineHTML_quiet. exact Ht.
Qed.





(** ** The escaping pass *)

Lemma protect_quiet (r : regex) (elements : list str) (text : str) :
  quiet r text -> protect r (elements, text) = (elements, text).
Proof.
  intros H. unfold protect. apply replace_st_quiet.
  intros pre t E. exact (H text pre t E).
Qed.

Lemma quiet_code_span (text : str) :
  lacks (L "`") text = true -> quiet Re.code_span text.
Proof.
  intros H. apply (quiet_head "`"%char).
  exact (lacks_not_In _ _ "`"%char H (or_introl eq_refl)).
Qed.

Lemma quiet_link (text : str) : lacks (L "[") text = true -> quiet Re.link text.
Proof.
  intros H. apply (quiet_head "["%char).
  exact (lacks_not_In _ _ "["%char H (or_introl eq_refl)).
Qed.

Lemma quiet_image (text : str) : lacks (L "[") text = true -> quiet Re.image text.
Proof.
  intros H. apply (quiet_second _ "["%char).
  exact (lacks_not_In _ _ "["%char H (or_introl eq_refl)).
Qed.

Lemma quiet_tag_like (text : str) : lacks (L "<") text = true -> quiet Re.tag_like text.
Proof.
  intros H. apply (quiet_head "<"%char).
  exact (lacks_not_In _ _ "<"%char H (or_introl eq_refl)).
Qed.


(** A replacement string without [$] stands for itself. *)
Lemma GetSubstitution_plain (x : rmatch) (inp t : str) :
  lacks (L "$") t = true -> GetSubstitution x inp t = t.
Proof.
  induction t as [|c t IH]; intros H; [reflexivity|].
  simpl in H. apply andb_true_iff in H. destruct H as [Hc Ht].
  rewrite orb_false_r in Hc. cbn [GetSubstitution]. rewrite Hc, (IH Ht). reflexivity.
Qed.

Lemma starts_with_self (p post : str) : starts_with p (p ++ post) = true.
Proof. apply starts_with_app. eauto. Qed.

Lemma indexOf_behind (a : ascii) (p pre post : str) :
  ~ In a pre -> indexOf (a :: p) (pre ++ a :: p ++ post) = Some (length pre).
Proof.
  induction pre as [|x pre IH]; intros H.
  - pose proof (starts_with_self (a :: p) post) as Hs.
    cbn [app length] in *. cbn [indexOf]. rewrite Hs. reflexivity.
  - cbn [app length]. cbn [indexOf starts_with].
    assert (Hx : ch_eqb a x = false).
    { apply ch_eqb_false. intros ->. apply H. left. reflexivity. }
    rewrite Hx. cbn [andb]. rewrite IH; [reflexivity|].
    intros Hin. apply H. right. exact Hin.
Qed.

(** Restoring one protected element behind a prefix without [_]. *)
Lemma restore_one (pre post element : str) :
  lacks (L "_") pre = true -> lacks (L "$") element = true ->
  restore [element] 0 (pre ++ placeholder 0 ++ post) = pre ++ element ++ post.
Proof.
  intros Hpre He. cbn [restore]. unfold replace_str.
  change (placeholder 0) with ("_"%char :: L "_PROTECTED_0__").
  change (("_"%char :: L "_PROTECTED_0__") ++ post)
    with ("_"%char :: L "_PROTECTED_0__" ++ post).
  rewrite indexOf_behind
    by (exact (lacks_not_In _ _ "_"%char Hpre (or_introl eq_refl))).
  rewrite GetSubstitution_plain by exact He.
  rewrite firstn_app, firstn_all, Nat.sub_diag. cbn [firstn]. rewrite app_nil_r.
  rewrite skipn_app, skipn_all2 by lia.
  replace (length pre + length ("_"%char :: L "_PROTECTED_0__") - length pre)
    with (length ("_"%char :: L "_PROTECTED_0__")) by lia.
  change ("_"%char :: L "_PROTECTED_0__" ++ post)
    with (("_"%char :: L "_PROTECTED_0__") ++ post).
  rewrite skipn_app, skipn_all, Nat.sub_diag. reflexivity.
Qed.


(** Without backtick and [[] nothing is protected: the pass is the
    replacement of the tag-like sequences. *)
Lemma escapeHTMLInText_plain (text : str) :
  lacks (L "`[") text = true ->
  escapeHTMLInText text
  = replace_fn Re.tag_like (fun x => escapeHTML (matched x)) text.
Proof.
  intros H. unfold escapeHTMLInText.
  rewrite protect_quiet
    by (apply quiet_code_span, (lacks_sub (L "`[")); [simpl; tauto|exact H]).
  rewrite protect_quiet
    by (apply quiet_link, (lacks_sub (L "`[")); [simpl; tauto|exact H]).
  rewrite protect_quiet
    by (apply quiet_image, (lacks_sub (L "`[")); [simpl; tauto|exact H]).
  reflexivity.
Qed.





(** ** Protection and restoration of nested spans *)

(** C4.  A paragraph with a script tag in its plain text and a link whose
    text is a code span.  The script tag is escaped.  The code span is
    protected first (token 0) and the link around it second (token 1);
    the restoring loop puts element 0 back first, when token 0 is still
    inside element 1 and so not in the text, and element 1 afterwards:
    token 0 stays in the link, and the inline engine then renders its
    underscores as emphasis.  With the plain link [[x](y)] the paragraph
    comes out as expected.  The last part is a second slip of the same
    loop: the protected element is used as a replacement string, in which
    a dollar sign followed by a backtick stands for the text before the
    match, so that a code span ending in a dollar sign loses its closing
    backtick and its content is no longer escaped. *)
Theorem C4_link_with_code_span_is_mangled :
  escapeHTMLInText (L "<script>alert(1)</script> [`x`](y)")
  = L "&lt;script&gt;alert(1)&lt;/script&gt; [__PROTECTED_0__](y)" /\
  processParagraph [L "<script>alert(1)</script> [`x`](y)"] 0
  = Ret {| html := L "<p>&lt;script&gt;alert(1)&lt;/script&gt; <a href=" ++ [DQ] ++ L "y"
                   ++ [DQ] ++ L ">_<em>PROTECTED</em>0__</a></p>";
           nextIndex := 1 |} /\
  processParagraph [L "<script>alert(1)</script> [x](y)"] 0
  = Ret {| html := L "<p>&lt;script&gt;alert(1)&lt;/script&gt; <a href=" ++ [DQ] ++ L "y"
                   ++ [DQ] ++ L ">x</a></p>";
           nextIndex := 1 |} /\
  processParagraph [L "`<script>alert(1)</script>$`"] 0
  = Ret {| html := L "<p>`<script>alert(1)</script></p>"; nextIndex := 1 |}.
Proof. vm_compute. repeat split; reflexivity. Qed.

(** ** Progress and termination on the other lines *)

Lemma fence_loop_ge (rest : list str) :
  forall i codeLines, i <= snd (fence_loop rest i codeLines).
Proof.
  induction rest as [|l rest IH]; intros i acc; simpl; [lia|].
  destruct (negb (test Re.fence_close l)); simpl; [|lia].
  specialize (IH (S i) (acc ++ [l])). lia.
Qed.

Lemma table_loop_run (rest : list str) :
  forall i tableLines,
    exists run, table_loop rest i tableLines = (tableLines ++ run, i + length run).
Proof.
  induction rest as [|l rest IH]; intros i acc; simpl.
  - exists []. rewrite app_nil_r, Nat.add_0_r. reflexivity.
  - destruct (isTableRow l).
    + destruct (IH (S i) (acc ++ [l])) as (run & E). exists (l :: run).
      rewrite E, <- app_assoc. simpl. f_equal. lia.
    + exists []. rewrite app_nil_r, Nat.add_0_r. reflexivity.
Qed.

Lemma list_loop_ge (rest : list str) :
  forall i listItems listType,
    i <= snd (fst (list_loop rest i listItems listType)).
Proof.
  induction rest as [|l rest IH]; intros i items lt; simpl; [lia|].
  destruct (list_item l) as [[item t]|]; simpl; [|lia].
  specialize (IH (S i) (items ++ [item]) (set_if_null lt t)). lia.
Qed.

(** Every block processor goes on, but for processList on a stuck line. *)
Lemma progress_block (lines : list str) (i : nat) (line : str) (b : Block) :
  nth_error lines i = Some line ->
  stuck_line line = false ->
  processBlockElement lines i = Ret (Some b) ->
  i < nextIndex b.
Proof.
  intros Hn Hstuck. unfold processBlockElement. rewrite Hn.
  destruct (exec Re.header line).
  { intros [= <-]. simpl. lia. }
  destruct (test Re.fence line).
  { unfold processFencedCodeBlock. rewrite Hn.
    pose proof (fence_loop_ge (skipn (i + 1) lines) (i + 1) []) as G.
    destruct (fence_loop _ _ _) as [codeLines j]. cbn [bind].
    intros [= <-]. simpl in *. lia. }
  destruct (_ && _ && _).
  { unfold processTable.
    destruct (table_loop_run (skipn i lines) i []) as (run & E). rewrite E.
    cbn [app]. destruct (length run <? 2) eqn:El; [discriminate|].
    apply Nat.ltb_ge in El. intros [= <-]. simpl. lia. }
  unfold stuck_line in Hstuck.
  destruct (_ || _).
  { cbn [andb] in Hstuck. intros [= <-]. unfold processList.
    rewrite (nth_error_skipn _ _ _ Hn). cbn [list_loop].
    destruct (list_item line) as [[item t]|]; [|discriminate].
    pose proof (list_loop_ge (skipn (S i) lines) (S i) ([] ++ [item])
                  (set_if_null None t)) as G.
    destruct (list_loop _ _ _ _) as [[items j] lt]. simpl in *. lia. }
  destruct (test Re.quote line) eqn:Eq.
  { intros [= <-]. unfold processBlockquote.
    rewrite (nth_error_skipn _ _ _ Hn). cbn [quote_loop]. rewrite Eq.
    destruct (quote_loop_run (skipn (S i) lines) (S i)
                ([] ++ [replace_first Re.quote_marker [] line]))
      as (run & bodies & tail & _ & _ & _ & E).
    rewrite E. simpl. lia. }
  destruct (test Re.rule line); [|discriminate].
  intros [= <-]. simpl. lia.
Qed.

(** The dispatcher returns when no line is stuck: one turn per line at
    most, and one more to leave the loop. *)
Lemma dispatcher_returns (lines : list str) :
  (forall line, In line lines -> stuck_line line = false) ->
  forall fuel i result,
    length lines - i < fuel ->
    exists html, processLines_loop fuel lines i result = Ret html.
Proof.
  intros Hfree. induction fuel as [|fuel IH]; intros i result Hfuel; [lia|].
  cbn [processLines_loop].
  destruct (i <? length lines) eqn:Ei; [|eauto].
  apply Nat.ltb_lt in Ei.
  destruct (nth_error lines i) as [line|] eqn:Hn;
    [|apply nth_error_None in Hn; lia].
  destruct (_ && _).
  { apply IH. lia. }
  destruct (processBlockElement_ret lines i line Hn) as ([b|] & Hb); rewrite Hb;
    cbn [bind].
  - pose proof (progress_block lines i line b Hn
                  (Hfree line (nth_error_In _ _ Hn)) Hb).
    apply IH. lia.
  - destruct (progress_paragraph lines i) as (p & Hp & Hlt). rewrite Hp.
    cbn [bind]. apply IH. lia.
Qed.

(** X1.  Termination.  When no line of the input is stuck -- a line that opens
    the list gate without being a list item, such as a bullet with nothing
    behind it -- every block processor and processParagraph return a next
    index above the index they were called with, and [parse] returns,
    raising no error, within one turn of the dispatcher per line and one
    more. *)
Theorem parse_terminates_without_stuck_lines :
  forall (options : Options) (DOMPurify : option (str -> list str -> str))
         (markdown : str),
    (forall line, In line (lines_of markdown) -> stuck_line line = false) ->
    (forall i line b,
       nth_error (lines_of markdown) i = Some line ->
       processBlockElement (lines_of markdown) i = Ret (Some b) -> i < nextIndex b) /\
    (forall i, exists p,
       processParagraph (lines_of markdown) i = Ret p /\ i < nextIndex p) /\
    exists html,
      parse options DOMPurify (S (length (lines_of markdown))) markdown = Ret html.
Proof.
  intros options DOMPurify markdown Hfree. split; [|split].
  - intros i line b Hn Hb.
    exact (progress_block _ i line b Hn (Hfree line (nth_error_In _ _ Hn)) Hb).
  - intros i. apply progress_paragraph.
  - unfold parse. destruct markdown as [|c markdown]; [eauto|].
    fold (lines_of (c :: markdown)). unfold processLines.
    destruct (dispatcher_returns (lines_of (c :: markdown)) Hfree
                (S (length (lines_of (c :: markdown)))) 0 []) as (html & E); [lia|].
    rewrite E. cbn [bind]. eauto.
Qed.

(** The mixed document of the unit tests has no stuck line. *)
Lemma parse_terminates_witness :
  (forall i line b,
     nth_error (lines_of (L "# Title" ++ nl ++ nl ++ L "- a" ++ nl ++ L "> q")) i
     = Some line ->
     processBlockElement (lines_of (L "# Title" ++ nl ++ nl ++ L "- a" ++ nl ++ L "> q")) i
     = Ret (Some b) -> i < nextIndex b) /\
  (forall i, exists p,
     processParagraph (lines_of (L "# Title" ++ nl ++ nl ++ L "- a" ++ nl ++ L "> q")) i
     = Ret p /\ i < nextIndex p) /\
  exists html,
    parse default_options None
      (S (length (lines_of (L "# Title" ++ nl ++ nl ++ L "- a" ++ nl ++ L "> q"))))
      (L "# Title" ++ nl ++ nl ++ L "- a" ++ nl ++ L "> q") = Ret html.
Proof.
  apply (parse_terminates_without_stuck_lines default_options None
           (L "# Title" ++ nl ++ nl ++ L "- a" ++ nl ++ L "> q")).
  intros line H. vm_compute in H.
  repeat (destruct H as [<-|H]; [vm_compute; reflexivity|]). destruct H.
Defined.
(* ================================================================== *)
(** ** escapeHTML *)

Lemma escapeHTML_cons (c : ascii) (s : str) :
  escapeHTML (c :: s) = escape_char c ++ escapeHTML s.
Proof. reflexivity. Qed.

Lemma escapeHTML_app (a b : str) : escapeHTML (a ++ b) = escapeHTML a ++ escapeHTML b.
Proof. apply flat_map_app. Qed.

(** What [escape_char] writes holds no [<], no [>] and no no-break space. *)
Lemma escape_char_safe (c : ascii) :
  lacks ("<"%char :: ">"%char :: [NBSP]) (escape_char c) = true.
Proof. destruct c as [[] [] [] [] [] [] [] []]; vm_compute; reflexivity. Qed.

Lemma escape_char_plain (c : ascii) : is_special c = false -> escape_char c = [c].
Proof. destruct c as [[] [] [] [] [] [] [] []]; vm_compute; congruence. Qed.

Lemma escape_char_special (c : ascii) :
  is_special c = true -> 4 <= length (escape_char c).
Proof.
  destruct c as [[] [] [] [] [] [] [] []]; vm_compute; try congruence; intros _; lia.
Qed.

Lemma escape_char_length (c : ascii) : 1 <= length (escape_char c).
Proof.
  destruct (is_special c) eqn:E.
  - apply escape_char_special in E. lia.
  - rewrite (escape_char_plain c E). simpl. lia.
Qed.

Lemma escapeHTML_length (s : str) : length s <= length (escapeHTML s).
Proof.
  induction s as [|c s IH]; [simpl; lia|].
  rewrite escapeHTML_cons, length_app. pose proof (escape_char_length c). simpl. lia.
Qed.

(** What [escape_char] writes starts with [&] exactly for the code units it
    rewrites, and the second code unit tells them apart. *)
Lemma escape_char_cases (c : ascii) :
  (is_special c = false /\ escape_char c = [c] /\ c <> "&"%char) \/
  (c = "&"%char /\ escape_char c = L "&amp;") \/
  (c = NBSP /\ escape_char c = L "&nbsp;") \/
  (c = "<"%char /\ escape_char c = L "&lt;") \/
  (c = ">"%char /\ escape_char c = L "&gt;").
Proof.
  destruct c as [[] [] [] [] [] [] [] []];
    first [ left; repeat split; [discriminate] | idtac ];
    first [ right; left; split; reflexivity
          | right; right; left; split; reflexivity
          | right; right; right; left; split; reflexivity
          | right; right; right; right; split; reflexivity ].
Qed.

(** The five writings form a prefix code. *)
Lemma escape_char_prefix_free (x y : ascii) (a b : str) :
  escape_char x ++ a = escape_char y ++ b -> x = y /\ a = b.
Proof.
  intros H.
  destruct (escape_char_cases x) as [(_ & Ex & Nx)|[(-> & Ex)|[(-> & Ex)|[(-> & Ex)|(-> & Ex)]]]];
  destruct (escape_char_cases y) as [(_ & Ey & Ny)|[(-> & Ey)|[(-> & Ey)|[(-> & Ey)|(-> & Ey)]]]];
  rewrite ?Ex, ?Ey in H; simpl in H;
  try (injection H; intros; subst; first [congruence | split; congruence]);
  try discriminate H.
Qed.

(** X4.  [escapeHTML] never writes an angle bracket (nor a no-break space):
    whatever it escaped cannot open or close a tag. *)
Theorem escapeHTML_writes_no_angle_bracket :
  forall (text : str),
    lacks ("<"%char :: ">"%char :: [NBSP]) (escapeHTML text) = true.
Proof.
  induction text as [|c s IH]; [reflexivity|].
  rewrite escapeHTML_cons, lacks_app, escape_char_safe, IH. reflexivity.
Qed.

(** X5.  [escapeHTML] is injective: the text can be read back from what it
    wrote. *)
Theorem escapeHTML_injective :
  forall (a b : str), escapeHTML a = escapeHTML b -> a = b.
Proof.
  induction a as [|x a IH]; intros [|y b] H.
  - reflexivity.
  - exfalso. rewrite escapeHTML_cons in H. simpl in H.
    pose proof (escape_char_length y) as Hl.
    destruct (escape_char y); [simpl in Hl; lia|discriminate H].
  - exfalso. rewrite escapeHTML_cons in H. simpl in H.
    pose proof (escape_char_length x) as Hl.
    destruct (escape_char x); [simpl in Hl; lia|discriminate H].
  - rewrite !escapeHTML_cons in H.
    apply escape_char_prefix_free in H. destruct H as [-> H].
    rewrite (IH b H). reflexivity.
Qed.

Lemma escapeHTML_injective_witness :
  escapeHTML (L "a<b") = escapeHTML (L "a<b") /\ L "a<b" = L "a<b".
Proof.
  split; [reflexivity|].
  apply (escapeHTML_injective (L "a<b") (L "a<b")). reflexivity.
Defined.

(** X6.  [escapeHTML] returns its argument exactly when the argument holds none
    of [&], [<], [>] and the no-break space; quotes are among the code units
    it leaves. *)
Theorem escapeHTML_fixed_points :
  forall (text : str),
    escapeHTML text = text
    <-> lacks ("&"%char :: "<"%char :: ">"%char :: [NBSP]) text = true.
Proof.
  intros text. split.
  - intros H. apply (f_equal (@length ascii)) in H. revert H.
    induction text as [|c s IH]; intros H; [reflexivity|].
    rewrite escapeHTML_cons, length_app in H. simpl in H.
    pose proof (escapeHTML_length s) as Hs.
    pose proof (escape_char_length c) as Hc.
    destruct (is_special c) eqn:E.
    + apply escape_char_special in E. lia.
    + change (lacks ("&"%char :: "<"%char :: ">"%char :: [NBSP]) (c :: s))
        with (negb (is_special c)
              && lacks ("&"%char :: "<"%char :: ">"%char :: [NBSP]) s).
      rewrite E, IH; [reflexivity|lia].
  - induction text as [|c s IH]; intros H; [reflexivity|].
    change (lacks ("&"%char :: "<"%char :: ">"%char :: [NBSP]) (c :: s))
      with (negb (is_special c)
            && lacks ("&"%char :: "<"%char :: ">"%char :: [NBSP]) s) in H.
    apply andb_prop in H. destruct H as [Hc Hs].
    apply negb_true_iff in Hc.
    rewrite escapeHTML_cons, (escape_char_plain c Hc), (IH Hs). reflexivity.
Qed.

(* ================================================================== *)
(** ** trim, split and the helpers of tables *)

Lemma trimStart_stops (s : str) : stops is_space s -> trimStart s = s.
Proof. destruct s as [|c s]; [reflexivity|]. simpl. intros ->. reflexivity. Qed.

(** [trim] removes the white space around a string that neither starts
    nor ends with white space. *)
Lemma trim_padded (a c b : str) :
  Forall (fun x => is_space x = true) a ->
  Forall (fun x => is_space x = true) b ->
  stops is_space c -> stops is_space (rev c) ->
  trim (a ++ c ++ b) = c.
Proof.
  intros Ha Hb Hc Hr. destruct c as [|x c].
  - simpl. apply trim_blank. apply Forall_app. split; assumption.
  - unfold trim. rewrite (trimStart_app a _ Ha).
    rewrite (trimStart_stops ((x :: c) ++ b)) by exact Hc.
    rewrite rev_app_distr.
    rewrite (trimStart_app (rev b)) by (apply Forall_rev; exact Hb).
    rewrite (trimStart_stops _ Hr). apply rev_involutive.
Qed.

(** What [trim] returns: the string between two runs of white space, with
    no white space at either end. *)
Lemma trim_shape (s : str) :
  exists a b,
    s = a ++ trim s ++ b /\
    Forall (fun x => is_space x = true) a /\
    Forall (fun x => is_space x = true) b /\
    stops is_space (trim s) /\ stops is_space (rev (trim s)).
Proof.
  destruct (trimStart_split s) as (a & Ea & Ha & Hs).
  destruct (trimStart_split (rev (trimStart s))) as (b & Eb & Hb & Hu).
  unfold trim. set (t := trimStart s) in *. set (u := trimStart (rev t)) in *.
  assert (Et : t = rev u ++ rev b).
  { rewrite <- rev_app_distr, <- Eb. symmetry. apply rev_involutive. }
  exists a, (rev b). repeat split.
  - rewrite <- Et. exact Ea.
  - exact Ha.
  - apply Forall_rev. exact Hb.
  - destruct (rev u) as [|x r] eqn:E; [exact I|].
    rewrite Et in Hs. exact Hs.
  - rewrite rev_involutive. exact Hu.
Qed.

Lemma trim_idempotent (s : str) : trim (trim s) = trim s.
Proof.
  destruct (trim_shape s) as (a & b & _ & _ & _ & H1 & H2).
  pose proof (trim_padded [] (trim s) [] (Forall_nil _) (Forall_nil _) H1 H2) as H.
  rewrite app_nil_r in H. exact H.
Qed.

Lemma trim_In (s : str) (c : ascii) : In c (trim s) -> In c s.
Proof.
  destruct (trim_shape s) as (a & b & E & _). intros H.
  rewrite E. apply in_or_app. right. apply in_or_app. left. exact H.
Qed.

Lemma split_go_piece (sep : ascii) (c rest : str) :
  ~ In sep c ->
  forall cur, split_go sep (c ++ rest) cur = split_go sep rest (cur ++ c).
Proof.
  induction c as [|x c IH]; intros Hc cur.
  - simpl. rewrite app_nil_r. reflexivity.
  - simpl. destruct (ch_eqb x sep) eqn:E.
    + apply ch_eqb_true in E. subst. exfalso. apply Hc. left. reflexivity.
    + rewrite IH by (intros H; apply Hc; right; exact H).
      rewrite <- app_assoc. reflexivity.
Qed.

Lemma split_go_sep (sep : ascii) (rest cur : str) :
  split_go sep (sep :: rest) cur = cur :: split_go sep rest [].
Proof. simpl. rewrite ch_eqb_refl. reflexivity. Qed.

(** [split] undoes [join] when no piece holds the separator. *)
Lemma split_go_join (sep : ascii) (raw : list str) :
  Forall (fun c => ~ In sep c) raw ->
  forall x cur, ~ In sep x ->
    split_go sep (join [sep] (x :: raw)) cur = (cur ++ x) :: raw.
Proof.
  induction raw as [|y raw IH]; intros Hraw x cur Hx.
  - simpl. rewrite <- (app_nil_r x) at 1. rewrite split_go_piece by exact Hx.
    reflexivity.
  - change (join [sep] (x :: y :: raw)) with (x ++ [sep] ++ join [sep] (y :: raw)).
    rewrite split_go_piece by exact Hx.
    change ([sep] ++ join [sep] (y :: raw)) with (sep :: join [sep] (y :: raw)).
    rewrite split_go_sep.
    inversion Hraw as [|? ? Hy Hr]; subst.
    f_equal. exact (IH Hr y [] Hy).
Qed.

Lemma split_go_lacks (sep : ascii) (s : str) :
  forall cur p, ~ In sep cur -> In p (split_go sep s cur) -> ~ In sep p.
Proof.
  induction s as [|c s IH]; intros cur p Hcur Hp.
  - simpl in Hp. destruct Hp as [<-|[]]. exact Hcur.
  - simpl in Hp. destruct (ch_eqb c sep) eqn:E.
    + destruct Hp as [<-|Hp]; [exact Hcur|].
      apply (IH [] p); [intros []|exact Hp].
    + apply (IH (cur ++ [c]) p); [|exact Hp].
      intros H. apply in_app_or in H. destruct H as [H|[H|[]]]; [exact (Hcur H)|].
      subst. rewrite ch_eqb_refl in E. discriminate E.
Qed.

Lemma isTableRow_In (line : str) : isTableRow line = true <-> In "|"%char line.
Proof.
  unfold isTableRow. split.
  - intros H. apply andb_prop in H. destruct H as [H _].
    destruct (includes line (L "|")) eqn:E; [|discriminate H].
    destruct (in_dec ascii_dec "|"%char line) as [Hin|Hn]; [exact Hin|].
    apply (includes_char "|"%char line) in Hn.
    change (L "|") with ["|"%char] in E. congruence.
  - intros H. apply andb_true_intro. split.
    + destruct (includes line (L "|")) eqn:E; [reflexivity|].
      change (L "|") with ["|"%char] in E.
      apply (includes_char "|"%char line) in E. contradiction.
    + pose proof (trim_nonblank line "|"%char H eq_refl) as Hn.
      destruct (trim line); [congruence|reflexivity].
Qed.

Lemma sep_char_space (c : ascii) : is_space c = true -> Re.sep_char c = true.
Proof. unfold Re.sep_char. intros ->. reflexivity. Qed.

Lemma sep_char_pipe (c : ascii) : is_ch "|" c = true -> Re.sep_char c = true.
Proof.
  unfold is_ch. intros H. apply ch_eqb_true in H. subst. reflexivity.
Qed.

Lemma Forall_weaken {A : Type} (P Q : A -> Prop) (l : list A) :
  (forall x, P x -> Q x) -> Forall P l -> Forall Q l.
Proof. intros H F. induction F; constructor; auto. Qed.

(** X8.  isTableSeparator accepts exactly the lines that are not empty and are
    made of white space, [-], [|] and [:] only; neither a dash nor a pipe
    is needed. *)
Theorem isTableSeparator_iff_separator_chars :
  forall (line : str),
    isTableSeparator line = true
    <-> line <> [] /\ Forall (fun c => Re.sep_char c = true) line.
Proof.
  intros line. unfold isTableSeparator, Re.separator. rewrite test_bol_true. split.
  - intros [[r c] H].
    apply m_seq_In in H. destruct H as (s1 & c1 & c1' & H1 & H & _).
    apply m_seq_In in H. destruct H as (s2 & c2 & c2' & H2 & H & _).
    apply m_seq_In in H. destruct H as (s3 & c3 & c3' & H3 & H & _).
    apply m_seq_In in H. destruct H as (s4 & c4 & c4' & H4 & H & _).
    apply m_seq_In in H. destruct H as (s5 & c5 & c5' & H5 & H & _).
    apply m_eol_In in H. destruct H as [E5 _].
    apply m_rep_In in H1. destruct H1 as (r1 & E1 & F1 & _).
    apply m_rep_In in H2. destruct H2 as (r2 & E2 & F2 & _).
    apply m_rep_In in H3. destruct H3 as (r3 & E3 & F3 & L3 & _).
    apply m_rep_In in H4. destruct H4 as (r4 & E4 & F4 & _).
    apply m_rep_In in H5. destruct H5 as (r5 & E5' & F5 & _).
    subst s5. subst s4. subst s3. subst s2. subst s1. subst line. split.
    + destruct r3 as [|x r3]; [simpl in L3; lia|].
      intros E. apply (f_equal (@length ascii)) in E.
      rewrite !length_app in E. simpl in E. lia.
    + repeat (apply Forall_app; split); try constructor.
      * exact (Forall_weaken _ _ _ sep_char_space F1).
      * exact (Forall_weaken _ _ _ sep_char_pipe F2).
      * exact F3.
      * exact (Forall_weaken _ _ _ sep_char_pipe F4).
      * exact (Forall_weaken _ _ _ sep_char_space F5).
  - intros [Hn HF]. exists ([], [] ++ [] ++ [] ++ [] ++ [] ++ []).
    apply (m_seq_In_intro line _ _ line line);
      [exact (m_rep_In_run line is_space 0 None [] line (Forall_nil _) (le_n 0) I)|].
    apply (m_seq_In_intro line _ _ line line);
      [exact (m_rep_In_run line (is_ch "|") 0 (Some 1) [] line (Forall_nil _)
                (le_n 0) (le_S _ _ (le_n 0)))|].
    apply (m_seq_In_intro line _ _ line []).
    { pose proof (m_rep_In_run line Re.sep_char 1 None line [] HF) as H.
      rewrite app_nil_r in H. apply H; [|exact I].
      destruct line; [congruence|simpl; lia]. }
    apply (m_seq_In_intro line _ _ [] []);
      [exact (m_rep_In_run line (is_ch "|") 0 (Some 1) [] [] (Forall_nil _)
                (le_n 0) (le_S _ _ (le_n 0)))|].
    apply (m_seq_In_intro line _ _ [] []);
      [exact (m_rep_In_run line is_space 0 None [] [] (Forall_nil _) (le_n 0) I)|].
    simpl. left. reflexivity.
Qed.

Lemma fold_left_flat_map {A : Type} (f : A -> str) (l : list A) :
  forall h, fold_left (fun h x => h ++ f x) l h = h ++ flat_map f l.
Proof.
  induction l as [|x l IH]; intros h; simpl.
  - rewrite app_nil_r. reflexivity.
  - rewrite IH, <- app_assoc. reflexivity.
Qed.

Lemma table_loop_rows (run after : list str) :
  Forall (fun l => In "|"%char l) run ->
  (forall l tl, after = l :: tl -> ~ In "|"%char l) ->
  forall i tableLines,
    table_loop (run ++ after) i tableLines = (tableLines ++ run, i + length run).
Proof.
  intros Hrun Hafter. induction Hrun as [|l run Hl _ IH]; intros i tableLines.
  - simpl. rewrite app_nil_r, Nat.add_0_r.
    destruct after as [|l tl]; [reflexivity|].
    simpl. destruct (isTableRow l) eqn:E; [|reflexivity].
    apply isTableRow_In in E. exfalso. exact (Hafter l tl eq_refl E).
  - simpl. rewrite (proj2 (isTableRow_In l) Hl). rewrite IH.
    rewrite <- app_assoc. simpl. f_equal. lia.
Qed.

(** X7.  isTableRow: a line is a table row exactly when it holds a [|]; the
    test on the trimmed length adds nothing to [includes]. *)
Theorem isTableRow_iff_has_pipe :
  forall (line : str),
    isTableRow line = includes line (L "|") /\
    (isTableRow line = true <-> In "|"%char line).
Proof.
  intros line. split; [|exact (isTableRow_In line)].
  destruct (includes line (L "|")) eqn:E.
  - apply isTableRow_In.
    destruct (in_dec ascii_dec "|"%char line) as [Hin|Hn]; [exact Hin|].
    apply (includes_char "|"%char line) in Hn.
    change (L "|") with ["|"%char] in E. congruence.
  - unfold isTableRow. rewrite E. reflexivity.
Qed.

(** X9.  parseTableRow: every cell it returns is not empty, holds no [|] and is
    its own trim (no white space at either end). *)
Theorem parseTableRow_cells_are_trimmed :
  forall (line : str),
    Forall (fun cell => cell <> [] /\ trim cell = cell /\ ~ In "|"%char cell)
           (parseTableRow line).
Proof.
  intros line. apply Forall_forall. intros cell H.
  unfold parseTableRow in H. apply filter_In in H. destruct H as [H Hn].
  apply in_map_iff in H. destruct H as (piece & <- & Hp). repeat split.
  - intros E. apply str_eqb_nil in E. rewrite E in Hn. discriminate Hn.
  - apply trim_idempotent.
  - intros Hin. apply trim_In in Hin.
    exact (split_go_lacks "|"%char line [] piece (fun f => f) Hp Hin).
Qed.

(** X10.  parseTableRow on pieces joined by [|]: the pieces are trimmed and the
    empty ones dropped, those between two pipes included, so the cells
    behind an empty cell move one column to the left. *)
Theorem parseTableRow_of_joined_pieces :
  forall (pieces : list str),
    Forall (fun piece => ~ In "|"%char piece) pieces ->
    parseTableRow (join (L "|") pieces)
    = filter (fun cell => negb (str_eqb cell [])) (map trim pieces).
Proof.
  intros pieces H. unfold parseTableRow, split.
  destruct pieces as [|x pieces]; [reflexivity|].
  inversion H as [|? ? Hx Hr]; subst.
  change (L "|") with ["|"%char].
  do 2 f_equal. exact (split_go_join "|"%char pieces Hr x [] Hx).
Qed.

Lemma parseTableRow_of_joined_pieces_witness :
  parseTableRow (L "| a || b |") = [L "a"; L "b"].
Proof.
  apply (parseTableRow_of_joined_pieces [[]; L " a "; []; L " b "; []]).
  repeat constructor; simpl; intuition discriminate.
Defined.

(** X11.  processTable: the lines with a [|] from the start index on are the
    table.  The first gives the header cells, the second is skipped
    whatever it holds, each other one gives a row of data cells, with as
    many cells as it has; the index returned is that of the first line
    without [|].  Behind a line that is no header and no fence, and
    before a separator line, the block dispatcher returns that block. *)
Theorem processTable_takes_the_lines_with_a_pipe :
  forall (before : list str) (header sep : str) (rows after : list str),
    In "|"%char header -> In "|"%char sep ->
    Forall (fun l => In "|"%char l) rows ->
    (forall l tl, after = l :: tl -> ~ In "|"%char l) ->
    processTable (before ++ header :: sep :: rows ++ after) (length before)
    = Some (table_block (length before) header rows) /\
    (exec Re.header header = None -> test Re.fence header = false ->
     isTableSeparator sep = true ->
     processBlockElement (before ++ header :: sep :: rows ++ after) (length before)
     = Ret (Some (table_block (length before) header rows))).
Proof.
  intros before header sep rows after Hh Hs Hrows Hafter.
  assert (P : processTable (before ++ header :: sep :: rows ++ after) (length before)
              = Some (table_block (length before) header rows)).
  { unfold processTable.
    rewrite skipn_app, Nat.sub_diag, skipn_all. cbn [app skipn].
    change (header :: sep :: rows ++ after) with ((header :: sep :: rows) ++ after).
    rewrite table_loop_rows;
      [|constructor; [exact Hh|constructor; [exact Hs|exact Hrows]]|exact Hafter].
    cbn [app length Nat.ltb Nat.leb nth skipn].
    unfold table_block. f_equal. f_equal; [|lia].
    rewrite fold_left_flat_map.
    assert (R : forall l h,
               fold_left
                 (fun html row =>
                    fold_left (fun html cell =>
                                 html ++ L "<td>" ++ processInlineElements cell
                                      ++ L "</td>" ++ nl) row (html ++ L "<tr>" ++ nl)
                    ++ L "</tr>" ++ nl)
                 (map parseTableRow l) h
               = h ++ flat_map row_html l).
    { induction l as [|r l IH]; intros h; simpl.
      - rewrite app_nil_r. reflexivity.
      - rewrite IH, fold_left_flat_map. unfold row_html, td_html.
        repeat rewrite <- app_assoc. reflexivity. }
    rewrite R. unfold th_html. repeat rewrite <- app_assoc. reflexivity. }
  split; [exact P|].
  intros Hhd Hf Hsep. unfold processBlockElement.
  rewrite nth_error_app2, Nat.sub_diag by lia. cbn [nth_error].
  rewrite Hhd, Hf, (proj2 (isTableRow_In header) Hh).
  assert (Hlt : (length before + 1 <? length (before ++ header :: sep :: rows ++ after))
                = true).
  { apply Nat.ltb_lt. rewrite length_app. simpl. lia. }
  rewrite Hlt.
  rewrite app_nth2 by lia.
  replace (length before + 1 - length before) with 1 by lia. cbn [nth andb].
  rewrite Hsep, P. reflexivity.
Qed.

Lemma processTable_takes_the_lines_with_a_pipe_witness :
  processTable [L "intro"; L "a | b"; L "--|:-"; L "1 | 2 | 3"; L "4"; L "end"] 1
  = Some (table_block 1 (L "a | b") [L "1 | 2 | 3"]) /\
  processBlockElement
    [L "intro"; L "a | b"; L "--|:-"; L "1 | 2 | 3"; L "4"; L "end"] 1
  = Ret (Some (table_block 1 (L "a | b") [L "1 | 2 | 3"])).
Proof.
  assert (P : forall l, isTableRow l = true -> In "|"%char l)
    by (intros l; apply isTableRow_In).
  assert (A : forall l tl, [L "4"; L "end"] = l :: tl -> ~ In "|"%char l).
  { intros l tl E. injection E as <- _. simpl. intuition discriminate. }
  destruct (processTable_takes_the_lines_with_a_pipe
              [L "intro"] (L "a | b") (L "--|:-") [L "1 | 2 | 3"] [L "4"; L "end"]
              (P (L "a | b") eq_refl) (P (L "--|:-") eq_refl)
              (Forall_cons _ (P (L "1 | 2 | 3") eq_refl) (Forall_nil _)) A)
    as [H1 H2].
  split; [exact H1|]. apply H2; reflexivity.
Defined.

(* ================================================================== *)
(** ** Fenced code blocks *)

Lemma m_opt_first (inp : str) (a : regex) (s s1 : str) (c1 : caps) :
  hd_error (m inp a s) = Some (s1, c1) ->
  hd_error (m inp (Opt a) s) = Some (s1, c1).
Proof. intros H. simpl. apply hd_error_app. exact H. Qed.

Lemma m_opt_none (inp : str) (a : regex) (s : str) :
  m inp a s = [] ->
  hd_error (m inp (Opt a) s) = Some (s, repeat None (ngroups a)).
Proof. intros H. simpl. rewrite H. reflexivity. Qed.

(** The language of an opening line: the word characters behind the three
    backticks. *)
Lemma fence_lang_match (lang tail : str) :
  Forall (fun c => is_word c = true) lang -> stops is_word tail ->
  exists x,
    exec Re.fence_lang (L "```" ++ lang ++ tail) = Some x /\
    group x 1 = match lang with [] => None | _ :: _ => Some lang end.
Proof.
  intros Hl Ht. unfold Re.fence_lang. rewrite exec_bol.
  set (line := L "```" ++ lang ++ tail).
  assert (A1 : hd_error (m line (Lit (L "```")) line) = Some (lang ++ tail, []))
    by reflexivity.
  destruct lang as [|c l].
  - assert (A2 : hd_error (m line (Opt (Grp (Rep is_word 1 None))) ([] ++ tail))
                 = Some (tail, [None])).
    { apply (m_opt_none line (Grp (Rep is_word 1 None))).
      apply m_grp_nil. apply m_rep_none; [lia|exact Ht]. }
    pose proof (m_seq_first line _ _ _ _ _ _ _ A1 A2) as A3.
    rewrite (match_here_first line _ 0 line _ _ A3).
    eexists. split; reflexivity.
  - assert (A2 : hd_error (m line (Opt (Grp (Rep is_word 1 None))) ((c :: l) ++ tail))
                 = Some (tail, [Some (c :: l)])).
    { apply m_opt_first.
      assert (G : hd_error (m line (Rep is_word 1 None) ((c :: l) ++ tail))
                  = Some (tail, []))
        by (apply m_rep_first; [exact Hl|exact Ht|simpl; lia|exact I]).
      apply m_grp_first in G. rewrite firstn_app_len in G. exact G. }
    pose proof (m_seq_first line _ _ _ _ _ _ _ A1 A2) as A3.
    rewrite (match_here_first line _ 0 line _ _ A3).
    eexists. split; reflexivity.
Qed.

Lemma fence_loop_closed (body : list str) (close : str) (after : list str) :
  Forall (fun l => test Re.fence_close l = false) body ->
  test Re.fence_close close = true ->
  forall i codeLines,
    fence_loop (body ++ close :: after) i codeLines
    = (codeLines ++ body, i + length body).
Proof.
  intros Hb Hc. induction Hb as [|l body Hl _ IH]; intros i codeLines.
  - simpl. rewrite Hc, app_nil_r, Nat.add_0_r. reflexivity.
  - simpl. rewrite Hl. cbn [negb]. rewrite IH, <- app_assoc. simpl. f_equal. lia.
Qed.

(** X12.  processFencedCodeBlock on a fence that is closed: the opening line is
    three backticks, the word characters [language] and anything else
    [tail], which is dropped; the block holds the lines up to the first
    closing line, joined by line feeds and escaped, under a [class] when
    there is a language; the index returned is the one behind the closing
    line.  The block dispatcher returns that block. *)
Theorem processFencedCodeBlock_closed_fence :
  forall (before : list str) (language tail : str) (body : list str) (close : str)
         (after : list str),
    Forall (fun c => is_word c = true) language -> stops is_word tail ->
    Forall (fun l => test Re.fence_close l = false) body ->
    test Re.fence_close close = true ->
    processFencedCodeBlock
      (before ++ (L "```" ++ language ++ tail) :: body ++ close :: after)
      (length before)
    = Ret (fence_block (length before) language body) /\
    processBlockElement
      (before ++ (L "```" ++ language ++ tail) :: body ++ close :: after)
      (length before)
    = Ret (Some (fence_block (length before) language body)).
Proof.
  intros before language tail body close after Hl Ht Hb Hc.
  set (line := L "```" ++ language ++ tail).
  set (lines := before ++ line :: body ++ close :: after).
  assert (Hn : nth_error lines (length before) = Some line).
  { unfold lines. rewrite nth_error_app2, Nat.sub_diag by lia. reflexivity. }
  assert (P : processFencedCodeBlock lines (length before)
              = Ret (fence_block (length before) language body)).
  { unfold processFencedCodeBlock. rewrite Hn.
    destruct (fence_lang_match language tail Hl Ht) as (x & Ex & Gx).
    fold line in Ex. rewrite Ex, Gx.
    assert (Hs : skipn (length before + 1) lines = body ++ close :: after).
    { unfold lines. rewrite skipn_app, skipn_all2 by lia.
      replace (length before + 1 - length before) with 1 by lia. reflexivity. }
    rewrite Hs, (fence_loop_closed body close after Hb Hc).
    unfold fence_block. cbn [app]. f_equal. f_equal.
    - destruct language; reflexivity.
    - lia. }
  split; [exact P|].
  unfold processBlockElement. rewrite Hn.
  rewrite (gate_header_lead line "`"%char (L "``" ++ language ++ tail))
    by (reflexivity || discriminate).
  rewrite (proj2 (test_fence line)) by (exists (language ++ tail); reflexivity).
  rewrite P. reflexivity.
Qed.

Lemma processFencedCodeBlock_closed_fence_witness :
  processFencedCodeBlock [L "text"; L "```c++ x"; L "a < b"; L "``` js"; L "```  "; L "end"] 1
  = Ret (fence_block 1 (L "c") [L "a < b"; L "``` js"]) /\
  processBlockElement [L "text"; L "```c++ x"; L "a < b"; L "``` js"; L "```  "; L "end"] 1
  = Ret (Some (fence_block 1 (L "c") [L "a < b"; L "``` js"])).
Proof.
  apply (processFencedCodeBlock_closed_fence
           [L "text"] (L "c") (L "++ x") [L "a < b"; L "``` js"] (L "```  ") [L "end"]).
  - repeat constructor.
  - reflexivity.
  - repeat constructor.
  - reflexivity.
Defined.

(* ================================================================== *)
(** ** Line endings and the lines of a document *)

Lemma replace_st_miss {St : Type} (inp : str) (r : regex) (f : St -> rmatch -> St * str)
    (i : nat) (c : ascii) (s : str) (st : St) :
  m inp r (c :: s) = [] ->
  replace_st inp r f i (c :: s) 0 st
  = (fst (replace_st inp r f (S i) s 0 st), c :: snd (replace_st inp r f (S i) s 0 st)).
Proof.
  intros H. cbn [replace_st]. rewrite (match_here_none inp r i (c :: s) H).
  destruct (replace_st inp r f (S i) s 0 st). reflexivity.
Qed.

Lemma replace_st_nil {St : Type} (inp : str) (r : regex) (f : St -> rmatch -> St * str)
    (i : nat) (st : St) :
  m inp r [] = [] -> replace_st inp r f i [] 0 st = (st, []).
Proof. intros H. cbn [replace_st]. rewrite (match_here_none inp r i [] H). reflexivity. Qed.

Lemma m_crlf (inp : str) (c : ascii) (s : str) :
  m inp Re.crlf (c :: s)
  = match s with
    | d :: s' => if ch_eqb c CR && ch_eqb d LF then [(s', [])] else []
    | [] => []
    end.
Proof.
  unfold Re.crlf, Re.C, is_ch. cbn [m].
  destruct (ch_eqb c CR); [|destruct s; reflexivity].
  destruct s as [|d s']; [reflexivity|].
  simpl. destruct (ch_eqb d LF); reflexivity.
Qed.

Lemma crlf_to_lf_cons2 (c d : ascii) (s : str) :
  crlf_to_lf (c :: d :: s)
  = if ch_eqb c CR && ch_eqb d LF then LF :: crlf_to_lf s else c :: crlf_to_lf (d :: s).
Proof. reflexivity. Qed.

Lemma replace_crlf_go (inp inp' : str) (n : nat) :
  forall s i, length s <= n ->
    snd (replace_st inp Re.crlf (fun (_ : unit) x => (tt, GetSubstitution x inp' nl)) i s 0 tt)
    = crlf_to_lf s.
Proof.
  induction n as [|n IH]; intros s i Hn.
  - destruct s; [|simpl in Hn; lia]. reflexivity.
  - destruct s as [|c s]; [reflexivity|].
    destruct s as [|d s].
    + rewrite replace_st_miss by (rewrite m_crlf; reflexivity). reflexivity.
    + destruct (ch_eqb c CR && ch_eqb d LF) eqn:E.
      * apply andb_prop in E. destruct E as [Ec Ed].
        apply ch_eqb_true in Ec. apply ch_eqb_true in Ed. subst c d.
        change (CR :: LF :: s) with (CR :: [LF] ++ s).
        rewrite (replace_st_match inp Re.crlf _ CR [LF] s [] i tt eq_refl).
        cbv zeta. cbn [fst snd]. rewrite GetSubstitution_plain by reflexivity.
        assert (Hs : length s <= n) by (simpl in Hn; lia).
        rewrite (IH s _ Hs). reflexivity.
      * rewrite replace_st_miss by (rewrite m_crlf, E; reflexivity).
        assert (Hs : length (d :: s) <= n) by (simpl in Hn |- *; lia).
        cbn [snd]. rewrite (IH (d :: s) _ Hs).
        rewrite crlf_to_lf_cons2, E. reflexivity.
Qed.

Lemma replace_crlf (s : str) : replace_all Re.crlf nl s = crlf_to_lf s.
Proof. unfold replace_all, replace_fn. apply (replace_crlf_go s s (length s)). lia. Qed.

Lemma replace_cr_go (inp inp' : str) (s : str) :
  forall i,
    snd (replace_st inp Re.cr (fun (_ : unit) x => (tt, GetSubstitution x inp' nl)) i s 0 tt)
    = cr_to_lf s.
Proof.
  induction s as [|c s IH]; intros i; [reflexivity|].
  destruct (ch_eqb c CR) eqn:E.
  - apply ch_eqb_true in E. subst c.
    change (CR :: s) with (CR :: [] ++ s).
    rewrite (replace_st_match inp Re.cr _ CR [] s [] i tt eq_refl).
    cbv zeta. cbn [fst snd]. rewrite GetSubstitution_plain by reflexivity.
    rewrite IH. reflexivity.
  - rewrite replace_st_miss
      by (unfold Re.cr, Re.C, is_ch; cbn [m]; rewrite E; reflexivity).
    cbn [snd]. rewrite IH. cbn [cr_to_lf map]. rewrite E. reflexivity.
Qed.

Lemma replace_cr (s : str) : replace_all Re.cr nl s = cr_to_lf s.
Proof. unfold replace_all, replace_fn. apply replace_cr_go. Qed.

Lemma lines_of_eq (markdown : str) :
  lines_of markdown = split LF (cr_to_lf (crlf_to_lf markdown)).
Proof. unfold lines_of. rewrite replace_crlf, replace_cr. reflexivity. Qed.

(** [parse] reads its argument through its lines. *)
Lemma parse_lines_of (options : Options) (DOMPurify : option (str -> list str -> str))
    (fuel : nat) (markdown : str) :
  parse options DOMPurify fuel markdown
  = match markdown with
    | [] => Ret []
    | _ :: _ =>
        html <- processLines fuel (lines_of markdown) ;;
        Ret (if sanitizeHTML_option options
             then sanitizeHTML options DOMPurify html else html)
    end.
Proof. destruct markdown; reflexivity. Qed.

Lemma parse_nonempty (options : Options) (DOMPurify : option (str -> list str -> str))
    (fuel : nat) (markdown : str) :
  markdown <> [] ->
  parse options DOMPurify fuel markdown
  = (html <- processLines fuel (lines_of markdown) ;;
     Ret (if sanitizeHTML_option options
          then sanitizeHTML options DOMPurify html else html)).
Proof. destruct markdown; [congruence|reflexivity]. Qed.

Lemma crlf_to_lf_Forall (P : ascii -> Prop) (n : nat) :
  P LF -> forall s, length s <= n -> Forall P s -> Forall P (crlf_to_lf s).
Proof.
  intros HP. induction n as [|n IH]; intros s Hn Hs.
  - destruct s; [constructor|simpl in Hn; lia].
  - destruct s as [|c [|d s]]; [constructor|exact Hs|].
    rewrite crlf_to_lf_cons2. inversion Hs as [|? ? Hc Hs']; subst.
    inversion Hs' as [|? ? Hd Hs'']; subst.
    destruct (ch_eqb c CR && ch_eqb d LF).
    + constructor; [exact HP|]. apply IH; [simpl in Hn; lia|exact Hs''].
    + constructor; [exact Hc|]. apply IH; [simpl in Hn |- *; lia|exact Hs'].
Qed.

Lemma cr_to_lf_no_cr (s : str) : ~ In CR (cr_to_lf s).
Proof.
  unfold cr_to_lf. intros H. apply in_map_iff in H. destruct H as (c & E & _).
  destruct (ch_eqb c CR) eqn:Ec; [discriminate E|].
  subst c. rewrite ch_eqb_refl in Ec. discriminate Ec.
Qed.

Lemma split_go_In (sep : ascii) (s : str) :
  forall cur p c, In p (split_go sep s cur) -> In c p -> In c cur \/ In c s.
Proof.
  induction s as [|x s IH]; intros cur p c Hp Hc.
  - simpl in Hp. destruct Hp as [<-|[]]. left. exact Hc.
  - simpl in Hp. destruct (ch_eqb x sep).
    + destruct Hp as [<-|Hp]; [left; exact Hc|].
      destruct (IH [] p c Hp Hc) as [[]|H]. right. right. exact H.
    + destruct (IH (cur ++ [x]) p c Hp Hc) as [H|H].
      * apply in_app_or in H. destruct H as [H|[<-|[]]]; [left; exact H|].
        right. left. reflexivity.
      * right. right. exact H.
Qed.

(** X13.  No line of a document holds a line terminator: [parse] turns every
    carriage return into a line feed (one line feed for a carriage return
    and the line feed behind it) and splits at the line feeds. *)
Theorem lines_hold_no_line_terminator :
  forall (markdown : str),
    Forall (fun line => lacks [CR; LF] line = true) (lines_of markdown) /\
    (forall (options : Options) (DOMPurify : option (str -> list str -> str))
            (fuel : nat),
       markdown <> [] ->
       parse options DOMPurify fuel markdown
       = (html <- processLines fuel (lines_of markdown) ;;
          Ret (if sanitizeHTML_option options
               then sanitizeHTML options DOMPurify html else html))).
Proof.
  intros markdown. split.
  - rewrite lines_of_eq. apply Forall_forall. intros line Hl.
    unfold lacks. apply forallb_forall. intros c Hc.
    apply negb_true_iff. apply not_true_is_false. intros E.
    unfold one_of in E. apply existsb_exists in E. destruct E as (a & Ha & E).
    apply ch_eqb_true in E. subst a.
    destruct Ha as [<-|[<-|[]]].
    + destruct (split_go_In LF _ [] line CR Hl Hc) as [[]|H].
      exact (cr_to_lf_no_cr _ H).
    + exact (split_go_lacks LF _ [] line (fun f => f) Hl Hc).
  - intros options DOMPurify fuel Hne. apply parse_nonempty. exact Hne.
Qed.

Lemma lines_hold_no_line_terminator_witness :
  Forall (fun line => lacks [CR; LF] line = true)
         (lines_of (L "a" ++ [CR; LF] ++ L "b" ++ [CR] ++ L "c")) /\
  parse default_options None 4 (L "a" ++ [CR; LF] ++ L "b" ++ [CR] ++ L "c")
  = (html <- processLines 4 (lines_of (L "a" ++ [CR; LF] ++ L "b" ++ [CR] ++ L "c")) ;;
     Ret (if sanitizeHTML_option default_options
          then sanitizeHTML default_options None html else html)).
Proof.
  destruct (lines_hold_no_line_terminator (L "a" ++ [CR; LF] ++ L "b" ++ [CR] ++ L "c"))
    as [H1 H2].
  split; [exact H1|]. apply H2. discriminate.
Defined.

Lemma crlf_to_lf_to_crlf (s : str) :
  ~ In CR s -> crlf_to_lf (to_crlf s) = s.
Proof.
  induction s as [|c s IH]; intros H; [reflexivity|].
  assert (Hs : ~ In CR s) by (intros F; apply H; right; exact F).
  assert (Hc : ch_eqb c CR = false).
  { apply ch_eqb_false. intros ->. apply H. left. reflexivity. }
  change (to_crlf (c :: s)) with ((if ch_eqb c LF then [CR; LF] else [c]) ++ to_crlf s).
  destruct (ch_eqb c LF) eqn:E.
  - apply ch_eqb_true in E. subst c. cbn [app]. rewrite crlf_to_lf_cons2.
    change (ch_eqb CR CR && ch_eqb LF LF) with true. cbv iota.
    rewrite (IH Hs). reflexivity.
  - cbn [app]. destruct (to_crlf s) as [|d t] eqn:Et.
    + rewrite <- (IH Hs). reflexivity.
    + rewrite crlf_to_lf_cons2, Hc. cbn [andb]. rewrite (IH Hs). reflexivity.
Qed.

Lemma crlf_to_lf_no_lf (n : nat) :
  forall s, length s <= n -> ~ In LF s -> crlf_to_lf s = s.
Proof.
  induction n as [|n IH]; intros s Hn H.
  - destruct s; [reflexivity|simpl in Hn; lia].
  - destruct s as [|c [|d s]]; [reflexivity|reflexivity|].
    rewrite crlf_to_lf_cons2.
    assert (Hd : ch_eqb d LF = false).
    { apply ch_eqb_false. intros ->. apply H. right. left. reflexivity. }
    rewrite Hd, andb_false_r. f_equal.
    apply IH; [simpl in Hn |- *; lia|]. intros F. apply H. right. exact F.
Qed.

Lemma crlf_to_lf_no_cr (s : str) : ~ In CR s -> crlf_to_lf s = s.
Proof.
  induction s as [|c s IH]; intros H; [reflexivity|].
  destruct s as [|d s]; [reflexivity|].
  rewrite crlf_to_lf_cons2.
  assert (Hc : ch_eqb c CR = false).
  { apply ch_eqb_false. intros ->. apply H. left. reflexivity. }
  rewrite Hc. cbn [andb]. f_equal.
  apply IH. intros F. apply H. right. exact F.
Qed.

Lemma cr_to_lf_quiet (s : str) : ~ In CR s -> cr_to_lf s = s.
Proof.
  induction s as [|c s IH]; intros H; [reflexivity|].
  cbn [cr_to_lf map].
  assert (Hc : ch_eqb c CR = false).
  { apply ch_eqb_false. intros ->. apply H. left. reflexivity. }
  rewrite Hc. f_equal. apply IH. intros F. apply H. right. exact F.
Qed.

Lemma to_cr_no_lf (s : str) : ~ In LF (to_cr s).
Proof.
  unfold to_cr. intros H. apply in_map_iff in H. destruct H as (c & E & _).
  destruct (ch_eqb c LF) eqn:Ec; [discriminate E|].
  subst c. rewrite ch_eqb_refl in Ec. discriminate Ec.
Qed.

Lemma cr_to_lf_to_cr (s : str) : ~ In CR s -> cr_to_lf (to_cr s) = s.
Proof.
  induction s as [|c s IH]; intros H; [reflexivity|].
  assert (Hs : ~ In CR s) by (intros F; apply H; right; exact F).
  assert (Hc : ch_eqb c CR = false).
  { apply ch_eqb_false. intros ->. apply H. left. reflexivity. }
  cbn [to_cr cr_to_lf map]. fold (to_cr s). fold (cr_to_lf (to_cr s)).
  rewrite (IH Hs). destruct (ch_eqb c LF) eqn:E.
  - apply ch_eqb_true in E. subst c. reflexivity.
  - rewrite Hc. reflexivity.
Qed.

(** X14.  The three line endings give the same document: a text without
    carriage returns is parsed in the same way when each of its line feeds
    is written as a carriage return and a line feed, or as a carriage
    return. *)
Theorem parse_is_independent_of_line_endings :
  forall (options : Options) (DOMPurify : option (str -> list str -> str))
         (fuel : nat) (markdown : str),
    lacks [CR] markdown = true ->
    parse options DOMPurify fuel (to_crlf markdown)
    = parse options DOMPurify fuel markdown /\
    parse options DOMPurify fuel (to_cr markdown)
    = parse options DOMPurify fuel markdown.
Proof.
  intros options DOMPurify fuel markdown H.
  assert (Hn : ~ In CR markdown)
    by exact (lacks_not_In [CR] markdown CR H (or_introl eq_refl)).
  assert (L0 : lines_of markdown = split LF markdown).
  { rewrite lines_of_eq, (crlf_to_lf_no_cr markdown Hn), (cr_to_lf_quiet markdown Hn).
    reflexivity. }
  assert (L1 : lines_of (to_crlf markdown) = split LF markdown).
  { rewrite lines_of_eq, (crlf_to_lf_to_crlf markdown Hn), (cr_to_lf_quiet markdown Hn).
    reflexivity. }
  assert (L2 : lines_of (to_cr markdown) = split LF markdown).
  { rewrite lines_of_eq.
    rewrite (crlf_to_lf_no_lf (length (to_cr markdown)) (to_cr markdown) (le_n _))
      by apply to_cr_no_lf.
    rewrite (cr_to_lf_to_cr markdown Hn). reflexivity. }
  rewrite !parse_lines_of, L0, L1, L2. split.
  - destruct markdown as [|c s]; [reflexivity|].
    change (to_crlf (c :: s)) with ((if ch_eqb c LF then [CR; LF] else [c]) ++ to_crlf s).
    destruct (ch_eqb c LF); reflexivity.
  - destruct markdown; reflexivity.
Qed.

Lemma parse_is_independent_of_line_endings_witness :
  parse default_options None 5 (to_crlf (L "# a" ++ nl ++ L "b"))
  = parse default_options None 5 (L "# a" ++ nl ++ L "b") /\
  parse default_options None 5 (to_cr (L "# a" ++ nl ++ L "b"))
  = parse default_options None 5 (L "# a" ++ nl ++ L "b").
Proof.
  apply (parse_is_independent_of_line_endings default_options None 5
           (L "# a" ++ nl ++ L "b")).
  reflexivity.
Defined.

(** ** Blank documents *)

Lemma dispatcher_skips_blank_lines (lines : list str) :
  Forall (fun line => Forall (fun c => is_space c = true) line) lines ->
  forall fuel i, length lines - i < fuel -> processLines_loop fuel lines i [] = Ret [].
Proof.
  intros Hb. induction fuel as [|fuel IH]; intros i Hf; [lia|].
  cbn [processLines_loop].
  destruct (i <? length lines) eqn:E; [|reflexivity].
  apply Nat.ltb_lt in E.
  destruct (nth_error lines i) as [line|] eqn:En;
    [|apply nth_error_None in En; lia].
  assert (Hl : Forall (fun c => is_space c = true) line).
  { apply (proj1 (Forall_forall _ lines) Hb). exact (nth_error_In _ _ En). }
  rewrite (trim_blank line Hl). cbn [str_eqb length Nat.eqb andb].
  apply IH. lia.
Qed.

(** X15.  A document of white space only (blanks, tabs, line ends) gives the
    empty string: the block dispatcher passes over the blank lines at the
    start of a document without producing anything. *)
Theorem parse_of_white_space_is_empty :
  forall (options : Options) (fuel : nat) (markdown : str),
    Forall (fun c => is_space c = true) markdown ->
    length (lines_of markdown) < fuel ->
    processLines fuel (lines_of markdown) = Ret [] /\
    parse options None fuel markdown = Ret [].
Proof.
  intros options fuel markdown Hm Hf.
  assert (P : processLines fuel (lines_of markdown) = Ret []).
  { unfold processLines. apply dispatcher_skips_blank_lines; [|lia].
    rewrite lines_of_eq. apply Forall_forall. intros line Hl.
    apply Forall_forall. intros c Hc.
    destruct (split_go_In LF _ [] line c Hl Hc) as [[]|H].
    unfold cr_to_lf in H. apply in_map_iff in H. destruct H as (d & E & Hd).
    assert (Hd' : is_space d = true).
    { apply (proj1 (Forall_forall _ _)
                (crlf_to_lf_Forall (fun x => is_space x = true) (length markdown)
                   eq_refl markdown (le_n _) Hm)).
      exact Hd. }
    destruct (ch_eqb d CR); subst c; [reflexivity|exact Hd']. }
  split; [exact P|].
  rewrite parse_lines_of. destruct markdown; [reflexivity|].
  rewrite P. cbn [bind]. destruct (sanitizeHTML_option options); reflexivity.
Qed.

Lemma parse_of_white_space_is_empty_witness :
  processLines 4 (lines_of (L "  " ++ [CR; LF] ++ L " " ++ nl)) = Ret [] /\
  parse default_options None 4 (L "  " ++ [CR; LF] ++ L " " ++ nl) = Ret [].
Proof.
  apply (parse_of_white_space_is_empty default_options 4
           (L "  " ++ [CR; LF] ++ L " " ++ nl)).
  - repeat constructor.
  - vm_compute. lia.
Defined.

(* ================================================================== *)
(** ** The stages of the inline engine *)

(** The replacement of the matches of a text does not depend on the input
    the matcher is given nor on the replacer, as long as the pattern looks
    at neither and the replacers agree on what was matched and captured. *)
Lemma replace_st_congr {St : Type} (inp inp' : str) (r : regex)
    (f f' : St -> rmatch -> St * str) :
  (forall s, m inp r s = m inp' r s) ->
  (forall st x x', matched x = matched x' -> groups x = groups x' -> f st x = f' st x') ->
  forall s i i' skip st,
    replace_st inp r f i s skip st = replace_st inp' r f' i' s skip st.
Proof.
  intros Hm Hf. induction s as [|c s IH]; intros i i' skip st.
  - destruct skip; cbn [replace_st]; [|reflexivity].
    unfold match_here. rewrite Hm. destruct (m inp' r []) as [|x l]; [reflexivity|].
    rewrite (Hf st _ {| mindex := i'; matched := firstn (length (@nil ascii) - length (fst x)) [];
                        mrest := fst x; groups := snd x |}); reflexivity.
  - destruct skip as [|k]; cbn [replace_st]; [|apply IH].
    unfold match_here. rewrite Hm. destruct (m inp' r (c :: s)) as [|x l].
    + rewrite (IH (S i) (S i') 0 st). reflexivity.
    + rewrite (Hf st _ {| mindex := i';
                          matched := firstn (length (c :: s) - length (fst x)) (c :: s);
                          mrest := fst x; groups := snd x |}) by reflexivity.
      destruct (f' st _) as [st1 out]. cbn [matched].
      destruct (length (firstn (length (c :: s) - length (fst x)) (c :: s))) as [|k].
      * rewrite (IH (S i) (S i') 0 st1). reflexivity.
      * rewrite (IH (S i) (S i') k st1). reflexivity.
Qed.

(** The first replacement of a pattern that begins with the code unit [a]
    and does not look around the match: before it the text holds no [a]. *)
Lemma replace_fn_first (a : ascii) (r : regex) (f : rmatch -> str)
    (pre mt post : str) (c : caps) :
  (forall inp inp' s, m inp (Re.C a >> r) s = m inp' (Re.C a >> r) s) ->
  local f ->
  ~ In a pre ->
  (forall inp, hd_error (m inp (Re.C a >> r) (a :: mt ++ post)) = Some (post, c)) ->
  replace_fn (Re.C a >> r) f (pre ++ a :: mt ++ post)
  = pre ++ f {| mindex := 0; matched := a :: mt; mrest := post; groups := c |}
        ++ replace_fn (Re.C a >> r) f post.
Proof.
  intros Hm Hf Hpre Hhit. unfold replace_fn.
  set (text := pre ++ a :: mt ++ post). unfold text at 2.
  rewrite replace_st_prefix by (apply head_quiet_prefix; exact Hpre).
  cbn [snd].
  rewrite (replace_st_match text (Re.C a >> r) _ a mt post c _ _ (Hhit text)).
  cbv zeta. cbn [fst snd].
  rewrite (replace_st_congr text post (Re.C a >> r) _ (fun (_ : unit) x => (tt, f x))
             (Hm text post)) with (i' := 0).
  - f_equal. f_equal. apply Hf; reflexivity.
  - intros st x x' H1 H2. rewrite (Hf x x' H1 H2). reflexivity.
Qed.

(** ... of a replacement string. *)
Lemma replace_all_first (a : ascii) (r : regex) (template : str) (g : caps -> str)
    (pre mt post : str) (c : caps) :
  (forall inp inp' s, m inp (Re.C a >> r) s = m inp' (Re.C a >> r) s) ->
  (forall x inp, GetSubstitution x inp template = g (groups x)) ->
  ~ In a pre ->
  (forall inp, hd_error (m inp (Re.C a >> r) (a :: mt ++ post)) = Some (post, c)) ->
  replace_all (Re.C a >> r) template (pre ++ a :: mt ++ post)
  = pre ++ g c ++ replace_all (Re.C a >> r) template post.
Proof.
  intros Hm Hg Hpre Hhit. unfold replace_all, replace_fn.
  set (text := pre ++ a :: mt ++ post). unfold text at 3.
  rewrite replace_st_prefix by (apply head_quiet_prefix; exact Hpre).
  cbn [snd].
  rewrite (replace_st_match text (Re.C a >> r) _ a mt post c _ _ (Hhit text)).
  cbv zeta. cbn [fst snd]. rewrite Hg. cbn [groups].
  rewrite (replace_st_congr text post (Re.C a >> r) _
             (fun (_ : unit) x => (tt, GetSubstitution x post template))
             (Hm text post)) with (i' := 0).
  - reflexivity.
  - intros st x x' H1 H2. rewrite !Hg, H2. reflexivity.
Qed.

(** A run of a negated class up to the code unit it excludes. *)
Lemma m_grp_run (inp : str) (a : ascii) (lo : nat) (run rest : str) :
  lacks [a] run = true -> lo <= length run ->
  hd_error (m inp (Grp (Rep (not_ch a) lo None)) (run ++ a :: rest))
  = Some (a :: rest, [Some run]).
Proof.
  intros Hl Hlo.
  assert (G : hd_error (m inp (Rep (not_ch a) lo None) (run ++ a :: rest))
              = Some (a :: rest, [])).
  { apply m_rep_first.
    - apply Forall_forall. intros x Hx. apply not_ch_true. intros ->.
      exact (lacks_not_In [a] run a Hl (or_introl eq_refl) Hx).
    - simpl. unfold not_ch. rewrite ch_eqb_refl. reflexivity.
    - exact Hlo.
    - exact I. }
  apply m_grp_first in G. rewrite firstn_app_len in G. exact G.
Qed.

Lemma nonempty_length (s : str) : s <> [] -> 1 <= length s.
Proof. destruct s; [congruence|simpl; lia]. Qed.

(** The link pattern at [[], a text without []], [](], a target without
    [)] and [)]. *)
Lemma link_match (inp : str) (text url post : str) :
  text <> [] -> lacks (L "]") text = true ->
  url <> [] -> lacks (L ")") url = true ->
  hd_error (m inp Re.link ("["%char :: (text ++ L "](" ++ url ++ L ")") ++ post))
  = Some (post, [Some text; Some url]).
Proof.
  intros Ht Htl Hu Hul. unfold Re.link.
  repeat rewrite <- app_assoc. cbn [L list_ascii_of_string app].
  pose proof (m_grp_run inp "]"%char 1 text ("("%char :: url ++ ")"%char :: post)
                Htl (nonempty_length _ Ht)) as A1.
  pose proof (m_grp_run inp ")"%char 1 url post Hul (nonempty_length _ Hu)) as A2.
  pose proof (m_seq_first inp _ _ _ _ _ _ _ A2
                (m_cls_first inp (is_ch ")") ")"%char post eq_refl)) as A3.
  pose proof (m_seq_first inp _ _ _ _ _ _ _
                (m_cls_first inp (is_ch "(") "("%char _ eq_refl) A3) as A4.
  pose proof (m_seq_first inp _ _ _ _ _ _ _
                (m_cls_first inp (is_ch "]") "]"%char _ eq_refl) A4) as A5.
  pose proof (m_seq_first inp _ _ _ _ _ _ _ A1 A5) as A6.
  exact (m_seq_first inp _ _ _ _ _ _ _
           (m_cls_first inp (is_ch "[") "["%char _ eq_refl) A6).
Qed.

(** The image pattern at [![]; the text may be empty. *)
Lemma image_match (inp : str) (alt src post : str) :
  lacks (L "]") alt = true ->
  src <> [] -> lacks (L ")") src = true ->
  hd_error (m inp Re.image ("!"%char :: (L "[" ++ alt ++ L "](" ++ src ++ L ")") ++ post))
  = Some (post, [Some alt; Some src]).
Proof.
  intros Htl Hu Hul. unfold Re.image.
  repeat rewrite <- app_assoc. cbn [L list_ascii_of_string app].
  pose proof (m_grp_run inp "]"%char 0 alt ("("%char :: src ++ ")"%char :: post)
                Htl (Nat.le_0_l _)) as A1.
  pose proof (m_grp_run inp ")"%char 1 src post Hul (nonempty_length _ Hu)) as A2.
  pose proof (m_seq_first inp _ _ _ _ _ _ _ A2
                (m_cls_first inp (is_ch ")") ")"%char post eq_refl)) as A3.
  pose proof (m_seq_first inp _ _ _ _ _ _ _
                (m_cls_first inp (is_ch "(") "("%char _ eq_refl) A3) as A4.
  pose proof (m_seq_first inp _ _ _ _ _ _ _
                (m_cls_first inp (is_ch "]") "]"%char _ eq_refl) A4) as A5.
  pose proof (m_seq_first inp _ _ _ _ _ _ _ A1 A5) as A6.
  pose proof (m_seq_first inp _ _ _ _ _ _ _
                (m_cls_first inp (is_ch "[") "["%char _ eq_refl) A6) as A7.
  exact (m_seq_first inp _ _ _ _ _ _ _
           (m_cls_first inp (is_ch "!") "!"%char _ eq_refl) A7).
Qed.

Lemma processLinks_step (pre text url post : str) :
  lacks (L "[") pre = true ->
  text <> [] -> lacks (L "]") text = true ->
  url <> [] -> lacks (L ")") url = true ->
  processLinks (pre ++ L "[" ++ text ++ L "](" ++ url ++ L ")" ++ post)
  = pre ++ link_html text url ++ processLinks post.
Proof.
  intros Hpre Ht Htl Hu Hul. unfold processLinks, Re.link.
  replace (pre ++ L "[" ++ text ++ L "](" ++ url ++ L ")" ++ post)
    with (pre ++ "["%char :: (text ++ L "](" ++ url ++ L ")") ++ post)
    by (repeat rewrite <- app_assoc; reflexivity).
  rewrite (replace_fn_first "["%char _ _ pre _ post [Some text; Some url]).
  - reflexivity.
  - intros inp inp' s. reflexivity.
  - intros x x' _ Hg. unfold group_str, group. rewrite Hg. reflexivity.
  - exact (lacks_not_In _ _ "["%char Hpre (or_introl eq_refl)).
  - intros inp. exact (link_match inp text url post Ht Htl Hu Hul).
Qed.

Lemma processImages_step (pre alt src post : str) :
  lacks (L "!") pre = true ->
  lacks (L "]") alt = true ->
  src <> [] -> lacks (L ")") src = true ->
  processImages (pre ++ L "![" ++ alt ++ L "](" ++ src ++ L ")" ++ post)
  = pre ++ image_html alt src ++ processImages post.
Proof.
  intros Hpre Htl Hu Hul. unfold processImages, Re.image.
  replace (pre ++ L "![" ++ alt ++ L "](" ++ src ++ L ")" ++ post)
    with (pre ++ "!"%char :: (L "[" ++ alt ++ L "](" ++ src ++ L ")") ++ post)
    by (repeat rewrite <- app_assoc; reflexivity).
  rewrite (replace_fn_first "!"%char _ _ pre _ post [Some alt; Some src]).
  - reflexivity.
  - intros inp inp' s. reflexivity.
  - intros x x' _ Hg. unfold group_str, group. rewrite Hg. reflexivity.
  - exact (lacks_not_In _ _ "!"%char Hpre (or_introl eq_refl)).
  - intros inp. exact (image_match inp alt src post Htl Hu Hul).
Qed.

(** The guard of processInlineElements changes nothing: the stages map
    the empty string to itself. *)
Lemma processInlineElements_stages (text : str) :
  processInlineElements text
  = processInlineHTML
      (processStrikethrough
         (processBoldItalic (processLinks (processImages (processInlineCode text))))).
Proof. destruct text; reflexivity. Qed.

(** *** Texts the later stages leave alone *)

Lemma no_tag_start_plain (s : str) : lacks (L "<") s = true -> no_tag_start s = true.
Proof.
  intros H. rewrite <- (app_nil_r s). rewrite no_tag_start_app_plain by exact H.
  reflexivity.
Qed.

(** A piece of markup that is free of tag starts and does not end with
    [<] can be passed over. *)
Lemma no_tag_start_const (k : str) (x : ascii) (s : str) :
  no_tag_start (k ++ [x]) = true -> x <> "<"%char ->
  no_tag_start (k ++ x :: s) = no_tag_start s.
Proof.
  intros Hk Hx. apply ch_eqb_false in Hx.
  induction k as [|y k IH].
  - cbn [app no_tag_start]. rewrite Hx. reflexivity.
  - cbn [app no_tag_start] in Hk |- *.
    apply andb_prop in Hk. destruct Hk as [H1 H2].
    rewrite (IH H2).
    destruct k as [|z k]; cbn [app] in H1 |- *; rewrite H1; reflexivity.
Qed.

Lemma emphasis_stages_quiet (text : str) :
  lacks (L "*_~") text = true -> no_tag_start text = true ->
  processInlineHTML (processStrikethrough (processBoldItalic text)) = text.
Proof.
  intros H Ht.
  assert (Hn : forall a, In a (L "*_~") -> ~ In a text)
    by (intros a; apply lacks_not_In; exact H).
  unfold processBoldItalic, processStrikethrough, Re.pair2, Re.pair1. cbv zeta.
  do 5 (rewrite (replace_all_quiet _ _ text)
         by (apply quiet_head; apply Hn; simpl; auto)).
  apply processInlineHTML_quiet. exact Ht.
Qed.

Ltac lacks_of_hyp :=
  match goal with
  | H : lacks ?cs ?s = true |- lacks ?cs' ?s = true =>
      apply (lacks_sub cs cs' s); [simpl; tauto|exact H]
  end.

Ltac lacks_pieces :=
  repeat rewrite lacks_app;
  repeat (apply andb_true_intro; split);
  first [ reflexivity
        | lacks_of_hyp
        | apply lacks_escapeHTML; [reflexivity|lacks_of_hyp] ].

Lemma escapeHTML_plain (s : str) : lacks (L "<") (escapeHTML s) = true.
Proof.
  apply (lacks_sub ("<"%char :: ">"%char :: [NBSP])); [simpl; tauto|].
  induction s as [|c s IH]; [reflexivity|].
  rewrite escapeHTML_cons, lacks_app, escape_char_safe, IH. reflexivity.
Qed.

Lemma DQ_not_lt : DQ <> "<"%char.
Proof. intros H. vm_compute in H. discriminate H. Qed.

Lemma link_html_inert (pre text url post : str) :
  lacks (L "*_~<") pre = true -> lacks (L "*_~") text = true ->
  lacks (L "*_~") url = true -> lacks (L "*_~<") post = true ->
  processInlineHTML
    (processStrikethrough (processBoldItalic (pre ++ link_html text url ++ post)))
  = pre ++ link_html text url ++ post.
Proof.
  intros Hpre Ht Hu Hpost. apply emphasis_stages_quiet.
  - unfold link_html. lacks_pieces.
  - rewrite no_tag_start_app_plain by lacks_of_hyp.
    unfold link_html. repeat rewrite <- app_assoc.
    change (L "<a href=" ++ [DQ] ++ escapeHTML url ++ [DQ] ++ L ">" ++ escapeHTML text
              ++ L "</a>" ++ post)
      with (L "<a href=" ++ DQ :: escapeHTML url ++ [DQ] ++ ">"%char :: escapeHTML text
              ++ L "</a" ++ ">"%char :: post).
    rewrite no_tag_start_const by (reflexivity || exact DQ_not_lt).
    rewrite no_tag_start_app_plain by apply escapeHTML_plain.
    rewrite no_tag_start_const by (reflexivity || discriminate).
    rewrite no_tag_start_app_plain by apply escapeHTML_plain.
    rewrite no_tag_start_const by (reflexivity || discriminate).
    apply no_tag_start_plain. lacks_of_hyp.
Qed.

Lemma image_html_inert (pre alt src post : str) :
  lacks (L "*_~<") pre = true -> lacks (L "*_~") alt = true ->
  lacks (L "*_~") src = true -> lacks (L "*_~<") post = true ->
  processInlineHTML
    (processStrikethrough (processBoldItalic (pre ++ image_html alt src ++ post)))
  = pre ++ image_html alt src ++ post.
Proof.
  intros Hpre Ht Hu Hpost. apply emphasis_stages_quiet.
  - unfold image_html. lacks_pieces.
  - rewrite no_tag_start_app_plain by lacks_of_hyp.
    unfold image_html. repeat rewrite <- app_assoc.
    change (L "<img src=" ++ [DQ] ++ escapeHTML src ++ [DQ] ++ L " alt=" ++ [DQ]
              ++ escapeHTML alt ++ [DQ] ++ L ">" ++ post)
      with (L "<img src=" ++ DQ :: escapeHTML src ++ (DQ :: L " alt=") ++ DQ
              :: escapeHTML alt ++ [DQ] ++ ">"%char :: post).
    rewrite no_tag_start_const by (reflexivity || exact DQ_not_lt).
    rewrite no_tag_start_app_plain by apply escapeHTML_plain.
    rewrite no_tag_start_const by (reflexivity || exact DQ_not_lt).
    rewrite no_tag_start_app_plain by apply escapeHTML_plain.
    rewrite no_tag_start_const by (reflexivity || discriminate).
    apply no_tag_start_plain. lacks_of_hyp.
Qed.

(** X16.  processLinks at the first link of a text: [[], a text without []],
    [](], a target without [)], and [)] become an anchor whose [href] is
    the target and whose content is the text, both escaped by [escapeHTML]
    (which leaves double quotes as they are); the target is not looked at
    otherwise, and the stage goes on behind the link.  When the text, the
    target and what stands around hold no delimiter of another stage, the
    inline engine returns the text with the anchor in place of the
    link. *)
Theorem processLinks_rewrites_the_first_link :
  forall (pre text url post : str),
    lacks (L "[") pre = true ->
    text <> [] -> lacks (L "]") text = true ->
    url <> [] -> lacks (L ")") url = true ->
    processLinks (pre ++ L "[" ++ text ++ L "](" ++ url ++ L ")" ++ post)
    = pre ++ link_html text url ++ processLinks post /\
    (lacks (L "`!*_~<") pre = true ->
     lacks (L "`!*_~[") text = true ->
     lacks (L "`!*_~[") url = true ->
     lacks (L "`!*_~[<") post = true ->
     processInlineElements (pre ++ L "[" ++ text ++ L "](" ++ url ++ L ")" ++ post)
     = pre ++ link_html text url ++ post).
Proof.
  intros pre text url post Hpre Ht Htl Hu Hul. split.
  - apply processLinks_step; assumption.
  - intros Ipre Itext Iurl Ipost.
    set (whole := pre ++ L "[" ++ text ++ L "](" ++ url ++ L ")" ++ post).
    assert (Hw : forall cs, (forall a, In a cs -> In a (L "`!")) -> lacks cs whole = true).
    { intros cs Hcs. unfold whole.
      assert (A1 : lacks cs pre = true)
        by (apply (lacks_sub (L "`!*_~<")); [intros a Ha; apply Hcs in Ha; simpl in *; tauto|exact Ipre]).
      assert (A2 : lacks cs text = true)
        by (apply (lacks_sub (L "`!*_~[")); [intros a Ha; apply Hcs in Ha; simpl in *; tauto|exact Itext]).
      assert (A3 : lacks cs url = true)
        by (apply (lacks_sub (L "`!*_~[")); [intros a Ha; apply Hcs in Ha; simpl in *; tauto|exact Iurl]).
      assert (A4 : lacks cs post = true)
        by (apply (lacks_sub (L "`!*_~[<")); [intros a Ha; apply Hcs in Ha; simpl in *; tauto|exact Ipost]).
      assert (A5 : forall k, lacks (L "`!") k = true -> lacks cs k = true)
        by (intros k; apply lacks_sub; exact Hcs).
      rewrite !lacks_app, A1, A2, A3, A4, !A5; reflexivity. }
    rewrite processInlineElements_stages. fold whole.
    unfold processInlineCode.
    rewrite (replace_fn_quiet _ _ whole)
      by (apply quiet_code_span, Hw; simpl; tauto).
    unfold processImages.
    rewrite (replace_fn_quiet _ _ whole)
      by (apply (quiet_head "!"%char);
          exact (lacks_not_In _ _ "!"%char (Hw (L "!") ltac:(simpl; tauto))
                   (or_introl eq_refl))).
    fold (processLinks whole). unfold whole.
    rewrite (processLinks_step pre text url post Hpre Ht Htl Hu Hul).
    unfold processLinks at 1.
    rewrite (replace_fn_quiet _ _ post) by (apply quiet_link; lacks_of_hyp).
    apply link_html_inert; lacks_of_hyp.
Qed.

Lemma processLinks_rewrites_the_first_link_witness :
  processLinks (L "see [the <b> site](https://a.b/?x=1&y=" ++ [DQ] ++ L "2) or [c](d)")
  = L "see " ++ link_html (L "the <b> site") (L "https://a.b/?x=1&y=" ++ [DQ] ++ L "2")
      ++ processLinks (L " or [c](d)") /\
  processInlineElements (L "see [the <b> site](javascript:alert(1)) now")
  = L "see " ++ link_html (L "the <b> site") (L "javascript:alert(1") ++ L ") now".
Proof.
  split.
  - apply (proj1 (processLinks_rewrites_the_first_link
                    (L "see ") (L "the <b> site") (L "https://a.b/?x=1&y=" ++ [DQ] ++ L "2")
                    (L " or [c](d)") eq_refl ltac:(discriminate) eq_refl
                    ltac:(discriminate) eq_refl)).
  - apply (proj2 (processLinks_rewrites_the_first_link
                    (L "see ") (L "the <b> site") (L "javascript:alert(1")
                    (L ") now") eq_refl ltac:(discriminate) eq_refl
                    ltac:(discriminate) eq_refl)); reflexivity.
Defined.

(** X17.  processImages at the first image of a text: [![], an alternative text
    without []] (it may be empty), [](], a source without [)], and [)]
    become an [img] element with the source and the alternative text
    escaped by [escapeHTML]; the stage goes on behind the image.  Images
    are rewritten before links, so the inline engine makes no anchor of
    the bracket part of an image. *)
Theorem processImages_rewrites_the_first_image :
  forall (pre alt src post : str),
    lacks (L "!") pre = true ->
    lacks (L "]") alt = true ->
    src <> [] -> lacks (L ")") src = true ->
    processImages (pre ++ L "![" ++ alt ++ L "](" ++ src ++ L ")" ++ post)
    = pre ++ image_html alt src ++ processImages post /\
    (lacks (L "`*_~[<") pre = true ->
     lacks (L "`*_~[") alt = true ->
     lacks (L "`*_~[") src = true ->
     lacks (L "`!*_~[<") post = true ->
     processInlineElements (pre ++ L "![" ++ alt ++ L "](" ++ src ++ L ")" ++ post)
     = pre ++ image_html alt src ++ post).
Proof.
  intros pre alt src post Hpre Htl Hu Hul. split.
  - apply processImages_step; assumption.
  - intros Ipre Ialt Isrc Ipost.
    set (whole := pre ++ L "![" ++ alt ++ L "](" ++ src ++ L ")" ++ post).
    rewrite processInlineElements_stages. fold whole.
    unfold processInlineCode.
    rewrite (replace_fn_quiet _ _ whole)
      by (apply quiet_code_span; unfold whole; lacks_pieces).
    fold (processImages whole). unfold whole.
    rewrite (processImages_step pre alt src post Hpre Htl Hu Hul).
    unfold processImages at 1.
    rewrite (replace_fn_quiet _ _ post)
      by (apply (quiet_head "!"%char);
          exact (lacks_not_In _ _ "!"%char Ipost (or_intror (or_introl eq_refl)))).
    unfold processLinks.
    rewrite (replace_fn_quiet _ _ (pre ++ image_html alt src ++ post))
      by (apply quiet_link; unfold image_html; lacks_pieces).
    apply image_html_inert; lacks_of_hyp.
Qed.

Lemma processImages_rewrites_the_first_image_witness :
  processImages (L "a ![](x.png) and ![b](y)")
  = L "a " ++ image_html [] (L "x.png") ++ processImages (L " and ![b](y)") /\
  processInlineElements (L "a ![logo](x.png) b")
  = L "a " ++ image_html (L "logo") (L "x.png") ++ L " b".
Proof.
  split.
  - apply (proj1 (processImages_rewrites_the_first_image
                    (L "a ") [] (L "x.png") (L " and ![b](y)") eq_refl eq_refl
                    ltac:(discriminate) eq_refl)).
  - apply (proj2 (processImages_rewrites_the_first_image
                    (L "a ") (L "logo") (L "x.png") (L " b") eq_refl eq_refl
                    ltac:(discriminate) eq_refl)); reflexivity.
Defined.

(** *** Emphasis *)

Lemma no_double_cons (a x : ascii) (s : str) :
  x <> a -> no_double a (x :: s) = no_double a s.
Proof.
  intros H. apply ch_eqb_false in H. destruct s as [|y s]; [reflexivity|].
  cbn [no_double]. rewrite H. reflexivity.
Qed.

Lemma no_double_cons2 (a x y : ascii) (s : str) :
  no_double a (x :: y :: s)
  = negb (ch_eqb x a && ch_eqb y a) && no_double a (y :: s).
Proof. reflexivity. Qed.

Lemma lacks_one_cons (a x : ascii) (s : str) :
  lacks [a] (x :: s) = true -> x <> a /\ lacks [a] s = true.
Proof.
  intros H. simpl in H. apply andb_prop in H. destruct H as [H1 H2].
  rewrite orb_false_r in H1. apply negb_true_iff in H1. apply ch_eqb_false in H1.
  split; assumption.
Qed.

Lemma no_double_app_lacks (a : ascii) (p s : str) :
  lacks [a] p = true -> no_double a (p ++ s) = no_double a s.
Proof.
  induction p as [|x p IH]; intros H; [reflexivity|].
  apply lacks_one_cons in H. destruct H as [Hx Hp].
  cbn [app]. rewrite (no_double_cons a x _ Hx). exact (IH Hp).
Qed.

Lemma no_double_single (a : ascii) (pre c post : str) :
  lacks [a] pre = true -> c <> [] -> lacks [a] c = true -> lacks [a] post = true ->
  no_double a (pre ++ a :: c ++ a :: post) = true.
Proof.
  intros Hpre Hc Hcl Hpost.
  rewrite (no_double_app_lacks a pre _ Hpre).
  destruct c as [|y c]; [congruence|].
  destruct (lacks_one_cons a y c Hcl) as [Hy _].
  cbn [app]. rewrite no_double_cons2.
  apply ch_eqb_false in Hy. rewrite Hy, andb_false_r. cbn [negb andb].
  change (y :: c ++ a :: post) with ((y :: c) ++ a :: post).
  rewrite (no_double_app_lacks a (y :: c) _ Hcl).
  destruct post as [|z post]; [reflexivity|].
  destruct (lacks_one_cons a z post Hpost) as [Hz Hp].
  rewrite no_double_cons2.
  apply ch_eqb_false in Hz. rewrite Hz, andb_false_r. cbn [negb andb].
  rewrite <- (app_nil_r (z :: post)).
  apply (no_double_app_lacks a (z :: post) [] Hpost).
Qed.

Lemma no_double_suffix (a : ascii) (pre t : str) :
  no_double a (pre ++ t) = true -> no_double a t = true.
Proof.
  induction pre as [|x pre IH]; intros H; [exact H|].
  apply IH. cbn [app no_double] in H.
  destruct (pre ++ t) as [|y l]; [reflexivity|].
  apply andb_prop in H. exact (proj2 H).
Qed.

(** A pattern that begins with the same code unit twice is quiet where
    no two of them stand side by side. *)
Lemma quiet_double (a : ascii) (r : regex) (text : str) :
  no_double a text = true -> quiet (Re.C a >> Re.C a >> r) text.
Proof.
  intros H inp pre t E. subst text. apply no_double_suffix in H.
  destruct t as [|x t]; [reflexivity|].
  destruct (ascii_dec x a) as [->|Hx]; [|apply m_head_none; exact Hx].
  destruct t as [|y t].
  - apply m_seq_none. intros s1 c1 H1.
    apply m_cls_In in H1. destruct H1 as (x' & E' & _). injection E' as _ <-.
    reflexivity.
  - rewrite no_double_cons2, ch_eqb_refl in H. cbn [andb] in H.
    apply andb_prop in H. destruct H as [Hy _].
    apply negb_true_iff in Hy. apply ch_eqb_false in Hy.
    apply m_seq_none. intros s1 c1 H1.
    apply m_cls_In in H1. destruct H1 as (x' & E' & _). injection E' as _ <-.
    apply m_head_none. exact Hy.
Qed.

(** The patterns of the emphasis stages at their delimiters around a
    content without the delimiter. *)
Lemma pair1_match (inp : str) (a : ascii) (c post : str) :
  c <> [] -> lacks [a] c = true ->
  hd_error (m inp (Re.pair1 a) (a :: (c ++ [a]) ++ post)) = Some (post, [Some c]).
Proof.
  intros Hc Hl. unfold Re.pair1. rewrite <- app_assoc. cbn [app].
  pose proof (m_grp_run inp a 1 c post Hl (nonempty_length _ Hc)) as A1.
  pose proof (m_seq_first inp _ _ _ _ _ _ _ A1
                (m_cls_first inp (is_ch a) a post (ch_eqb_refl a))) as A2.
  exact (m_seq_first inp _ _ _ _ _ _ _
           (m_cls_first inp (is_ch a) a _ (ch_eqb_refl a)) A2).
Qed.

Lemma pair2_match (inp : str) (a : ascii) (c post : str) :
  c <> [] -> lacks [a] c = true ->
  hd_error (m inp (Re.pair2 a) (a :: (a :: c ++ [a; a]) ++ post)) = Some (post, [Some c]).
Proof.
  intros Hc Hl. unfold Re.pair2.
  cbn [app]. rewrite <- app_assoc. cbn [app].
  pose proof (m_grp_run inp a 1 c (a :: post) Hl (nonempty_length _ Hc)) as A1.
  pose proof (m_seq_first inp _ _ _ _ _ _ _
                (m_cls_first inp (is_ch a) a (a :: post) (ch_eqb_refl a))
                (m_cls_first inp (is_ch a) a post (ch_eqb_refl a))) as A2.
  pose proof (m_seq_first inp _ _ _ _ _ _ _ A1 A2) as A3.
  pose proof (m_seq_first inp _ _ _ _ _ _ _
                (m_cls_first inp (is_ch a) a _ (ch_eqb_refl a)) A3) as A4.
  exact (m_seq_first inp _ _ _ _ _ _ _
           (m_cls_first inp (is_ch a) a _ (ch_eqb_refl a)) A4).
Qed.

Lemma replace_pair2 (a : ascii) (opening closing : str) (template : str)
    (pre c post : str) :
  (forall x inp, GetSubstitution x inp template = wrap opening closing (groups x)) ->
  lacks [a] pre = true -> c <> [] -> lacks [a] c = true ->
  replace_all (Re.pair2 a) template (pre ++ [a; a] ++ c ++ [a; a] ++ post)
  = pre ++ opening ++ c ++ closing ++ replace_all (Re.pair2 a) template post.
Proof.
  intros Hg Hpre Hc Hl.
  replace (pre ++ [a; a] ++ c ++ [a; a] ++ post)
    with (pre ++ a :: (a :: c ++ [a; a]) ++ post)
    by (cbn [app]; repeat rewrite <- app_assoc; reflexivity).
  unfold Re.pair2.
  rewrite (replace_all_first a _ template (wrap opening closing) pre _ post [Some c]).
  - unfold wrap. cbn [length Nat.leb nth]. repeat rewrite <- app_assoc. reflexivity.
  - intros inp inp' s. reflexivity.
  - exact Hg.
  - exact (lacks_not_In _ _ a Hpre (or_introl eq_refl)).
  - intros inp. exact (pair2_match inp a c post Hc Hl).
Qed.

Lemma replace_pair1 (a : ascii) (opening closing : str) (template : str)
    (pre c post : str) :
  (forall x inp, GetSubstitution x inp template = wrap opening closing (groups x)) ->
  lacks [a] pre = true -> c <> [] -> lacks [a] c = true ->
  replace_all (Re.pair1 a) template (pre ++ [a] ++ c ++ [a] ++ post)
  = pre ++ opening ++ c ++ closing ++ replace_all (Re.pair1 a) template post.
Proof.
  intros Hg Hpre Hc Hl.
  replace (pre ++ [a] ++ c ++ [a] ++ post)
    with (pre ++ a :: (c ++ [a]) ++ post)
    by (cbn [app]; repeat rewrite <- app_assoc; reflexivity).
  unfold Re.pair1.
  rewrite (replace_all_first a _ template (wrap opening closing) pre _ post [Some c]).
  - unfold wrap. cbn [length Nat.leb nth]. repeat rewrite <- app_assoc. reflexivity.
  - intros inp inp' s. reflexivity.
  - exact Hg.
  - exact (lacks_not_In _ _ a Hpre (or_introl eq_refl)).
  - intros inp. exact (pair1_match inp a c post Hc Hl).
Qed.

Lemma template_strong (x : rmatch) (inp : str) :
  GetSubstitution x inp (L "<strong>$1</strong>")
  = wrap (L "<strong>") (L "</strong>") (groups x).
Proof. reflexivity. Qed.

Lemma template_em (x : rmatch) (inp : str) :
  GetSubstitution x inp (L "<em>$1</em>") = wrap (L "<em>") (L "</em>") (groups x).
Proof. reflexivity. Qed.

Lemma template_del (x : rmatch) (inp : str) :
  GetSubstitution x inp (L "<del>$1</del>") = wrap (L "<del>") (L "</del>") (groups x).
Proof. reflexivity. Qed.

Lemma quiet_pair2 (a : ascii) (text : str) : ~ In a text -> quiet (Re.pair2 a) text.
Proof. apply quiet_head. Qed.

Lemma quiet_pair1 (a : ascii) (text : str) : ~ In a text -> quiet (Re.pair1 a) text.
Proof. apply quiet_head. Qed.

Ltac absent cs :=
  match goal with
  | |- ~ In ?a ?s => apply (lacks_not_In cs s a); [lacks_pieces|simpl; tauto]
  end.

(** X18.  processBoldItalic on one pair of delimiters, in a text that holds no
    other [*] or [_]: the content between [**] and [**] or between [__]
    and [__] is put in a [strong] element, the content between [*] and
    [*] or between [_] and [_] in an [em] element; the content is copied
    as it is, not escaped, and an underscore inside a word counts as a
    delimiter. *)
Theorem processBoldItalic_rewrites_a_pair :
  forall (pre c post : str),
    lacks (L "*_") pre = true ->
    c <> [] -> lacks (L "*_") c = true ->
    lacks (L "*_") post = true ->
    processBoldItalic (pre ++ L "**" ++ c ++ L "**" ++ post)
    = pre ++ L "<strong>" ++ c ++ L "</strong>" ++ post /\
    processBoldItalic (pre ++ L "__" ++ c ++ L "__" ++ post)
    = pre ++ L "<strong>" ++ c ++ L "</strong>" ++ post /\
    processBoldItalic (pre ++ L "*" ++ c ++ L "*" ++ post)
    = pre ++ L "<em>" ++ c ++ L "</em>" ++ post /\
    processBoldItalic (pre ++ L "_" ++ c ++ L "_" ++ post)
    = pre ++ L "<em>" ++ c ++ L "</em>" ++ post.
Proof.
  intros pre c post Hpre Hc Hcl Hpost.
  assert (P1 : forall a, In a (L "*_") -> lacks [a] pre = true)
    by (intros a Ha; apply (lacks_sub (L "*_")); [intros b [<-|[]]; exact Ha|exact Hpre]).
  assert (C1 : forall a, In a (L "*_") -> lacks [a] c = true)
    by (intros a Ha; apply (lacks_sub (L "*_")); [intros b [<-|[]]; exact Ha|exact Hcl]).
  assert (Q1 : forall a, In a (L "*_") -> lacks [a] post = true)
    by (intros a Ha; apply (lacks_sub (L "*_")); [intros b [<-|[]]; exact Ha|exact Hpost]).
  assert (Star : In "*"%char (L "*_")) by (simpl; tauto).
  assert (Under : In "_"%char (L "*_")) by (simpl; tauto).
  unfold processBoldItalic. cbv zeta. repeat split.
  - change (L "**") with ["*"%char; "*"%char].
    rewrite (replace_pair2 "*" _ _ _ pre c post template_strong
               (P1 _ Star) Hc (C1 _ Star)).
    rewrite (replace_all_quiet _ _ post) by (apply quiet_pair2; absent (L "*_")).
    set (out := pre ++ L "<strong>" ++ c ++ L "</strong>" ++ post).
    rewrite (replace_all_quiet _ _ out)
      by (apply quiet_pair2; unfold out; absent (L "*_")).
    rewrite (replace_all_quiet _ _ out)
      by (apply quiet_pair1; unfold out; absent (L "*_")).
    apply replace_all_quiet. apply quiet_pair1. unfold out. absent (L "*_").
  - set (text := pre ++ L "__" ++ c ++ L "__" ++ post).
    rewrite (replace_all_quiet _ _ text)
      by (apply quiet_pair2; unfold text; absent (L "*")).
    unfold text. change (L "__") with ["_"%char; "_"%char].
    rewrite (replace_pair2 "_" _ _ _ pre c post template_strong
               (P1 _ Under) Hc (C1 _ Under)).
    rewrite (replace_all_quiet _ _ post) by (apply quiet_pair2; absent (L "*_")).
    set (out := pre ++ L "<strong>" ++ c ++ L "</strong>" ++ post).
    rewrite (replace_all_quiet _ _ out)
      by (apply quiet_pair1; unfold out; absent (L "*_")).
    apply replace_all_quiet. apply quiet_pair1. unfold out. absent (L "*_").
  - set (text := pre ++ L "*" ++ c ++ L "*" ++ post).
    rewrite (replace_all_quiet _ _ text)
      by (apply quiet_double;
          exact (no_double_single "*" pre c post (P1 _ Star) Hc (C1 _ Star) (Q1 _ Star))).
    rewrite (replace_all_quiet _ _ text)
      by (apply quiet_pair2; unfold text; absent (L "_")).
    unfold text. change (L "*") with ["*"%char].
    rewrite (replace_pair1 "*" _ _ _ pre c post template_em
               (P1 _ Star) Hc (C1 _ Star)).
    rewrite (replace_all_quiet _ _ post) by (apply quiet_pair1; absent (L "*_")).
    apply replace_all_quiet. apply quiet_pair1. absent (L "*_").
  - set (text := pre ++ L "_" ++ c ++ L "_" ++ post).
    rewrite (replace_all_quiet _ _ text)
      by (apply quiet_pair2; unfold text; absent (L "*")).
    rewrite (replace_all_quiet _ _ text)
      by (apply quiet_double;
          exact (no_double_single "_" pre c post (P1 _ Under) Hc (C1 _ Under)
                   (Q1 _ Under))).
    rewrite (replace_all_quiet _ _ text)
      by (apply quiet_pair1; unfold text; absent (L "*")).
    unfold text. change (L "_") with ["_"%char].
    rewrite (replace_pair1 "_" _ _ _ pre c post template_em
               (P1 _ Under) Hc (C1 _ Under)).
    rewrite (replace_all_quiet _ _ post) by (apply quiet_pair1; absent (L "*_")).
    reflexivity.
Qed.

Lemma processBoldItalic_rewrites_a_pair_witness :
  processBoldItalic (L "a **<b>** c") = L "a <strong><b></strong> c" /\
  processBoldItalic (L "a __<b>__ c") = L "a <strong><b></strong> c" /\
  processBoldItalic (L "a *<b>* c") = L "a <em><b></em> c" /\
  processBoldItalic (L "snake_case_name") = L "snake<em>case</em>name".
Proof.
  destruct (processBoldItalic_rewrites_a_pair (L "a ") (L "<b>") (L " c")
              eq_refl ltac:(discriminate) eq_refl eq_refl) as (H1 & H2 & H3 & _).
  destruct (processBoldItalic_rewrites_a_pair (L "snake") (L "case") (L "name")
              eq_refl ltac:(discriminate) eq_refl eq_refl) as (_ & _ & _ & H4).
  repeat split; assumption.
Defined.

(** X19.  processStrikethrough at the first pair of [~~] around a content
    without [~]: the content is put in a [del] element as it is, and the
    stage goes on behind it. *)
Theorem processStrikethrough_rewrites_the_first_pair :
  forall (pre c post : str),
    lacks (L "~") pre = true -> c <> [] -> lacks (L "~") c = true ->
    processStrikethrough (pre ++ L "~~" ++ c ++ L "~~" ++ post)
    = pre ++ L "<del>" ++ c ++ L "</del>" ++ processStrikethrough post.
Proof.
  intros pre c post Hpre Hc Hcl. unfold processStrikethrough.
  change (L "~~") with ["~"%char; "~"%char].
  exact (replace_pair2 "~" _ _ _ pre c post template_del Hpre Hc Hcl).
Qed.

Lemma processStrikethrough_rewrites_the_first_pair_witness :
  processStrikethrough (L "a ~~b & c~~ d ~~e~~")
  = L "a <del>b & c</del>" ++ processStrikethrough (L " d ~~e~~").
Proof.
  apply (processStrikethrough_rewrites_the_first_pair (L "a ") (L "b & c") (L " d ~~e~~")
           eq_refl ltac:(discriminate) eq_refl).
Defined.

(* ================================================================== *)
(** ** processInlineHTML *)





Lemma is_ch_eq (a x : ascii) : is_ch a x = true -> x = a.
Proof. unfold is_ch. apply ch_eqb_true. Qed.












(* ================================================================== *)
(** ** Text that reaches the output as it is *)

Lemma inline_plain (text : str) :
  lacks (L "`*_~[") text = true -> no_tag_start text = true ->
  processInlineElements text = text.
Proof.
  intros H Ht. rewrite processInlineElements_stages. unfold processInlineCode.
  rewrite (replace_fn_quiet _ _ text) by (apply quiet_code_span; lacks_of_hyp).
  apply later_stages_quiet; [lacks_of_hyp|exact Ht].
Qed.

(** The script pattern is quiet where no [<] is followed by the first
    letter of its tag. *)
Lemma script_head_none (inp : str) (t : str) :
  no_tag_start t = true -> m inp Re.script t = [].
Proof.
  intros Ht. unfold Re.script. apply m_seq_nil_l.
  destruct t as [|c t]; [reflexivity|].
  change (L "<script") with ("<"%char :: L "script").
  cbn [LitI]. apply m_seq_none. intros s1 c1 Hin.
  apply m_cls_In in Hin. destruct Hin as (x & [= <- <-] & Hx).
  apply is_ch_i_lt in Hx. subst c.
  cbn [no_tag_start] in Ht. apply andb_true_iff in Ht. destruct Ht as [Ht _].
  apply negb_true_iff in Ht. rewrite ch_eqb_refl in Ht. cbn [andb] in Ht.
  destruct t as [|y t]; [reflexivity|].
  apply LitI_cons_none. apply not_true_is_false. intros Hi.
  apply (is_ch_i_tag "s" y) in Hi; [congruence|simpl; auto].
Qed.

Lemma no_tag_start_tail (pre t : str) :
  no_tag_start (pre ++ t) = true -> no_tag_start t = true.
Proof.
  induction pre as [|c pre IH]; intros H; [exact H|].
  apply IH. cbn [app no_tag_start] in H. apply andb_true_iff in H. tauto.
Qed.


Lemma quiet_script (text : str) : no_tag_start text = true -> quiet Re.script text.
Proof.
  intros H inp pre t E. subst text. apply script_head_none.
  exact (no_tag_start_tail pre t H).
Qed.

Lemma split_plain (sep : ascii) (s : str) : ~ In sep s -> split sep s = [s].
Proof.
  intros H. unfold split. rewrite <- (app_nil_r s) at 1.
  rewrite split_go_piece by exact H. reflexivity.
Qed.

Lemma lines_of_one (line : str) :
  lacks [CR; LF] line = true -> lines_of line = [line].
Proof.
  intros H.
  assert (Hcr : ~ In CR line) by (apply (lacks_not_In _ _ CR H); simpl; auto).
  assert (Hlf : ~ In LF line) by (apply (lacks_not_In _ _ LF H); simpl; auto).
  rewrite lines_of_eq, (crlf_to_lf_no_cr line Hcr), (cr_to_lf_quiet line Hcr).
  apply split_plain. exact Hlf.
Qed.

Lemma is_dot_lacks (s : str) :
  Forall (fun x => is_dot x = true) s -> lacks [CR; LF] s = true.
Proof.
  intros H. unfold lacks. apply forallb_forall. intros x Hx.
  apply (proj1 (Forall_forall _ _) H) in Hx. unfold is_dot in Hx.
  apply andb_prop in Hx. destruct Hx as [H1 H2].
  apply negb_true_iff in H1. apply negb_true_iff in H2.
  cbn [one_of existsb]. rewrite H1, H2. reflexivity.
Qed.



(* ================================================================== *)
(** ** The items of a list *)

(** A run of a class at the start of a text that begins with such a run
    [ws] and goes on with a code unit outside the class: the run is a
    part of [ws]. *)
Lemma run_prefix (P : ascii -> bool) (run : str) :
  forall (s1 ws : str) (y : ascii) (rest : str),
    run ++ s1 = ws ++ y :: rest ->
    Forall (fun x => P x = true) run -> Forall (fun x => P x = true) ws ->
    P y = false ->
    exists k, ws = run ++ k /\ s1 = k ++ y :: rest.
Proof.
  induction run as [|a run IH]; intros s1 ws y rest E Hr Hw Hy.
  - exists ws. split; [reflexivity|exact E].
  - inversion Hr as [|? ? Ha Hr']; subst.
    destruct ws as [|b ws].
    + cbn [app] in E. injection E as -> _. congruence.
    + cbn [app] in E. injection E as -> E.
      inversion Hw as [|? ? _ Hw']; subst.
      destruct (IH s1 ws y rest E Hr' Hw' Hy) as (k & -> & ->).
      exists k. split; reflexivity.
Qed.

(** Behind a run of white space, a class without white space must take
    the first code unit that is not white space. *)
Lemma lead_inv (inp : str) (lo : nat) (hi : option nat) (p : ascii -> bool) (r : regex)
    (ws : str) (y : ascii) (rest : str) (e : str * caps) :
  no_space p ->
  Forall (fun x => is_space x = true) ws -> is_space y = false ->
  In e (m inp (Grp (Rep is_space lo hi) >> Grp (Cls p) >> r) (ws ++ y :: rest)) ->
  p y = true /\ exists e', In e' (m inp r rest).
Proof.
  intros Hp Hw Hy H. destruct e as [s c].
  apply m_seq_In in H. destruct H as (s1 & c1 & c1' & H1 & H & _).
  apply m_seq_In in H. destruct H as (s2 & c2 & c2' & H2 & H & _).
  apply m_grp_In in H1. destruct H1 as (k1 & H1).
  apply m_rep_In in H1. destruct H1 as (run & E & Hr & _).
  apply m_grp_In in H2. destruct H2 as (k2 & H2).
  apply m_cls_In in H2. destruct H2 as (x & -> & Hx).
  symmetry in E.
  destruct (run_prefix is_space run _ ws y rest E Hr Hw Hy) as (k & -> & Ek).
  destruct k as [|z k].
  - cbn [app] in Ek. injection Ek as -> ->. split; [exact Hx|]. eexists. exact H.
  - cbn [app] in Ek. injection Ek as -> _.
    apply Forall_app in Hw. destruct Hw as [_ Hw].
    inversion Hw as [|? ? Hz _]; subst.
    rewrite (Hp z Hx) in Hz. discriminate Hz.
Qed.

(** ... and so must what follows a run of white space. *)
Lemma gap_inv (inp : str) (lo : nat) (hi : option nat) (p : ascii -> bool) (r : regex)
    (ws : str) (y : ascii) (rest : str) (e : str * caps) :
  no_space p ->
  Forall (fun x => is_space x = true) ws -> is_space y = false ->
  In e (m inp (Rep is_space lo hi >> Cls p >> r) (ws ++ y :: rest)) ->
  p y = true /\ exists e', In e' (m inp r rest).
Proof.
  intros Hp Hw Hy H. destruct e as [s c].
  apply m_seq_In in H. destruct H as (s1 & c1 & c1' & H1 & H & _).
  apply m_seq_In in H. destruct H as (s2 & c2 & c2' & H2 & H & _).
  apply m_rep_In in H1. destruct H1 as (run & E & Hr & _).
  apply m_cls_In in H2. destruct H2 as (x & -> & Hx).
  symmetry in E.
  destruct (run_prefix is_space run _ ws y rest E Hr Hw Hy) as (k & -> & Ek).
  destruct k as [|z k].
  - cbn [app] in Ek. injection Ek as -> ->. split; [exact Hx|]. eexists. exact H.
  - cbn [app] in Ek. injection Ek as -> _.
    apply Forall_app in Hw. destruct Hw as [_ Hw].
    inversion Hw as [|? ? Hz _]; subst.
    rewrite (Hp z Hx) in Hz. discriminate Hz.
Qed.

Lemma nil_of_no_In {A : Type} (l : list A) : (forall e, ~ In e l) -> l = [].
Proof. destruct l as [|x l]; [reflexivity|]. intros H. destruct (H x). left. reflexivity. Qed.

Lemma exec_bol_none (r : regex) (s : str) :
  (forall e, ~ In e (m s r s)) -> exec (Bol >> r) s = None.
Proof.
  intros H. rewrite exec_bol. apply match_here_none. apply nil_of_no_In. exact H.
Qed.

Lemma exec_bol_first (r : regex) (s : str) (c : caps) :
  hd_error (m s r s) = Some ([], c) ->
  exec (Bol >> r) s
  = Some {| mindex := 0; matched := firstn (length s - 0) s; mrest := []; groups := c |}.
Proof. intros H. rewrite exec_bol. exact (match_here_first s r 0 s [] c H). Qed.

(** The head matches of the pieces the item patterns are made of. *)
Lemma m_grp_rep (inp : str) (p : ascii -> bool) (lo : nat) (run rest : str) :
  Forall (fun c => p c = true) run -> stops p rest -> lo <= length run ->
  hd_error (m inp (Grp (Rep p lo None)) (run ++ rest)) = Some (rest, [Some run]).
Proof.
  intros Hr Hs Hlo.
  assert (G : hd_error (m inp (Rep p lo None) (run ++ rest)) = Some (rest, []))
    by (apply m_rep_first; [exact Hr|exact Hs|exact Hlo|exact I]).
  apply m_grp_first in G. rewrite firstn_app_len in G. exact G.
Qed.

Lemma m_grp_cls (inp : str) (p : ascii -> bool) (x : ascii) (rest : str) :
  p x = true -> hd_error (m inp (Grp (Cls p)) (x :: rest)) = Some (rest, [Some [x]]).
Proof.
  intros Hx. pose proof (m_cls_first inp p x rest Hx) as G.
  apply m_grp_first in G.
  change (x :: rest) with ([x] ++ rest) in G at 2 3.
  rewrite firstn_app_len in G. exact G.
Qed.

Lemma m_text_end (inp : str) (body : str) :
  body <> [] -> Forall (fun x => is_dot x = true) body ->
  hd_error (m inp (Grp Re.any_plus >> Eol) body) = Some ([], [Some body]).
Proof.
  intros Hn Hd.
  pose proof (m_grp_rep inp is_dot 1 body [] Hd I (nonempty_length _ Hn)) as G.
  rewrite app_nil_r in G.
  exact (m_seq_first inp _ _ _ _ _ _ _ G (m_eol_first inp)).
Qed.

Lemma m_gap_text (inp : str) (gap body : str) (c : ascii) (body' : str) :
  gap <> [] -> Forall (fun x => is_space x = true) gap ->
  body = c :: body' -> is_space c = false -> Forall (fun x => is_dot x = true) body ->
  hd_error (m inp (Re.ws_plus >> Grp Re.any_plus >> Eol) (gap ++ body))
  = Some ([], [Some body]).
Proof.
  intros Hg Hgs Eb Hc Hd.
  assert (G : hd_error (m inp Re.ws_plus (gap ++ body)) = Some (body, [])).
  { apply m_rep_first; [exact Hgs| |exact (nonempty_length _ Hg)|exact I].
    rewrite Eb. exact Hc. }
  apply (m_seq_first inp _ _ _ _ _ _ _ G).
  apply m_text_end; [rewrite Eb; discriminate|exact Hd].
Qed.

Lemma stops_marker (p : ascii -> bool) (x : ascii) (rest : str) :
  no_space p -> p x = true -> stops is_space (x :: rest).
Proof. intros Hp Hx. exact (Hp x Hx). Qed.

(** The three patterns of processList on a bullet line, on a checkbox
    line and on a numbered line. *)
Lemma unordered_match (ind gap body : str) (mk c : ascii) (body' : str) :
  Forall (fun x => is_space x = true) ind -> one_of (L "-*+") mk = true ->
  gap <> [] -> Forall (fun x => is_space x = true) gap ->
  body = c :: body' -> is_space c = false -> Forall (fun x => is_dot x = true) body ->
  exists x,
    exec Re.unordered (ind ++ mk :: gap ++ body) = Some x /\
    groups x = [Some ind; Some [mk]; Some body].
Proof.
  intros Hi Hm Hg Hgs Eb Hc Hd. set (line := ind ++ mk :: gap ++ body).
  eexists. split.
  - unfold Re.unordered. apply exec_bol_first.
    eapply m_seq_first;
      [exact ((m_grp_rep line is_space 0 ind _ Hi
                (stops_marker _ mk _ no_space_marker Hm) (Nat.le_0_l _)))|].
    eapply m_seq_first;
      [exact ((m_grp_cls line _ mk _ Hm))|].
    exact (m_gap_text line gap body c body' Hg Hgs Eb Hc Hd).
  - reflexivity.
Qed.

Lemma task_match (ind gap1 gap body : str) (mk k c : ascii) (body' : str) :
  Forall (fun x => is_space x = true) ind -> one_of (L "-*+") mk = true ->
  gap1 <> [] -> Forall (fun x => is_space x = true) gap1 ->
  one_of (L " x") k = true ->
  gap <> [] -> Forall (fun x => is_space x = true) gap ->
  body = c :: body' -> is_space c = false -> Forall (fun x => is_dot x = true) body ->
  exists x,
    exec Re.task (ind ++ mk :: gap1 ++ "["%char :: k :: "]"%char :: gap ++ body) = Some x /\
    groups x = [Some ind; Some [mk]; Some [k]; Some body].
Proof.
  intros Hi Hm Hg1 Hgs1 Hk Hg Hgs Eb Hc Hd.
  set (line := ind ++ mk :: gap1 ++ "["%char :: k :: "]"%char :: gap ++ body).
  assert (G : hd_error (m line Re.ws_plus (gap1 ++ "["%char :: k :: "]"%char :: gap ++ body))
              = Some ("["%char :: k :: "]"%char :: gap ++ body, [])).
  { apply m_rep_first; [exact Hgs1|reflexivity|exact (nonempty_length _ Hg1)|exact I]. }
  eexists. split.
  - unfold Re.task. apply exec_bol_first.
    eapply m_seq_first;
      [exact ((m_grp_rep line is_space 0 ind _ Hi
                (stops_marker _ mk _ no_space_marker Hm) (Nat.le_0_l _)))|].
    eapply m_seq_first;
      [exact ((m_grp_cls line _ mk _ Hm))|].
    eapply m_seq_first;
      [exact (G)|].
    eapply m_seq_first;
      [exact ((m_cls_first line (is_ch "[") "["%char _ eq_refl))|].
    eapply m_seq_first;
      [exact ((m_grp_cls line _ k _ Hk))|].
    eapply m_seq_first;
      [exact ((m_cls_first line (is_ch "]") "]"%char _ eq_refl))|].
    exact (m_gap_text line gap body c body' Hg Hgs Eb Hc Hd).
  - reflexivity.
Qed.

Lemma digit_not_space (d : ascii) : is_digit d = true -> is_space d = false.
Proof. exact (no_space_digit d). Qed.

Lemma ordered_match (ind digits gap body : str) (c : ascii) (body' : str) :
  Forall (fun x => is_space x = true) ind ->
  digits <> [] -> Forall (fun x => is_digit x = true) digits ->
  gap <> [] -> Forall (fun x => is_space x = true) gap ->
  body = c :: body' -> is_space c = false -> Forall (fun x => is_dot x = true) body ->
  exists x,
    exec Re.ordered (ind ++ digits ++ "."%char :: gap ++ body) = Some x /\
    groups x = [Some ind; Some digits; Some body].
Proof.
  intros Hi Hn Hds Hg Hgs Eb Hc Hd.
  set (line := ind ++ digits ++ "."%char :: gap ++ body).
  assert (S1 : stops is_space (digits ++ "."%char :: gap ++ body)).
  { destruct digits as [|d ds]; [congruence|].
    inversion Hds; subst. apply digit_not_space. assumption. }
  eexists. split.
  - unfold Re.ordered. apply exec_bol_first.
    eapply m_seq_first;
      [exact ((m_grp_rep line is_space 0 ind _ Hi S1 (Nat.le_0_l _)))|].
    eapply m_seq_first;
      [exact ((m_grp_rep line is_digit 1 digits ("."%char :: gap ++ body) Hds eq_refl
                (nonempty_length _ Hn)))|].
    eapply m_seq_first;
      [exact ((m_cls_first line (is_ch ".") "."%char _ eq_refl))|].
    exact (m_gap_text line gap body c body' Hg Hgs Eb Hc Hd).
  - reflexivity.
Qed.

Lemma digit_not_marker (d : ascii) : is_digit d = true -> one_of (L "-*+") d = false.
Proof. destruct d as [[] [] [] [] [] [] [] []]; vm_compute; congruence. Qed.

Lemma marker_not_space (mk : ascii) : one_of (L "-*+") mk = true -> is_space mk = false.
Proof. exact (no_space_marker mk). Qed.

(** A bullet line whose text does not start like a checkbox is no task. *)
Lemma task_none_bullet (ind gap body : str) (mk c : ascii) (body' : str) :
  Forall (fun x => is_space x = true) ind -> one_of (L "-*+") mk = true ->
  Forall (fun x => is_space x = true) gap ->
  body = c :: body' -> is_space c = false ->
  checkbox_start body = false ->
  exec Re.task (ind ++ mk :: gap ++ body) = None.
Proof.
  intros Hi Hm Hgs Eb Hc Hcb. unfold Re.task. apply exec_bol_none. intros e H.
  apply (lead_inv _ 0 None _ _ ind mk (gap ++ body) e no_space_marker Hi
           (marker_not_space mk Hm)) in H.
  destruct H as [_ [e1 H]]. rewrite Eb in H.
  apply (gap_inv _ 1 None (is_ch "[") _ gap c body' e1
           (no_space_is_ch "["%char eq_refl) Hgs Hc) in H.
  destruct H as [Hb [[s r] H]]. apply is_ch_eq in Hb. subst c.
  apply m_seq_In in H. destruct H as (s1 & c1 & c1' & H1 & H & _).
  apply m_seq_In in H. destruct H as (s2 & c2 & c2' & H2 & H & _).
  apply m_seq_In in H. destruct H as (s3 & c3 & c3' & H3 & _ & _).
  apply m_grp_In in H1. destruct H1 as (k1 & H1).
  apply m_cls_In in H1. destruct H1 as (k & Ek & Hk).
  apply m_cls_In in H2. destruct H2 as (x2 & E2 & Hx2). apply is_ch_eq in Hx2.
  apply m_rep_In in H3. destruct H3 as (run & E3 & Hrun & Hlen & _).
  subst body body' s1 x2 s2.
  destruct run as [|w run]; [simpl in Hlen; lia|].
  inversion Hrun as [|? ? Hw _]; subst.
  cbn [app checkbox_start] in Hcb.
  rewrite Hk, Hw in Hcb. discriminate Hcb.
Qed.

(** A numbered line is neither a task nor a bullet item. *)
Lemma marker_none_number (r : regex) (ind digits rest : str) :
  Forall (fun x => is_space x = true) ind ->
  digits <> [] -> Forall (fun x => is_digit x = true) digits ->
  exec (Bol >> Grp Re.ws_star >> Grp Re.marker >> r) (ind ++ digits ++ rest) = None.
Proof.
  intros Hi Hn Hds. apply exec_bol_none. intros e H.
  destruct digits as [|d ds]; [congruence|].
  inversion Hds as [|? ? Hd _]; subst.
  cbn [app] in H.
  apply (lead_inv _ 0 None _ _ ind d (ds ++ rest) e no_space_marker Hi
           (digit_not_space d Hd)) in H.
  destruct H as [Hm _]. rewrite (digit_not_marker d Hd) in Hm. discriminate Hm.
Qed.

(** X22.  What the loop of processList makes of a line.  A line is white space
    [ind], a marker or a number and a dot, white space [gap] and a text
    that starts with no white space.  Behind one of [-], [*] and [+] the
    line is a bullet item, unless the text starts like a checkbox; behind
    a marker, white space, [[], a blank or [x], []] and white space it is a
    task, checked for [x]; behind digits and a dot it is a numbered item.
    The content of the item is the text through the inline engine (it is
    not escaped), and [indent] is the length of [ind]. *)
Theorem list_item_of_a_line :
  forall (ind gap body : str) (c : ascii) (body' : str),
    Forall (fun x => is_space x = true) ind ->
    gap <> [] -> Forall (fun x => is_space x = true) gap ->
    body = c :: body' -> is_space c = false -> Forall (fun x => is_dot x = true) body ->
    (forall mk : ascii,
       one_of (L "-*+") mk = true -> checkbox_start body = false ->
       list_item (ind ++ mk :: gap ++ body)
       = Some ({| type := unordered; indent := length ind;
                  content := processInlineElements body; checked := false |}, ul)) /\
    (forall (mk k : ascii) (gap1 : str),
       one_of (L "-*+") mk = true -> one_of (L " x") k = true ->
       gap1 <> [] -> Forall (fun x => is_space x = true) gap1 ->
       list_item (ind ++ mk :: gap1 ++ "["%char :: k :: "]"%char :: gap ++ body)
       = Some ({| type := task; indent := length ind;
                  content := processInlineElements body;
                  checked := ch_eqb k "x" |}, ul)) /\
    (forall digits : str,
       digits <> [] -> Forall (fun x => is_digit x = true) digits ->
       list_item (ind ++ digits ++ "."%char :: gap ++ body)
       = Some ({| type := ordered; indent := length ind;
                  content := processInlineElements body; checked := false |}, ol)).
Proof.
  intros ind gap body c body' Hi Hg Hgs Eb Hc Hd. repeat split.
  - intros mk Hm Hcb. unfold list_item.
    rewrite (task_none_bullet ind gap body mk c body' Hi Hm Hgs Eb Hc Hcb).
    destruct (unordered_match ind gap body mk c body' Hi Hm Hg Hgs Eb Hc Hd)
      as (x & -> & Gx).
    unfold group_str, group. rewrite Gx. reflexivity.
  - intros mk k gap1 Hm Hk Hg1 Hgs1. unfold list_item.
    destruct (task_match ind gap1 gap body mk k c body' Hi Hm Hg1 Hgs1 Hk Hg Hgs Eb Hc Hd)
      as (x & -> & Gx).
    unfold group_str, group. rewrite Gx. cbn [nth str_eqb L list_ascii_of_string].
    rewrite andb_true_r. reflexivity.
  - intros digits Hn Hds. unfold list_item.
    unfold Re.task, Re.unordered.
    rewrite (marker_none_number _ ind digits _ Hi Hn Hds).
    rewrite (marker_none_number _ ind digits _ Hi Hn Hds).
    destruct (ordered_match ind digits gap body c body' Hi Hn Hds Hg Hgs Eb Hc Hd)
      as (x & -> & Gx).
    unfold group_str, group. rewrite Gx. reflexivity.
Qed.

Lemma list_item_of_a_line_witness :
  list_item (L "  * [a](b) <i>") 
  = Some ({| type := unordered; indent := 2;
             content := processInlineElements (L "[a](b) <i>"); checked := false |}, ul) /\
  list_item (L "  - [x]  [a](b) <i>")
  = Some ({| type := task; indent := 2;
             content := processInlineElements (L "[a](b) <i>"); checked := true |}, ul) /\
  list_item (L "  10. [a](b) <i>")
  = Some ({| type := ordered; indent := 2;
             content := processInlineElements (L "[a](b) <i>"); checked := false |}, ol).
Proof.
  destruct (list_item_of_a_line (L "  ") (L " ") (L "[a](b) <i>") "["%char (L "a](b) <i>")
              ltac:(repeat constructor) ltac:(discriminate) ltac:(repeat constructor)
              eq_refl eq_refl ltac:(repeat constructor)) as (H1 & _ & H3).
  destruct (list_item_of_a_line (L "  ") (L "  ") (L "[a](b) <i>") "["%char (L "a](b) <i>")
              ltac:(repeat constructor) ltac:(discriminate) ltac:(repeat constructor)
              eq_refl eq_refl ltac:(repeat constructor)) as (_ & H2 & _).
  split; [|split].
  - apply (H1 "*"%char); reflexivity.
  - apply (H2 "-"%char "x"%char (L " ")); try reflexivity; try discriminate.
    repeat constructor.
  - apply (H3 (L "10")); [discriminate|repeat constructor].
Defined.

Lemma list_loop_items (run after : list str) :
  Forall (fun l => list_item l <> None) run ->
  (forall l tl, after = l :: tl -> list_item l = None) ->
  forall i items t,
    list_loop (run ++ after) i items (Some t)
    = (items ++ items_of run, i + length run, Some t).
Proof.
  intros Hrun Hafter. induction Hrun as [|l run Hl _ IH]; intros i items t.
  - cbn [app items_of flat_map length]. rewrite app_nil_r, Nat.add_0_r.
    destruct after as [|l tl]; [reflexivity|].
    cbn [list_loop]. rewrite (Hafter l tl eq_refl). reflexivity.
  - cbn [app list_loop items_of flat_map length].
    destruct (list_item l) as [[item t']|] eqn:E; [|congruence].
    cbn [set_if_null]. rewrite IH. rewrite <- app_assoc. cbn [app].
    f_equal. f_equal. lia.
Qed.

(** X23.  processList takes the lines from the start index on as long as each
    is an item; the line that is none ends the list.  The tag is that of
    the first item, every line gives one [li] element, whatever its
    indent (nested lists come out flat), and the index returned is that of
    the first line that is no item. *)
Theorem processList_takes_the_item_lines :
  forall (before : list str) (first : str) (run after : list str)
         (item : ListItem) (t : ListTag),
    list_item first = Some (item, t) ->
    Forall (fun l => list_item l <> None) run ->
    (forall l tl, after = l :: tl -> list_item l = None) ->
    processList (before ++ first :: run ++ after) (length before)
    = list_block (length before) t (first :: run).
Proof.
  intros before first run after item t Hf Hrun Hafter. unfold processList.
  rewrite skipn_app, Nat.sub_diag, skipn_all. cbn [app skipn list_loop].
  rewrite Hf. cbn [set_if_null app].
  rewrite (list_loop_items run after Hrun Hafter).
  rewrite fold_render. unfold list_block, items_of. cbn [flat_map]. rewrite Hf.
  cbn [app length]. repeat rewrite <- app_assoc. f_equal. lia.
Qed.

Lemma processList_takes_the_item_lines_witness :
  processList [L "text"; L "1. one"; L "   - [ ] two"; L "* three"; L ""; L "- four"] 1
  = list_block 1 ol [L "1. one"; L "   - [ ] two"; L "* three"].
Proof.
  apply (processList_takes_the_item_lines [L "text"] (L "1. one")
           [L "   - [ ] two"; L "* three"] [L ""; L "- four"]
           {| type := ordered; indent := 0; content := L "one"; checked := false |} ol).
  - reflexivity.
  - repeat constructor; discriminate.
  - intros l tl E. injection E as <- _. reflexivity.
Defined.

(* ================================================================== *)
(** ** The sanitizer used when DOMPurify is not loaded *)

(** A literal under the [i] flag matches its letters in either case. *)
Lemma m_LitI_match (inp : str) (lit : str) :
  forall t r, map upcase t = map upcase lit ->
              hd_error (m inp (LitI lit) (t ++ r)) = Some (r, []).
Proof.
  induction lit as [|a lit IH]; intros t r E.
  - destruct t; [reflexivity|discriminate E].
  - destruct t as [|x t]; [discriminate E|].
    cbn [map] in E. injection E as Ex Et.
    cbn [LitI app].
    assert (Hx : is_ch_i a x = true) by (unfold is_ch_i; rewrite Ex; apply ch_eqb_refl).
    exact (m_seq_first inp _ _ _ _ _ _ _ (m_cls_first inp _ x _ Hx) (IH t r Et)).
Qed.

(** A word boundary behind a word character and before the end or a code
    unit that is none. *)
Lemma m_wordb_after_word (p : str) (w : ascii) (s : str) :
  is_word w = true -> stops is_word s ->
  m (p ++ w :: s) WordB s = [(s, [])].
Proof.
  intros Hw Hs. cbn [m].
  replace (length (p ++ w :: s) - length s) with (S (length p))
    by (rewrite length_app; simpl; lia).
  rewrite nth_error_app2, Nat.sub_diag by lia. cbn [nth_error is_word_at].
  rewrite Hw. destruct s as [|c s]; cbn [hd_error is_word_at]; [reflexivity|].
  cbn [stops] in Hs. rewrite Hs. reflexivity.
Qed.

Lemma m_star_stop (inp : str) (a : regex) (s : str) :
  m inp a s = [] -> m inp (Star a) s = [(s, repeat None (ngroups a))].
Proof.
  intros H. cbn [m]. destruct (length s); cbn [star]; [reflexivity|].
  rewrite H. reflexivity.
Qed.

Lemma upcase_t_word (w : ascii) : upcase w = upcase "t" -> is_word w = true.
Proof.
  destruct w as [[] [] [] [] [] [] [] []]; vm_compute; intros H;
    try discriminate H; reflexivity.
Qed.

Lemma upcase_lt (x : ascii) : upcase x = upcase "<" -> x = "<"%char.
Proof.
  intros H. apply is_ch_i_lt. unfold is_ch_i. rewrite H. apply ch_eqb_refl.
Qed.

(** The script pattern at an opening tag, a body without [<] and a
    closing tag. *)
Lemma script_match (p l1 mid l2 post : str) :
  map upcase l1 = map upcase (L "<script") ->
  map upcase l2 = map upcase (L "</script>") ->
  lacks (L "<") mid = true -> stops is_word mid ->
  hd_error (m (p ++ l1 ++ mid ++ l2 ++ post) Re.script (l1 ++ mid ++ l2 ++ post))
  = Some (post, []).
Proof.
  intros E1 E2 Hmid Hstop. unfold Re.script.
  set (inp := p ++ l1 ++ mid ++ l2 ++ post).
  assert (H2 : exists l2', l2 = "<"%char :: l2').
  { destruct l2 as [|b l2']; [discriminate E2|].
    cbn [map] in E2. injection E2 as Eb _. apply upcase_lt in Eb. subst b.
    exists l2'. reflexivity. }
  destruct H2 as (l2' & El2).
  assert (A1 : hd_error (m inp (LitI (L "<script")) (l1 ++ mid ++ l2 ++ post))
               = Some (mid ++ l2 ++ post, []))
    by exact (m_LitI_match inp _ l1 _ E1).
  assert (A2 : hd_error (m inp WordB (mid ++ l2 ++ post)) = Some (mid ++ l2 ++ post, [])).
  { assert (Hl : exists l1' w, l1 = l1' ++ [w] /\ is_word w = true).
    { destruct l1 as [|a1 [|a2 [|a3 [|a4 [|a5 [|a6 [|a7 [|a8 l1]]]]]]]];
        try discriminate E1.
      cbn [map] in E1. injection E1 as _ _ _ _ _ _ E7.
      exists [a1; a2; a3; a4; a5; a6], a7. split; [reflexivity|].
      exact (upcase_t_word a7 E7). }
    destruct Hl as (l1' & w & El1 & Hw).
    unfold inp. rewrite El1.
    replace (p ++ (l1' ++ [w]) ++ mid ++ l2 ++ post)
      with ((p ++ l1') ++ w :: mid ++ l2 ++ post)
      by (repeat rewrite <- app_assoc; reflexivity).
    rewrite m_wordb_after_word; [reflexivity|exact Hw|].
    destruct mid as [|c mid]; [|exact Hstop].
    rewrite El2. reflexivity. }
  assert (A3 : hd_error (m inp (Rep (not_ch "<") 0 None) (mid ++ l2 ++ post))
               = Some (l2 ++ post, [])).
  { apply m_rep_first; [| |lia|exact I].
    - apply Forall_forall. intros x Hx. apply not_ch_true. intros ->.
      exact (lacks_not_In (L "<") mid "<"%char Hmid (or_introl eq_refl) Hx).
    - rewrite El2. reflexivity. }
  assert (A5 : hd_error (m inp (LitI (L "</script>")) (l2 ++ post)) = Some (post, []))
    by exact (m_LitI_match inp _ l2 _ E2).
  assert (A4 : hd_error
                 (m inp (Star (NegLook (LitI (L "</script>")) >> Re.C "<"
                               >> Rep (not_ch "<") 0 None)) (l2 ++ post))
               = Some (l2 ++ post, [])).
  { rewrite m_star_stop; [reflexivity|].
    apply m_seq_nil_l. cbn [m].
    destruct (m inp (LitI (L "</script>")) (l2 ++ post)); [discriminate A5|reflexivity]. }
  pose proof (m_seq_first inp _ _ _ _ _ _ _ A4 A5) as B4.
  pose proof (m_seq_first inp _ _ _ _ _ _ _ A3 B4) as B3.
  pose proof (m_seq_first inp _ _ _ _ _ _ _ A2 B3) as B2.
  exact (m_seq_first inp _ _ _ _ _ _ _ A1 B2).
Qed.

(** No match of the script pattern starts at a [<] that is not followed
    by the letter s. *)
Lemma script_head_local (inp : str) (t : str) :
  (forall y rest, t = "<"%char :: y :: rest -> is_ch_i "s" y = false) ->
  m inp Re.script t = [].
Proof.
  intros H. unfold Re.script. apply m_seq_nil_l.
  destruct t as [|c t]; [reflexivity|].
  change (L "<script") with ("<"%char :: L "script").
  cbn [LitI]. apply m_seq_none. intros s1 c1 Hin.
  apply m_cls_In in Hin. destruct Hin as (x & [= <- <-] & Hx).
  apply is_ch_i_lt in Hx. subst c.
  destruct t as [|y t]; [reflexivity|].
  apply LitI_cons_none. exact (H y t eq_refl).
Qed.

Lemma tag_letter_s (y : ascii) :
  one_of (L "kmdsKMDS") y = false -> is_ch_i "s" y = false.
Proof.
  intros H. apply not_true_is_false. intros Hi.
  apply (is_ch_i_tag "s" y) in Hi; [congruence|simpl; auto].
Qed.

Lemma script_prefix_quiet (inp : str) (pre s : str) :
  no_tag_start pre = true ->
  match s with y :: _ => is_ch_i "s" y = false | [] => True end ->
  forall p1 x p2, pre = p1 ++ x :: p2 -> m inp Re.script (x :: p2 ++ s) = [].
Proof.
  intros Hpre Hs p1 x p2 E. subst pre. apply no_tag_start_tail in Hpre.
  apply script_head_local. intros y rest Et. injection Et as -> Et.
  destruct p2 as [|z p2].
  - cbn [app] in Et. subst s. exact Hs.
  - cbn [app] in Et. injection Et as <- _.
    cbn [no_tag_start] in Hpre. apply andb_prop in Hpre. destruct Hpre as [H _].
    apply negb_true_iff in H. rewrite ch_eqb_refl in H. cbn [andb] in H.
    exact (tag_letter_s z H).
Qed.

(** Where a place in two strings put together lies. *)
Lemma run_split_app {A : Type} (p1 t a b : list A) :
  a ++ b = p1 ++ t ->
  (exists q, a = p1 ++ q /\ t = q ++ b) \/
  (exists q, b = q ++ t /\ p1 = a ++ q).
Proof.
  revert a. induction p1 as [|x p1 IH]; intros a E.
  - left. exists a. split; [reflexivity|]. symmetry. exact E.
  - destruct a as [|y a].
    + right. exists (x :: p1). split; [exact E|reflexivity].
    + cbn [app] in E. injection E as -> E.
      destruct (IH a E) as [(q & -> & ->)|(q & -> & ->)].
      * left. exists q. split; reflexivity.
      * right. exists q. split; reflexivity.
Qed.

(** The replacement at one script element, where no match starts before
    it and none is left behind it. *)
Lemma script_removed (pre l1 mid l2 post : str) :
  map upcase l1 = map upcase (L "<script") ->
  map upcase l2 = map upcase (L "</script>") ->
  lacks (L "<") mid = true -> stops is_word mid ->
  (forall inp p1 x p2, pre = p1 ++ x :: p2 ->
                       m inp Re.script (x :: p2 ++ l1 ++ mid ++ l2 ++ post) = []) ->
  quiet Re.script post ->
  replace_all Re.script [] (pre ++ l1 ++ mid ++ l2 ++ post) = pre ++ post.
Proof.
  intros E1 E2 Hmid Hstop Hpre Hpost. unfold replace_all, replace_fn.
  set (text := pre ++ l1 ++ mid ++ l2 ++ post). unfold text at 3.
  rewrite replace_st_prefix by (apply Hpre).
  cbn [snd]. f_equal.
  pose proof (script_match pre l1 mid l2 post E1 E2 Hmid Hstop) as Hm. fold text in Hm.
  destruct l1 as [|a1 l1']; [discriminate E1|].
  replace ((a1 :: l1') ++ mid ++ l2 ++ post) with (a1 :: (l1' ++ mid ++ l2) ++ post) in *
    by (cbn [app]; repeat rewrite <- app_assoc; reflexivity).
  rewrite (replace_st_match text Re.script _ a1 (l1' ++ mid ++ l2) post [] _ _ Hm).
  cbv zeta. cbn [fst snd GetSubstitution app].
  rewrite replace_st_quiet; [reflexivity|].
  intros p t E. exact (Hpost text p t E).
Qed.

(** X24.  Without DOMPurify, sanitizeHTML removes a script element whose body
    holds no [<]: the opening tag is [<script] in any case of letters,
    followed at once by a code unit that is no word character (the [>], a
    blank and attributes), and the closing tag is [</script>] in any case.
    Nothing else is removed: a text in which no [<] is followed by one of
    k, m, d, s is returned as it is. *)
Theorem sanitizeHTML_removes_a_script_element :
  forall (options : Options) (pre l1 mid l2 post : str),
    no_tag_start pre = true -> no_tag_start post = true ->
    sanitizeHTML options None pre = pre /\
    (map upcase l1 = map upcase (L "<script") ->
     map upcase l2 = map upcase (L "</script>") ->
     lacks (L "<") mid = true -> stops is_word mid ->
     sanitizeHTML options None (pre ++ l1 ++ mid ++ l2 ++ post) = pre ++ post).
Proof.
  intros options pre l1 mid l2 post Hpre Hpost. unfold sanitizeHTML. split.
  - apply replace_all_quiet. apply quiet_script. exact Hpre.
  - intros E1 E2 Hmid Hstop.
    apply script_removed; try assumption; [|apply quiet_script; exact Hpost].
    intros inp p1 x p2 E. apply (script_prefix_quiet inp pre _ Hpre) with (p1 := p1); [|exact E].
    destruct l1 as [|a1 l1']; [discriminate E1|].
    cbn [map] in E1. injection E1 as Ea _. apply upcase_lt in Ea. subst a1.
    reflexivity.
Qed.

Lemma sanitizeHTML_removes_a_script_element_witness :
  sanitizeHTML default_options None (L "<h1>a") = L "<h1>a" /\
  sanitizeHTML default_options None
    (L "<h1>a" ++ L "<SCRIPT" ++ L " src=x>alert(1)" ++ L "</Script>" ++ L "</h1>")
  = L "<h1>a" ++ L "</h1>".
Proof.
  destruct (sanitizeHTML_removes_a_script_element default_options
              (L "<h1>a") (L "<SCRIPT") (L " src=x>alert(1)") (L "</Script>") (L "</h1>")
              eq_refl eq_refl) as [H1 H2].
  split; [exact H1|]. apply H2; reflexivity.
Defined.

(** X25.  The sanitizer makes one pass and does not look at what it leaves: the
    two halves of a [<script] tag around a script element come together
    when the element is removed, so the result of sanitizeHTML can hold a
    script element. *)
Theorem sanitizeHTML_makes_one_pass :
  forall (options : Options) (pre mid post : str),
    no_tag_start pre = true -> no_tag_start post = true ->
    lacks (L "<") mid = true -> stops is_word mid ->
    sanitizeHTML options None
      (pre ++ L "<scr" ++ L "<script" ++ mid ++ L "</script>" ++ L "ipt" ++ post)
    = pre ++ L "<script" ++ post.
Proof.
  intros options pre mid post Hpre Hpost Hmid Hstop. unfold sanitizeHTML.
  replace (pre ++ L "<scr" ++ L "<script" ++ mid ++ L "</script>" ++ L "ipt" ++ post)
    with ((pre ++ L "<scr") ++ L "<script" ++ mid ++ L "</script>" ++ (L "ipt" ++ post))
    by (repeat rewrite <- app_assoc; reflexivity).
  replace (pre ++ L "<script" ++ post) with ((pre ++ L "<scr") ++ (L "ipt" ++ post))
    by (repeat rewrite <- app_assoc; reflexivity).
  apply script_removed; try assumption; try reflexivity.
  - intros inp p1 x p2 E.
    set (s := L "<script" ++ mid ++ L "</script>" ++ L "ipt" ++ post).
    assert (Hk : forall k, In k [L "<scr"; L "scr"; L "cr"; L "r"] ->
                           forall q, k = x :: q -> m inp Re.script (x :: q ++ s) = []).
    { intros k Hk q Eq. destruct Hk as [<-|[<-|[<-|[<-|[]]]]];
        injection Eq as <- <-; reflexivity. }
    destruct (run_split_app p1 (x :: p2) pre (L "<scr") E) as [(q & Eq & Ep)|(q & Eq & Ep)].
    + destruct q as [|x' q'].
      * cbn [app] in Ep. apply (Hk (L "<scr")); [simpl; auto|symmetry; exact Ep].
      * cbn [app] in Ep. injection Ep as <- ->. rewrite <- app_assoc.
        exact (script_prefix_quiet inp pre (L "<scr" ++ s) Hpre eq_refl p1 x q' Eq).
    + assert (Hin : In (x :: p2) [L "<scr"; L "scr"; L "cr"; L "r"]).
      { clear - Eq. destruct q as [|q1 [|q2 [|q3 [|q4 q]]]]; cbn [app] in Eq.
        - injection Eq as <- <-. left. reflexivity.
        - injection Eq as _ <- <-. right. left. reflexivity.
        - injection Eq as _ _ <- <-. right. right. left. reflexivity.
        - injection Eq as _ _ _ <- <-. right. right. right. left. reflexivity.
        - injection Eq as _ _ _ _ Eq. destruct q; discriminate Eq. }
      exact (Hk (x :: p2) Hin p2 eq_refl).
  - apply quiet_script.
    change (L "ipt" ++ post) with (L "ip" ++ "t"%char :: post).
    rewrite no_tag_start_const by (reflexivity || discriminate). exact Hpost.
Qed.

Lemma sanitizeHTML_makes_one_pass_witness :
  sanitizeHTML default_options None
    (L "<h1>" ++ L "<scr" ++ L "<script" ++ L ">" ++ L "</script>" ++ L "ipt"
       ++ L ">alert(1)</script></h1>")
  = L "<h1>" ++ L "<script" ++ L ">alert(1)</script></h1>".
Proof.
  apply (sanitizeHTML_makes_one_pass default_options (L "<h1>") (L ">")
           (L ">alert(1)</script></h1>")); reflexivity.
Defined.

(* ================================================================== *)
(** ** Paragraphs and blank lines *)

Lemma blank_trimStart (l : str) :
  Forall (fun c => is_space c = true) l -> trimStart l = [].
Proof. apply trimStart_nil. Qed.

(** No block starts on a blank line. *)
Lemma blank_no_block (lines : list str) (i : nat) (l : str) :
  nth_error lines i = Some l -> Forall (fun c => is_space c = true) l ->
  processBlockElement lines i = Ret None.
Proof.
  intros Hn Hl. pose proof (blank_trimStart l Hl) as Ht.
  assert (Hin : forall x, In x l -> is_space x = true)
    by (apply Forall_forall; exact Hl).
  unfold processBlockElement. rewrite Hn.
  rewrite header_needs_hash.
  2:{ destruct l as [|c l']; [exact I|]. cbn [stops]. unfold is_ch.
      apply ch_eqb_false. intros ->. pose proof (Hin _ (or_introl eq_refl)) as H.
      discriminate H. }
  assert (F1 : test Re.fence l = false).
  { destruct (test Re.fence l) eqn:E; [|reflexivity].
    apply test_fence in E. destruct E as (rest & ->).
    pose proof (Hin "`"%char (or_introl eq_refl)) as H. discriminate H. }
  assert (F2 : isTableRow l = false).
  { destruct (isTableRow l) eqn:E; [|reflexivity].
    apply isTableRow_In in E. apply Hin in E. discriminate E. }
  assert (F3 : test Re.list_bullet l = false).
  { destruct (test Re.list_bullet l) eqn:E; [|reflexivity].
    apply (lead_cls_inv _ _ l no_space_marker) in E.
    destruct E as (x & s & E & _). rewrite Ht in E. discriminate E. }
  assert (F4 : test Re.list_number l = false).
  { destruct (test Re.list_number l) eqn:E; [|reflexivity].
    apply (lead_rep_inv _ _ _ _ l no_space_digit (le_n 1)) in E.
    destruct E as (x & s & E & _). rewrite Ht in E. discriminate E. }
  assert (F5 : test Re.quote l = false).
  { destruct (test Re.quote l) eqn:E; [|reflexivity].
    apply (lead_cls_inv _ _ l (no_space_is_ch ">"%char eq_refl)) in E.
    destruct E as (x & s & E & _). rewrite Ht in E. discriminate E. }
  assert (F6 : test Re.rule l = false).
  { destruct (test Re.rule l) eqn:E; [|reflexivity].
    apply (lead_rep_inv _ _ _ _ l no_space_rule) in E; [|lia].
    destruct E as (x & s & E & _). rewrite Ht in E. discriminate E. }
  rewrite F1, F2, F3, F4, F5, F6. reflexivity.
Qed.

Lemma plain_first (x : ascii) :
  one_of (L "#`-*+>_0123456789") x = false ->
  x <> "#"%char /\ x <> "`"%char /\ x <> ">"%char /\
  one_of (L "-*+") x = false /\ one_of (L "-*_") x = false /\ is_digit x = false.
Proof.
  destruct x as [[] [] [] [] [] [] [] []]; vm_compute; intros H;
    try discriminate H; repeat split; discriminate.
Qed.

Lemma plain_line_inv (l : str) :
  plain_line l = true ->
  exists x s, trimStart l = x :: s /\ one_of (L "#`-*+>_0123456789") x = false
              /\ ~ In "|"%char l /\ trim l <> [].
Proof.
  unfold plain_line. destruct (trimStart l) as [|x s] eqn:E; [discriminate|].
  intros H. apply andb_prop in H. destruct H as [H1 H2].
  apply negb_true_iff in H1. apply negb_true_iff in H2.
  change (L "|") with ["|"%char] in H2. apply includes_char in H2.
  exists x, s. repeat split; try assumption.
  destruct (trimStart_split l) as (run & El & Hrun & Hstop).
  rewrite E in El, Hstop. cbn [stops] in Hstop.
  apply (trim_nonblank l x); [|exact Hstop].
  rewrite El. apply in_or_app. right. left. reflexivity.
Qed.

(** No block starts on a line of plain text. *)
Lemma plain_no_block (lines : list str) (i : nat) (l : str) :
  nth_error lines i = Some l -> plain_line l = true ->
  processBlockElement lines i = Ret None.
Proof.
  intros Hn Hp. destruct (plain_line_inv l Hp) as (x & s & Et & Hx & Hpipe & _).
  destruct (plain_first x Hx) as (X1 & X2 & X3 & X4 & X5 & X6).
  unfold processBlockElement. rewrite Hn.
  rewrite (gate_header_lead l x s Et X1).
  rewrite (gate_fence_lead l x s Et X2).
  assert (F2 : isTableRow l = false).
  { destruct (isTableRow l) eqn:E; [|reflexivity].
    apply isTableRow_In in E. contradiction. }
  rewrite F2.
  rewrite (gate_bullet_lead l x s Et X4), (gate_number_lead l x s Et X6).
  rewrite (gate_quote_lead l x s Et X3), (gate_rule_lead l x s Et X5).
  reflexivity.
Qed.

Lemma nth_error_middle {A : Type} (a run tail : list A) (k : nat) (x : A) :
  nth_error run k = Some x -> nth_error (a ++ run ++ tail) (length a + k) = Some x.
Proof.
  intros H. rewrite nth_error_app2 by lia.
  replace (length a + k - length a) with k by lia.
  rewrite nth_error_app1 by (apply nth_error_Some; congruence). exact H.
Qed.

(** The loop of processParagraph over lines of plain text, up to a blank
    line or the end. *)
Lemma paragraph_loop_plain (lines : list str) (run tail : list str) :
  Forall (fun l => plain_line l = true) run ->
  (forall l tl, tail = l :: tl -> Forall (fun c => is_space c = true) l) ->
  forall before acc,
    lines = before ++ run ++ tail ->
    paragraph_loop lines (run ++ tail) (length before) acc
    = Ret (acc ++ run, length before + length run).
Proof.
  intros Hrun Htail. induction Hrun as [|l run Hl _ IH]; intros before acc E.
  - cbn [app length]. rewrite app_nil_r, Nat.add_0_r.
    destruct tail as [|l tl]; [reflexivity|].
    cbn [paragraph_loop]. rewrite (trim_blank l (Htail l tl eq_refl)). reflexivity.
  - cbn [app paragraph_loop].
    destruct (plain_line_inv l Hl) as (_ & _ & _ & _ & _ & Hne).
    destruct (str_eqb (trim l) []) eqn:Eb; [apply str_eqb_nil in Eb; contradiction|].
    assert (Hn : nth_error lines (length before) = Some l).
    { rewrite E. rewrite nth_error_app2, Nat.sub_diag by lia. reflexivity. }
    rewrite (plain_no_block lines (length before) l Hn Hl). cbn [bind].
    specialize (IH (before ++ [l]) (acc ++ [l])).
    rewrite length_app in IH. cbn [length] in IH.
    replace (length before + 1) with (S (length before)) in IH by lia.
    rewrite IH by (rewrite E, <- app_assoc; reflexivity).
    rewrite <- app_assoc. cbn [app length]. do 2 f_equal. lia.
Qed.

(** X26.  processParagraph takes the lines of plain text up to the first blank
    line (or the end), joins them with one blank, runs the escaping pass
    and then the inline engine over the result and wraps it in a [p]
    element.  On a blank line it returns the empty string and the next
    index; so the block dispatcher, once it has produced something, adds an
    empty entry for each blank line, and two paragraphs with one blank
    line between them come out with an empty line between them. *)
Theorem processParagraph_takes_the_plain_lines :
  forall (para : list str) (blank : str),
    para <> [] -> Forall (fun l => plain_line l = true) para ->
    Forall (fun c => is_space c = true) blank ->
    (forall before tail : list str,
       (forall l tl, tail = l :: tl -> Forall (fun c => is_space c = true) l) ->
       processParagraph (before ++ para ++ tail) (length before)
       = Ret {| html := paragraph_html para; nextIndex := length before + length para |}) /\
    (forall before after : list str,
       processParagraph (before ++ blank :: after) (length before)
       = Ret {| html := []; nextIndex := length before + 1 |}) /\
    (forall para2 : list str,
       para2 <> [] -> Forall (fun l => plain_line l = true) para2 ->
       processLines (length para + length para2 + 2) (para ++ blank :: para2)
       = Ret (paragraph_html para ++ nl ++ nl ++ paragraph_html para2)).
Proof.
  intros para blank Hne Hpara Hblank.
  assert (P1 : forall (p : list str) (b : list str) (tail : list str),
             p <> [] -> Forall (fun l => plain_line l = true) p ->
             (forall l tl, tail = l :: tl -> Forall (fun c => is_space c = true) l) ->
             processParagraph (b ++ p ++ tail) (length b)
             = Ret {| html := paragraph_html p; nextIndex := length b + length p |}).
  { intros p b tail Hp Hpl Ht. unfold processParagraph.
    rewrite skipn_app, Nat.sub_diag, skipn_all. cbn [app skipn].
    rewrite (paragraph_loop_plain (b ++ p ++ tail) p tail Hpl Ht b [] eq_refl).
    cbn [bind app]. destruct p as [|l p]; [congruence|]. reflexivity. }
  assert (P2 : forall (b : list str) (tail : list str),
             processParagraph (b ++ blank :: tail) (length b)
             = Ret {| html := []; nextIndex := length b + 1 |}).
  { intros b tail. unfold processParagraph.
    rewrite skipn_app, Nat.sub_diag, skipn_all. cbn [app skipn paragraph_loop].
    rewrite (trim_blank blank Hblank). reflexivity. }
  split; [|split].
  - intros before tail Ht. exact (P1 para before tail Hne Hpara Ht).
  - exact P2.
  - intros para2 Hne2 Hpara2.
    set (lines := para ++ blank :: para2).
    assert (Hfirst : forall p, p <> [] -> Forall (fun l => plain_line l = true) p ->
                               exists l q, p = l :: q /\ plain_line l = true
                                           /\ trim l <> []).
    { intros p Hp Hpl. destruct p as [|l q]; [congruence|].
      inversion Hpl as [|? ? Hl _]; subst. exists l, q. repeat split; [exact Hl|].
      destruct (plain_line_inv l Hl) as (_ & _ & _ & _ & _ & H). exact H. }
    destruct (Hfirst para Hne Hpara) as (l1 & p1 & E1 & Hl1 & T1).
    destruct (Hfirst para2 Hne2 Hpara2) as (l2 & p2 & E2 & Hl2 & T2).
    assert (N1 : nth_error lines 0 = Some l1) by (unfold lines; rewrite E1; reflexivity).
    assert (N2 : nth_error lines (length para) = Some blank).
    { unfold lines. rewrite nth_error_app2, Nat.sub_diag by lia. reflexivity. }
    assert (N3 : nth_error lines (length para + 1) = Some l2).
    { unfold lines. rewrite nth_error_app2 by lia.
      replace (length para + 1 - length para) with 1 by lia. rewrite E2. reflexivity. }
    assert (B : forall (l : str) (r : list str),
               trim l <> [] -> str_eqb (trim l) [] && (length r =? 0) = false).
    { intros l r H. destruct (str_eqb (trim l) []) eqn:E; [|reflexivity].
      apply str_eqb_nil in E. contradiction. }
    assert (Q1 : processParagraph lines 0
                 = Ret {| html := paragraph_html para; nextIndex := length para |}).
    { apply (P1 para [] (blank :: para2) Hne Hpara).
      intros l tl E. injection E as <- _. exact Hblank. }
    assert (Q2 : processParagraph lines (length para)
                 = Ret {| html := []; nextIndex := length para + 1 |})
      by exact (P2 para para2).
    assert (Q3 : processParagraph lines (length para + 1)
                 = Ret {| html := paragraph_html para2;
                          nextIndex := length para + 1 + length para2 |}).
    { pose proof (P1 para2 (para ++ [blank]) [] Hne2 Hpara2) as H.
      rewrite length_app in H. cbn [length] in H.
      rewrite <- app_assoc, app_nil_r in H. cbn [app] in H. apply H.
      intros l tl E. discriminate E. }
    unfold processLines.
    replace (length para + length para2 + 2)
      with (S (S (S (S (length para + length para2 - 2)))))
      by (rewrite E1, E2; simpl; lia).
    rewrite (loop_paragraph _ lines 0 (@nil str) l1 _ N1 (B l1 _ T1)
               (plain_no_block lines 0 l1 N1 Hl1) Q1).
    cbn [nextIndex html app].
    assert (B2 : forall (r0 : str) (r : list str),
               str_eqb (trim blank) [] && (length (r0 :: r) =? 0) = false)
      by (intros; cbn [length Nat.eqb]; apply andb_false_r).
    rewrite (loop_paragraph _ lines (length para) _ blank _ N2 (B2 _ _)
               (blank_no_block lines (length para) blank N2 Hblank) Q2).
    cbn [nextIndex html app].
    rewrite (loop_paragraph _ lines (length para + 1) _ l2 _ N3 (B l2 _ T2)
               (plain_no_block lines (length para + 1) l2 N3 Hl2) Q3).
    cbn [nextIndex html app].
    rewrite loop_done by (unfold lines; rewrite length_app; simpl; lia).
    reflexivity.
Qed.

Lemma processParagraph_takes_the_plain_lines_witness :
  processParagraph [L "# t"; L "one <b>"; L "  two"; L " "; L "three"] 1
  = Ret {| html := paragraph_html [L "one <b>"; L "  two"]; nextIndex := 1 + 2 |} /\
  processParagraph [L "# t"; L " "; L "three"] 1
  = Ret {| html := []; nextIndex := 1 + 1 |} /\
  processLines (2 + 1 + 2) [L "one <b>"; L "  two"; L " "; L "three"]
  = Ret (paragraph_html [L "one <b>"; L "  two"] ++ nl ++ nl
           ++ paragraph_html [L "three"]).
Proof.
  destruct (processParagraph_takes_the_plain_lines [L "one <b>"; L "  two"] (L " ")
              ltac:(discriminate) ltac:(repeat constructor) ltac:(repeat constructor))
    as (H1 & H2 & H3).
  split; [|split].
  - apply (H1 [L "# t"] [L " "; L "three"]).
    intros l tl E. injection E as <- _. repeat constructor.
  - apply (H2 [L "# t"] [L "three"]).
  - apply (H3 [L "three"]); [discriminate|repeat constructor].
Defined.

(* ================================================================== *)
(** ** A line of plain text from end to end *)

Lemma escapeHTMLInText_quiet (text : str) :
  lacks (L "`[<") text = true -> escapeHTMLInText text = text.
Proof.
  intros H. rewrite escapeHTMLInText_plain by lacks_of_hyp.
  apply replace_fn_quiet. apply quiet_tag_like. lacks_of_hyp.
Qed.

(** X27.  [parse] of one line of plain text: a line whose first code unit that
    is not white space starts no block, and that holds no line terminator
    and none of [|], backtick, [*], [_], [~], [[] and [<], comes out
    between [<p>] and [</p>] exactly as it was written; an [&], a [>] or a
    quote in it is not escaped. *)
Theorem parse_of_a_plain_line :
  forall (options : Options) (text : str),
    plain_line text = true ->
    Forall (fun x => is_dot x = true) text ->
    lacks (L "`*_~[<") text = true ->
    parse options None 2 text = Ret (L "<p>" ++ text ++ L "</p>").
Proof.
  intros options text Hp Hdot Hl.
  destruct (plain_line_inv text Hp) as (x & s & Et & Hx & Hpipe & Hne).
  assert (Hn0 : text <> []) by (intros ->; apply Hne; reflexivity).
  rewrite (parse_nonempty options None 2 text Hn0).
  rewrite (lines_of_one text (is_dot_lacks text Hdot)).
  assert (Hb : processBlockElement [text] 0 = Ret None)
    by exact (plain_no_block [text] 0 text eq_refl Hp).
  assert (Hpar : processParagraph [text] 0
                 = Ret {| html := L "<p>" ++ text ++ L "</p>"; nextIndex := 1 |}).
  { unfold processParagraph. cbn [skipn paragraph_loop].
    destruct (str_eqb (trim text) []) eqn:E; [apply str_eqb_nil in E; contradiction|].
    rewrite Hb. cbn [bind paragraph_loop app join].
    rewrite (escapeHTMLInText_quiet text) by lacks_of_hyp.
    rewrite (inline_plain text) by (lacks_of_hyp || (apply no_tag_start_plain; lacks_of_hyp)).
    reflexivity. }
  assert (Hnb : str_eqb (trim text) [] && (length (@nil str) =? 0) = false).
  { destruct (str_eqb (trim text) []) eqn:E; [|reflexivity].
    apply str_eqb_nil in E. contradiction. }
  unfold processLines.
  rewrite (loop_paragraph 1 (@cons str text (@nil str)) 0 (@nil str) text _
             eq_refl Hnb Hb Hpar).
  cbn [nextIndex html app]. rewrite loop_done by (simpl; lia).
  cbn [join bind].
  assert (Hs : sanitizeHTML options None (L "<p>" ++ text ++ L "</p>")
               = L "<p>" ++ text ++ L "</p>").
  { unfold sanitizeHTML. apply replace_all_quiet. apply quiet_script.
    change (L "<p>" ++ text ++ L "</p>") with (L "<p" ++ ">"%char :: text ++ L "</p>").
    rewrite no_tag_start_const by (reflexivity || discriminate).
    rewrite no_tag_start_app_plain by lacks_of_hyp. reflexivity. }
  rewrite Hs. destruct (sanitizeHTML_option options); reflexivity.
Qed.

Lemma parse_of_a_plain_line_witness :
  parse default_options None 2 (L "AT&T > 3 " ++ [DQ] ++ L "ok" ++ [DQ])
  = Ret (L "<p>" ++ (L "AT&T > 3 " ++ [DQ] ++ L "ok" ++ [DQ]) ++ L "</p>").
Proof.
  apply (parse_of_a_plain_line default_options (L "AT&T > 3 " ++ [DQ] ++ L "ok" ++ [DQ])).
  - reflexivity.
  - repeat constructor.
  - reflexivity.
Defined.

(* ================================================================== *)
(** ** The tokens of the escaping pass *)

Lemma protect_one (pre c post : str) :
  lacks (L "`") pre = true -> c <> [] -> lacks (L "`") c = true ->
  lacks (L "`") post = true ->
  protect Re.code_span ([], pre ++ "`"%char :: c ++ "`"%char :: post)
  = (["`"%char :: c ++ ["`"%char]], pre ++ placeholder 0 ++ post).
Proof.
  intros Hpre Hc Hcl Hpost. unfold protect.
  set (text := pre ++ "`"%char :: c ++ "`"%char :: post). unfold text at 2.
  rewrite replace_st_prefix
    by (apply head_quiet_prefix;
        exact (lacks_not_In _ _ "`"%char Hpre (or_introl eq_refl))).
  replace ("`"%char :: c ++ "`"%char :: post)
    with ("`"%char :: (c ++ ["`"%char]) ++ post)
    by (rewrite <- app_assoc; reflexivity).
  rewrite (replace_st_match text Re.code_span _ "`"%char (c ++ ["`"%char]) post
             [Some c] _ _ (code_span_match text c post Hc Hcl)).
  cbv zeta. cbn [fst snd matched length app].
  rewrite replace_st_quiet; [reflexivity|].
  intros p t E. exact (quiet_code_span post Hpost text p t E).
Qed.

(** X28.  The escaping pass puts a protected span back at the first place where
    its token [__PROTECTED_0__] stands.  When the text holds that token
    itself before its only code span, the span is written in place of the
    token of the text and the token appears where the span was. *)
Theorem escapeHTMLInText_restores_at_the_first_token :
  forall (a b c post : str),
    lacks (L "`[<_") a = true -> lacks (L "`[<") b = true ->
    c <> [] -> lacks (L "`$") c = true ->
    lacks (L "`[<") post = true ->
    escapeHTMLInText (a ++ placeholder 0 ++ b ++ L "`" ++ c ++ L "`" ++ post)
    = a ++ (L "`" ++ c ++ L "`") ++ b ++ placeholder 0 ++ post.
Proof.
  intros a b c post Ha Hb Hc Hcl Hpost.
  unfold escapeHTMLInText. cbv zeta.
  replace (a ++ placeholder 0 ++ b ++ L "`" ++ c ++ L "`" ++ post)
    with ((a ++ placeholder 0 ++ b) ++ "`"%char :: c ++ "`"%char :: post)
    by (repeat rewrite <- app_assoc; reflexivity).
  assert (Hph : forall cs, lacks cs (placeholder 0) = true ->
                           (forall x, In x cs -> In x (L "`[<")) ->
                           lacks cs ((a ++ placeholder 0 ++ b) ++ placeholder 0 ++ post) = true).
  { intros cs Hp Hs. rewrite !lacks_app, Hp.
    rewrite (lacks_sub (L "`[<_") cs a), (lacks_sub (L "`[<") cs b),
            (lacks_sub (L "`[<") cs post); auto.
    intros x Hx. apply Hs in Hx. simpl in *. tauto. }
  rewrite protect_one;
    [ | rewrite !lacks_app; apply andb_true_intro; split;
        [lacks_of_hyp|apply andb_true_intro; split; [reflexivity|lacks_of_hyp]]
      | exact Hc | lacks_of_hyp | lacks_of_hyp ].
  rewrite protect_quiet by (apply quiet_link, Hph; [reflexivity|simpl; tauto]).
  rewrite protect_quiet by (apply quiet_image, Hph; [reflexivity|simpl; tauto]).
  rewrite replace_fn_quiet by (apply quiet_tag_like, Hph; [reflexivity|simpl; tauto]).
  rewrite <- !app_assoc.
  rewrite restore_one.
  - cbn [L list_ascii_of_string app]. repeat rewrite <- app_assoc. reflexivity.
  - lacks_of_hyp.
  - change ("`"%char :: c ++ ["`"%char]) with (["`"%char] ++ c ++ ["`"%char]).
    rewrite !lacks_app.
    rewrite (lacks_sub (L "`$") (L "$") c); [reflexivity|simpl; tauto|exact Hcl].
Qed.

Lemma escapeHTMLInText_restores_at_the_first_token_witness :
  escapeHTMLInText (L "see " ++ placeholder 0 ++ L " and " ++ L "`" ++ L "x" ++ L "`" ++ L ".")
  = L "see " ++ (L "`" ++ L "x" ++ L "`") ++ L " and " ++ placeholder 0 ++ L ".".
Proof.
  apply (escapeHTMLInText_restores_at_the_first_token (L "see ") (L " and ") (L "x") (L "."));
    try reflexivity.
  discriminate.
Defined.

(* ================================================================== *)
(** ** The lines on which the dispatcher does not advance *)

Lemma m_grp_In_intro (inp : str) (a : regex) (s s1 : str) (c1 : caps) :
  In (s1, c1) (m inp a s) ->
  In (s1, Some (firstn (length s - length s1) s) :: c1) (m inp (Grp a) s).
Proof.
  intros H. cbn [m]. apply in_map_iff. exists (s1, c1). split; [reflexivity|exact H].
Qed.

Lemma exec_bol_some (r : regex) (s : str) (e : str * caps) :
  In e (m s r s) -> exec (Bol >> r) s <> None.
Proof.
  intros H. rewrite exec_bol. unfold match_here.
  destruct (m s r s); [destruct H|discriminate].
Qed.

Lemma list_item_none (line : str) :
  list_item line = None
  <-> exec Re.task line = None /\ exec Re.unordered line = None
      /\ exec Re.ordered line = None.
Proof.
  unfold list_item. split.
  - destruct (exec Re.task line); [discriminate|].
    destruct (exec Re.unordered line); [discriminate|].
    destruct (exec Re.ordered line); [discriminate|]. auto.
  - intros (-> & -> & ->). reflexivity.
Qed.

Lemma marker_facts (x : ascii) :
  one_of (L "-*+") x = true ->
  is_space x = false /\ is_digit x = false /\ x <> "#"%char /\ x <> "`"%char
  /\ x <> "|"%char.
Proof.
  destruct x as [[] [] [] [] [] [] [] []]; vm_compute; intros H;
    try discriminate H; repeat split; discriminate.
Qed.

Lemma digit_facts (x : ascii) :
  is_digit x = true ->
  is_space x = false /\ one_of (L "-*+") x = false /\ x <> "#"%char /\ x <> "`"%char
  /\ x <> "|"%char /\ x <> "."%char.
Proof.
  destruct x as [[] [] [] [] [] [] [] []]; vm_compute; intros H;
    try discriminate H; repeat split; discriminate.
Qed.

Lemma space_facts (x : ascii) :
  is_space x = true -> x <> "|"%char /\ x <> "#"%char /\ x <> "`"%char.
Proof.
  destruct x as [[] [] [] [] [] [] [] []]; vm_compute; intros H;
    try discriminate H; repeat split; discriminate.
Qed.

(** Behind a run of white space, a run of a class without white space
    must start at the first code unit that is not white space. *)
Lemma lead_run_inv (inp : str) (lo : nat) (hi hi' : option nat) (p : ascii -> bool)
    (r : regex) (ws : str) (y : ascii) (rest : str) (e : str * caps) :
  no_space p ->
  Forall (fun x => is_space x = true) ws -> is_space y = false ->
  In e (m inp (Grp (Rep is_space lo hi) >> Grp (Rep p 1 hi') >> r) (ws ++ y :: rest)) ->
  exists run s2 e',
    y :: rest = run ++ s2 /\ run <> [] /\ Forall (fun x => p x = true) run /\
    In e' (m inp r s2).
Proof.
  intros Hp Hw Hy H. destruct e as [s c].
  apply m_seq_In in H. destruct H as (s1 & c1 & c1' & H1 & H & _).
  apply m_seq_In in H. destruct H as (s2 & c2 & c2' & H2 & H & _).
  apply m_grp_In in H1. destruct H1 as (k1 & H1).
  apply m_rep_In in H1. destruct H1 as (run & E & Hr & _).
  apply m_grp_In in H2. destruct H2 as (k2 & H2).
  apply m_rep_In in H2. destruct H2 as (run2 & E2 & Hr2 & Hlen & _).
  symmetry in E.
  destruct (run_prefix is_space run _ ws y rest E Hr Hw Hy) as (k & -> & Ek).
  assert (Hne : run2 <> []) by (destruct run2; [simpl in Hlen; lia|discriminate]).
  destruct k as [|z k].
  - cbn [app] in Ek. exists run2, s2, (s, c2'). rewrite <- Ek, E2. auto.
  - exfalso. destruct run2 as [|x2 run2]; [congruence|].
    rewrite E2 in Ek. cbn [app] in Ek. injection Ek as -> _.
    inversion Hr2 as [|? ? Hz _]; subst.
    apply Forall_app in Hw. destruct Hw as [_ Hw].
    inversion Hw as [|? ? Hz' _]; subst.
    rewrite (Hp z Hz) in Hz'. discriminate Hz'.
Qed.

(** Nothing is left for the text of an item behind a single code unit of
    white space. *)
Lemma no_text_behind (inp : str) (w : ascii) (e : str * caps) :
  ~ In e (m inp (Re.ws_plus >> Grp Re.any_plus >> Eol) [w]).
Proof.
  intros H. destruct e as [s c].
  apply m_seq_In in H. destruct H as (s1 & c1 & c1' & H1 & H & _).
  apply m_seq_In in H. destruct H as (s2 & c2 & c2' & H2 & _ & _).
  apply m_rep_In in H1. destruct H1 as (run & E & _ & Hlen & _).
  apply m_grp_In in H2. destruct H2 as (k2 & H2).
  apply m_rep_In in H2. destruct H2 as (run2 & E2 & _ & Hlen2 & _).
  destruct run as [|a run]; [simpl in Hlen; lia|].
  cbn [app] in E. injection E as _ E.
  destruct run; [|discriminate E]. cbn [app] in E. subst s1.
  destruct run2; [simpl in Hlen2; lia|discriminate E2].
Qed.

Lemma no_checkbox_behind (inp : str) (r : regex) (w : ascii) (e : str * caps) :
  ~ In e (m inp (Re.ws_plus >> Re.C "[" >> r) [w]).
Proof.
  intros H. destruct e as [s c].
  apply m_seq_In in H. destruct H as (s1 & c1 & c1' & H1 & H & _).
  apply m_seq_In in H. destruct H as (s2 & c2 & c2' & H2 & _ & _).
  apply m_rep_In in H1. destruct H1 as (run & E & _ & Hlen & _).
  apply m_cls_In in H2. destruct H2 as (x & E2 & _).
  destruct run as [|a run]; [simpl in Hlen; lia|].
  cbn [app] in E. injection E as _ E.
  destruct run; [|discriminate E]. cbn [app] in E. subst s1. discriminate E2.
Qed.

(** An empty bullet item opens the list gate and is no item. *)
Lemma empty_bullet_stuck (ind : str) (mk w : ascii) :
  Forall (fun x => is_space x = true) ind ->
  one_of (L "-*+") mk = true -> is_space w = true ->
  test Re.list_bullet (ind ++ [mk; w]) = true /\ list_item (ind ++ [mk; w]) = None.
Proof.
  intros Hi Hm Hw. destruct (marker_facts mk Hm) as (M1 & M2 & _).
  split.
  - unfold Re.list_bullet, Re.marker.
    apply (lead_cls_intro _ _ _ mk [w] ([], [])).
    + apply trimStart_lead; assumption.
    + exact Hm.
    + apply m_cls_In_intro. exact Hw.
  - apply list_item_none. repeat split.
    + unfold Re.task. apply exec_bol_none. intros e H.
      apply (lead_inv _ 0 None _ _ ind mk [w] e no_space_marker Hi M1) in H.
      destruct H as [_ [e' H]]. exact (no_checkbox_behind _ _ w e' H).
    + unfold Re.unordered. apply exec_bol_none. intros e H.
      apply (lead_inv _ 0 None _ _ ind mk [w] e no_space_marker Hi M1) in H.
      destruct H as [_ [e' H]]. exact (no_text_behind _ w e' H).
    + unfold Re.ordered. apply exec_bol_none. intros e H.
      apply (lead_run_inv _ 0 None None is_digit _ ind mk [w] e no_space_digit Hi M1) in H.
      destruct H as (run & s2 & e' & E & Hne & Hr & _).
      destruct run as [|x run]; [congruence|].
      cbn [app] in E. injection E as <- _.
      inversion Hr as [|? ? Hx _]; subst. rewrite M2 in Hx. discriminate Hx.
Qed.

(** ... and so does an empty numbered item. *)
Lemma empty_number_stuck (ind digits : str) (w : ascii) :
  Forall (fun x => is_space x = true) ind ->
  digits <> [] -> Forall (fun x => is_digit x = true) digits -> is_space w = true ->
  test Re.list_number (ind ++ digits ++ ["."%char; w]) = true /\
  list_item (ind ++ digits ++ ["."%char; w]) = None.
Proof.
  intros Hi Hn Hd Hw. split.
  - unfold Re.list_number. apply test_bol_true. exists ([], [] ++ [] ++ [] ++ []).
    apply m_seq_In_intro with (s1 := digits ++ ["."%char; w]);
      [apply m_rep_In_run; [exact Hi|lia|exact I]|].
    apply m_seq_In_intro with (s1 := ["."%char; w]);
      [apply m_rep_In_run; [exact Hd|exact (nonempty_length _ Hn)|exact I]|].
    apply m_seq_In_intro with (s1 := [w]); [apply m_cls_In_intro; reflexivity|].
    apply m_cls_In_intro. exact Hw.
  - apply list_item_none. repeat split.
    + unfold Re.task. apply marker_none_number; assumption.
    + unfold Re.unordered. apply marker_none_number; assumption.
    + unfold Re.ordered. apply exec_bol_none. intros e H.
      destruct digits as [|d ds]; [congruence|].
      inversion Hd as [|? ? Hd0 Hds]; subst.
      destruct (digit_facts d Hd0) as (D1 & _).
      cbn [app] in H.
      apply (lead_run_inv _ 0 None None is_digit _ ind d (ds ++ ["."%char; w]) e
               no_space_digit Hi D1) in H.
      destruct H as (run & s2 & [s c] & E & _ & Hr & H).
      apply m_seq_In in H. destruct H as (s3 & c3 & c3' & H3 & H & _).
      apply m_cls_In in H3. destruct H3 as (x & -> & Hx). apply is_ch_eq in Hx. subst x.
      change (d :: ds ++ ["."%char; w]) with ((d :: ds) ++ "."%char :: [w]) in E.
      symmetry in E.
      destruct (run_prefix is_digit run _ (d :: ds) "."%char [w] E Hr Hd eq_refl)
        as (k & Ek & Es).
      destruct k as [|z k].
      * cbn [app] in Es. injection Es as ->. exact (no_text_behind _ w (s, c3') H).
      * cbn [app] in Es. injection Es as <- _.
        assert (Hz : is_digit "."%char = true).
        { apply (proj1 (Forall_forall _ _) Hd). rewrite Ek.
          apply in_or_app. right. left. reflexivity. }
        discriminate Hz.
Qed.

Lemma bullet_gate_inv (line : str) :
  test Re.list_bullet line = true ->
  exists ind mk w s4,
    line = ind ++ mk :: w :: s4 /\ Forall (fun x => is_space x = true) ind /\
    one_of (L "-*+") mk = true /\ is_space w = true.
Proof.
  unfold Re.list_bullet, Re.marker. intros H. apply test_bol_true in H.
  destruct H as [[s c] H].
  apply m_seq_In in H. destruct H as (s1 & c1 & c1' & H1 & H & _).
  apply m_seq_In in H. destruct H as (s2 & c2 & c2' & H2 & H3 & _).
  apply m_rep_In in H1. destruct H1 as (ind & E & Hi & _).
  apply m_cls_In in H2. destruct H2 as (mk & -> & Hm).
  apply m_cls_In in H3. destruct H3 as (w & -> & Hw).
  exists ind, mk, w, s. auto.
Qed.

Lemma number_gate_inv (line : str) :
  test Re.list_number line = true ->
  exists ind digits w s4,
    line = ind ++ digits ++ "."%char :: w :: s4 /\
    Forall (fun x => is_space x = true) ind /\
    digits <> [] /\ Forall (fun x => is_digit x = true) digits /\ is_space w = true.
Proof.
  unfold Re.list_number. intros H. apply test_bol_true in H.
  destruct H as [[s c] H].
  apply m_seq_In in H. destruct H as (s1 & c1 & c1' & H1 & H & _).
  apply m_seq_In in H. destruct H as (s2 & c2 & c2' & H2 & H & _).
  apply m_seq_In in H. destruct H as (s3 & c3 & c3' & H3 & H4 & _).
  apply m_rep_In in H1. destruct H1 as (ind & E & Hi & _).
  apply m_rep_In in H2. destruct H2 as (digits & -> & Hd & Hlen & _).
  apply m_cls_In in H3. destruct H3 as (x & -> & Hx). apply is_ch_eq in Hx. subst x.
  apply m_cls_In in H4. destruct H4 as (w & -> & Hw).
  exists ind, digits, w, s. repeat split; try assumption.
  intros ->. simpl in Hlen. lia.
Qed.

Lemma lacks_is_dot (s : str) :
  lacks [CR; LF] s = true -> Forall (fun x => is_dot x = true) s.
Proof.
  intros H. apply Forall_forall. intros x Hx. unfold is_dot.
  assert (H1 : x <> LF) by (intros ->; exact (lacks_not_In _ _ LF H ltac:(simpl; auto) Hx)).
  assert (H2 : x <> CR) by (intros ->; exact (lacks_not_In _ _ CR H ltac:(simpl; auto) Hx)).
  apply ch_eqb_false in H1. apply ch_eqb_false in H2. rewrite H1, H2. reflexivity.
Qed.

Lemma text_behind (inp : str) (w : ascii) (s4 : str) :
  is_space w = true -> s4 <> [] -> Forall (fun x => is_dot x = true) s4 ->
  exists e, In e (m inp (Re.ws_plus >> Grp Re.any_plus >> Eol) (w :: s4)).
Proof.
  intros Hw Hn Hd. eexists.
  eapply m_seq_In_intro.
  - apply (m_rep_In_run inp is_space 1 None [w] s4); [repeat constructor; exact Hw|simpl; lia|exact I].
  - eapply m_seq_In_intro.
    + apply m_grp_In_intro.
      pose proof (m_rep_In_run inp is_dot 1 None s4 [] Hd (nonempty_length _ Hn) I) as H.
      rewrite app_nil_r in H. exact H.
    + simpl. left. reflexivity.
Qed.

(** A bullet or a number with a text behind its white space is an item. *)
Lemma bullet_with_text (ind : str) (mk w : ascii) (s4 : str) :
  Forall (fun x => is_space x = true) ind -> one_of (L "-*+") mk = true ->
  is_space w = true -> s4 <> [] -> Forall (fun x => is_dot x = true) s4 ->
  exec Re.unordered (ind ++ mk :: w :: s4) <> None.
Proof.
  intros Hi Hm Hw Hn Hd. unfold Re.unordered.
  destruct (text_behind (ind ++ mk :: w :: s4) w s4 Hw Hn Hd) as [[s c] He].
  eapply exec_bol_some.
  eapply m_seq_In_intro.
  - apply m_grp_In_intro. apply m_rep_In_run; [exact Hi|lia|exact I].
  - eapply m_seq_In_intro.
    + apply m_grp_In_intro. apply m_cls_In_intro. exact Hm.
    + exact He.
Qed.

Lemma number_with_text (ind digits : str) (w : ascii) (s4 : str) :
  Forall (fun x => is_space x = true) ind ->
  digits <> [] -> Forall (fun x => is_digit x = true) digits ->
  is_space w = true -> s4 <> [] -> Forall (fun x => is_dot x = true) s4 ->
  exec Re.ordered (ind ++ digits ++ "."%char :: w :: s4) <> None.
Proof.
  intros Hi Hdn Hds Hw Hn Hd. unfold Re.ordered.
  destruct (text_behind (ind ++ digits ++ "."%char :: w :: s4) w s4 Hw Hn Hd)
    as [[s c] He].
  eapply exec_bol_some.
  eapply m_seq_In_intro.
  - apply m_grp_In_intro. apply m_rep_In_run; [exact Hi|lia|exact I].
  - eapply m_seq_In_intro.
    + apply m_grp_In_intro.
      apply m_rep_In_run; [exact Hds|exact (nonempty_length _ Hdn)|exact I].
    + eapply m_seq_In_intro; [apply m_cls_In_intro; reflexivity|exact He].
Qed.

Lemma stuck_line_shape (line : str) :
  lacks [CR; LF] line = true -> (stuck_line line = true <-> empty_item line).
Proof.
  intros Hl. pose proof (lacks_is_dot line Hl) as Hdot. split.
  - unfold stuck_line. intros H. apply andb_prop in H. destruct H as [Hg Hnone].
    destruct (list_item line) eqn:E; [discriminate Hnone|]. clear Hnone.
    apply list_item_none in E. destruct E as (_ & Eu & Eo).
    apply orb_prop in Hg. destruct Hg as [Hg|Hg].
    + destruct (bullet_gate_inv line Hg) as (ind & mk & w & s4 & El & Hi & Hm & Hw).
      exists ind, w. repeat split; try assumption. left. exists mk. split; [exact Hm|].
      destruct s4 as [|y s4]; [exact El|]. exfalso.
      rewrite El in Eu, Hdot.
      apply Forall_app in Hdot. destruct Hdot as [_ Hdot].
      inversion Hdot as [|? ? _ Hdot']; subst. inversion Hdot' as [|? ? _ Hd4]; subst.
      exact (bullet_with_text ind mk w (y :: s4) Hi Hm Hw ltac:(discriminate) Hd4 Eu).
    + destruct (number_gate_inv line Hg)
        as (ind & digits & w & s4 & El & Hi & Hdn & Hds & Hw).
      exists ind, w. repeat split; try assumption. right. exists digits.
      repeat split; try assumption.
      destruct s4 as [|y s4]; [exact El|]. exfalso.
      rewrite El in Eo, Hdot.
      apply Forall_app in Hdot. destruct Hdot as [_ Hdot].
      apply Forall_app in Hdot. destruct Hdot as [_ Hdot].
      inversion Hdot as [|? ? _ Hdot']; subst. inversion Hdot' as [|? ? _ Hd4]; subst.
      exact (number_with_text ind digits w (y :: s4) Hi Hdn Hds Hw
               ltac:(discriminate) Hd4 Eo).
  - intros (ind & w & Hi & Hw & [(mk & Hm & ->)|(digits & Hdn & Hds & ->)]).
    + destruct (empty_bullet_stuck ind mk w Hi Hm Hw) as [Hg Hn].
      unfold stuck_line. rewrite Hg, Hn. reflexivity.
    + destruct (empty_number_stuck ind digits w Hi Hdn Hds Hw) as [Hg Hn].
      unfold stuck_line. rewrite Hg, Hn, orb_true_r. reflexivity.
Qed.

(** What processBlockElement returns on an empty item: the list of no
    item, and the index it was given. *)
Lemma empty_item_block (lines : list str) (i : nat) (line : str) :
  empty_item line -> nth_error lines i = Some line ->
  processBlockElement lines i
  = Ret (Some {| html := L "<null>" ++ nl ++ L "</null>"; nextIndex := i |}) /\
  trim line <> [].
Proof.
  intros (ind & w & Hi & Hw & Hshape) Hn.
  assert (Hx : exists x s, trimStart line = x :: s /\ is_space x = false /\ In x line
                           /\ x <> "#"%char /\ x <> "`"%char).
  { destruct Hshape as [(mk & Hm & ->)|(digits & Hdn & Hds & ->)].
    - destruct (marker_facts mk Hm) as (M1 & _ & M3 & M4 & _).
      exists mk, [w]. repeat split; try assumption.
      + apply trimStart_lead; assumption.
      + apply in_or_app. right. left. reflexivity.
    - destruct digits as [|d ds]; [congruence|].
      inversion Hds as [|? ? Hd _]; subst.
      destruct (digit_facts d Hd) as (D1 & _ & D3 & D4 & _).
      exists d, (ds ++ ["."%char; w]). repeat split; try assumption.
      + apply (trimStart_lead ind (ds ++ ["."%char; w]) d Hi D1).
      + apply in_or_app. right. left. reflexivity. }
  destruct Hx as (x & s & Et & Hxs & Hxin & X1 & X2).
  assert (Hpipe : ~ In "|"%char line).
  { intros Hin.
    assert (Sp : forall c, In c ind -> c <> "|"%char).
    { intros c Hc. apply space_facts. exact (proj1 (Forall_forall _ _) Hi c Hc). }
    destruct (space_facts w Hw) as (W1 & _).
    destruct Hshape as [(mk & Hm & ->)|(digits & Hdn & Hds & ->)].
    - destruct (marker_facts mk Hm) as (_ & _ & _ & _ & M5).
      apply in_app_or in Hin. destruct Hin as [Hin|[Hin|[Hin|[]]]].
      + exact (Sp _ Hin eq_refl).
      + exact (M5 Hin).
      + exact (W1 Hin).
    - apply in_app_or in Hin. destruct Hin as [Hin|Hin]; [exact (Sp _ Hin eq_refl)|].
      apply in_app_or in Hin. destruct Hin as [Hin|[Hin|[Hin|[]]]].
      + pose proof (proj1 (Forall_forall _ _) Hds _ Hin) as Hd.
        destruct (digit_facts _ Hd) as (_ & _ & _ & _ & D5 & _). exact (D5 eq_refl).
      + discriminate Hin.
      + exact (W1 Hin). }
  assert (Hstuck : (test Re.list_bullet line || test Re.list_number line) = true
                   /\ list_item line = None).
  { destruct Hshape as [(mk & Hm & ->)|(digits & Hdn & Hds & ->)].
    - destruct (empty_bullet_stuck ind mk w Hi Hm Hw) as [Hg Hnone].
      rewrite Hg. auto.
    - destruct (empty_number_stuck ind digits w Hi Hdn Hds Hw) as [Hg Hnone].
      rewrite Hg, orb_true_r. auto. }
  destruct Hstuck as [Hg Hnone].
  split; [|exact (trim_nonblank line x Hxin Hxs)].
  unfold processBlockElement. rewrite Hn.
  rewrite (gate_header_lead line x s Et X1), (gate_fence_lead line x s Et X2).
  assert (F2 : isTableRow line = false).
  { destruct (isTableRow line) eqn:E; [|reflexivity].
    apply isTableRow_In in E. contradiction. }
  rewrite F2. cbn [andb]. rewrite Hg.
  unfold processList. rewrite (nth_error_skipn _ _ _ Hn). cbn [list_loop].
  rewrite Hnone. reflexivity.
Qed.

(** X29.  The lines on which [parse] does not return.  Among the lines
    [parse] works on, a line opens the list gate of processBlockElement
    without being an item for processList exactly when it is an empty
    item: white space, one of [-], [*], [+] or a number and a dot, one code
    unit of white space, and nothing behind it.  On such a line
    processBlockElement returns the index it was given, so the block
    dispatcher never leaves it, whatever the fuel; [parse] of a document
    that starts with an empty item does not return. *)
Theorem empty_items_hang_the_dispatcher :
  forall (line : str),
    (lacks [CR; LF] line = true -> (stuck_line line = true <-> empty_item line)) /\
    (empty_item line ->
     forall (lines : list str) (i : nat),
       nth_error lines i = Some line ->
       processBlockElement lines i
       = Ret (Some {| html := L "<null>" ++ nl ++ L "</null>"; nextIndex := i |}) /\
       (forall (fuel : nat) (result : list str),
          processLines_loop fuel lines i result = OutOfFuel)) /\
    (empty_item line ->
     forall (options : Options) (DOMPurify : option (str -> list str -> str))
            (fuel : nat) (markdown : str) (rest : list str),
       lines_of markdown = line :: rest ->
       parse options DOMPurify fuel markdown = OutOfFuel).
Proof.
  intros line.
  assert (Hang : empty_item line ->
                 forall (lines : list str) (i : nat),
                   nth_error lines i = Some line ->
                   forall (fuel : nat) (result : list str),
                     processLines_loop fuel lines i result = OutOfFuel).
  { intros He lines i Hn.
    destruct (empty_item_block lines i line He Hn) as [Hb Ht].
    induction fuel as [|fuel IH]; intros result; [reflexivity|].
    assert (Hnb : str_eqb (trim line) [] && (length result =? 0) = false).
    { destruct (str_eqb (trim line) []) eqn:E; [|reflexivity].
      apply str_eqb_nil in E. contradiction. }
    rewrite (loop_block fuel lines i result line _ Hn Hnb Hb).
    cbn [nextIndex]. apply IH. }
  split; [exact (stuck_line_shape line)|]. split.
  - intros He lines i Hn. split.
    + exact (proj1 (empty_item_block lines i line He Hn)).
    + exact (Hang He lines i Hn).
  - intros He options DOMPurify fuel markdown rest El.
    assert (Hne : markdown <> []).
    { intros ->. vm_compute in El. injection El as <- _.
      destruct He as (ind & w & _ & _ & [(mk & _ & E)|(digits & _ & _ & E)]).
      - destruct ind; discriminate E.
      - destruct ind; [destruct digits|]; discriminate E. }
    rewrite (parse_nonempty options DOMPurify fuel markdown Hne), El.
    unfold processLines. rewrite (Hang He (line :: rest) 0 eq_refl). reflexivity.
Qed.

Lemma empty_items_hang_the_dispatcher_witness :
  (stuck_line (L " 12. ") = true <-> empty_item (L " 12. ")) /\
  (forall (fuel : nat) (result : list str),
     processLines_loop fuel [L "text"; L " 12. "; L "more"] 1 result = OutOfFuel) /\
  (forall fuel : nat,
     parse default_options None fuel (L "* " ++ nl ++ L "text") = OutOfFuel).
Proof.
  assert (E1 : empty_item (L " 12. ")).
  { exists (L " "), " "%char. repeat split; [repeat constructor|].
    right. exists (L "12"). repeat split; [discriminate|repeat constructor]. }
  assert (E2 : empty_item (L "* ")).
  { exists [], " "%char. repeat split; [constructor|].
    left. exists "*"%char. split; reflexivity. }
  split; [|split].
  - apply (proj1 (empty_items_hang_the_dispatcher (L " 12. "))). reflexivity.
  - apply (proj1 (proj2 (empty_items_hang_the_dispatcher (L " 12. "))) E1
             [L "text"; L " 12. "; L "more"] 1 eq_refl).
  - intros fuel.
    apply (proj2 (proj2 (empty_items_hang_the_dispatcher (L "* "))) E2
             default_options None fuel (L "* " ++ nl ++ L "text") [L "text"]).
    vm_compute. reflexivity.
Defined.

